(** * A shallow embedding of [webcrawler.py]

    The crawler of the repository has two traversal functions, [bfs_crawl]
    (best-first, a [heapq] of [(score, url, depth)] tuples) and [dfs_crawl]
    (depth-first, a Python list used as a stack of [(url, depth)] tuples).
    Both run the same loop: poll the stop event, pop an item, discard it when
    it is visited or too deep, otherwise fetch and parse the page, add the
    URL to [visited], push the page's links and merge the page's categories
    into the result.

    The network, [BeautifulSoup], [urljoin], the stop event and the progress
    callback are collaborators of the code.  They are modelled as an explicit
    environment ([web], [stop_event], [progress_callback]) and every call the
    loop makes to them is recorded in a trace of events.

    A Python string is modelled by the Rocq string that holds its UTF-8
    encoding, as a string literal of Rocq does; this covers the text of a
    decoded page, which has no lone surrogate.  Equality, the order of
    strings by code point, [in], [count] of a non-empty string,
    [rstrip('/')] and [split(",")] read the same on the bytes as on the code
    points, since an encoded code point never begins inside another one;
    [len] counts the bytes that begin a code point.  [str.lower()] and
    [str.strip()] follow the Unicode tables of the interpreter, which are
    not embedded: a run takes the two functions from its environment, as it
    takes the network.  On ASCII text they are [PyStr.ascii_lower] and
    [PyStr.ascii_strip], and the synthetic sites, whose text is ASCII, use
    these.

    Of the rest of the file, [calculate_pagerank] and the call of the crawl
    that [start_crawl] makes from the entry fields are embedded as well.
    The widgets, the files written by [log_error] and [export_results] and
    the float arithmetic of the progress bar are not. *)

From Stdlib Require Import ZArith String Ascii List Lia ZifyNat Sorted.
From stdpp Require Import base gmap sets list strings.

Open Scope Z_scope.

#[local] Set Warnings "-clear-no-such-hyp".

(** ** Python string methods used by the crawler *)

Module PyStr.

(** A byte [10xxxxxx]: in UTF-8, a byte of a code point after its first. *)
Definition is_continuation (c : ascii) : bool :=
  let n := nat_of_ascii c in
  ((128 <=? n) && (n <? 192))%nat.

(** [len(s)]: the number of code points of [s], that is of the bytes that
    begin one. *)
Fixpoint len (s : string) : nat :=
  match s with
  | EmptyString => 0
  | String c s' => if is_continuation c then len s' else S (len s')
  end.

(** [c.lower()] for an ASCII character: [A-Z] go to [a-z]. *)
Definition lower_ascii (c : ascii) : ascii :=
  let n := nat_of_ascii c in
  if ((65 <=? n) && (n <=? 90))%nat then ascii_of_nat (n + 32) else c.

(** [s.lower()] for ASCII text.  This is not [str.lower()] on other text:
    the crawl does not use it, it takes [str.lower()] from its
    environment. *)
Fixpoint ascii_lower (s : string) : string :=
  match s with
  | EmptyString => EmptyString
  | String c s' => String (lower_ascii c) (ascii_lower s')
  end.

(** [c.isspace()] for an ASCII character: tab, line feed, vertical tab,
    form feed, carriage return, the four separators 28..31 and space. *)
Definition ascii_isspace (c : ascii) : bool :=
  let n := nat_of_ascii c in
  (((9 <=? n) && (n <=? 13)) || ((28 <=? n) && (n <=? 32)))%nat.

(** [s.lstrip(chars)], the set of characters given as a predicate. *)
Fixpoint lstrip (p : ascii -> bool) (s : string) : string :=
  match s with
  | EmptyString => EmptyString
  | String c s' => if p c then lstrip p s' else s
  end.

(** [s.rstrip(chars)]: a character is dropped when it is in the set and
    everything after it has been dropped. *)
Fixpoint rstrip (p : ascii -> bool) (s : string) : string :=
  match s with
  | EmptyString => EmptyString
  | String c s' =>
      match rstrip p s' with
      | EmptyString => if p c then EmptyString else String c EmptyString
      | r => String c r
      end
  end.

(** [s.strip()] for ASCII text; as for [ascii_lower], the crawl takes
    [str.strip()] from its environment. *)
Definition ascii_strip (s : string) : string :=
  rstrip ascii_isspace (lstrip ascii_isspace s).

(** [s.rstrip('/')] *)
Definition is_slash (c : ascii) : bool := Ascii.eqb c "/"%char.
Definition rstrip_slash (s : string) : string := rstrip is_slash s.

(** [s.endswith('/')] *)
Fixpoint endswith_slash (s : string) : bool :=
  match s with
  | EmptyString => false
  | String c EmptyString => is_slash c
  | String _ s' => endswith_slash s'
  end.

(** [s.count(sub)] for a non-empty [sub]: occurrences are counted from the
    left without overlap; [skip] is the number of bytes of the last match
    that are still to be passed. *)
Fixpoint count_go (sub s : string) (skip : nat) : nat :=
  match s with
  | EmptyString => 0
  | String _ s' =>
      match skip with
      | S k => count_go sub s' k
      | O =>
          if String.prefix sub s
          then S (count_go sub s' (String.length sub - 1))
          else count_go sub s' 0
      end
  end.

(** [s.count(sub)]; Python counts the empty string once at every position,
    the end included. *)
Definition count (s sub : string) : nat :=
  match sub with
  | EmptyString => S (len s)
  | _ => count_go sub s 0
  end.

(** [sub in s] *)
Fixpoint contains (s sub : string) : bool :=
  String.prefix sub s ||
  match s with
  | EmptyString => false
  | String _ s' => contains s' sub
  end.

End PyStr.


(** ** The collaborators *)

(** A call that may raise: [Raise msg] is an exception [e] with
    [str(e) = msg]. *)
Inductive result (A : Type) : Type :=
| Ok (a : A)
| Raise (msg : string).
Arguments Ok {A} a.
Arguments Raise {A} msg.

(** An anchor element with an [href] attribute: [tag['href']] and
    [tag.get_text()]. *)
Record tag : Type := Tag { href : string; get_text : string }.

(** What the crawler reads of a parsed page: the texts of the elements found
    by [soup.find_all(['h2', 'h3', 'h4', 'li'])] in document order, the anchors
    found by [soup.find_all("a", href=True)], and [soup.get_text()]. *)
Record soup : Type := Soup {
  find_all_headings : list string;
  find_all_a : list tag;
  soup_get_text : string
}.

(** The world as seen by one run.  [urlopen n url] is the outcome of
    [urllib.request.urlopen(url)] followed by [BeautifulSoup(response,
    'html.parser')] when it is made in loop iteration [n]: outcomes may change
    from one iteration to the next in any way.  [urljoin] raises [ValueError]
    on some malformed references, hence the [result].  [str_lower s] is
    [s.lower()] and [str_strip s] is [s.strip()], by the Unicode tables of
    the interpreter that runs the crawl; nothing is assumed of them. *)
Record web : Type := Web {
  urlopen : nat -> string -> result soup;
  urljoin : string -> string -> result string;
  str_lower : string -> string;
  str_strip : string -> string
}.

(** The progress callback is opaque to the crawler; what matters is whether
    one was supplied. *)
Inductive callback : Type := Callback.

(** Calls to the collaborators, in the order the loop makes them.  [Pop],
    [Fetch] and [VisitedAdd] carry the depth of the popped item. *)
Inductive event : Type :=
| IsSet (b : bool)                       (* stop_event.is_set() returned b *)
| Pop (url : string) (depth : Z)         (* heappop(queue) / stack.pop() *)
| Fetch (url : string) (depth : Z)       (* urllib.request.urlopen(url) *)
| VisitedAdd (url : string) (depth : Z)  (* visited.add(url) *)
| LogError (url msg : string)            (* log_error(url, str(e)) *)
| Progress (n m : Z).                    (* progress_callback(n, m) *)

Global Instance event_eq_dec : EqDecision event.
Proof. solve_decision. Defined.

(** ** [heapq] on tuples [(score, url, depth)] *)

Definition item : Type := Z * string * Z.

(** Python compares tuples lexicographically, integers by value and strings
    by code point. *)
Definition item_compare (a b : item) : comparison :=
  let '(s1, u1, d1) := a in
  let '(s2, u2, d2) := b in
  match Z.compare s1 s2 with
  | Eq => match String.compare u1 u2 with
          | Eq => Z.compare d1 d2
          | c => c
          end
  | c => c
  end.

Definition item_ltb (a b : item) : bool :=
  match item_compare a b with Lt => true | _ => false end.
Definition item_leb (a b : item) : bool :=
  match item_compare a b with Gt => false | _ => true end.

Global Instance item_eq_dec : EqDecision item.
Proof. solve_decision. Defined.

(** [bool(l)] for a list: a list is true when it is not empty. *)
Definition nonempty {A : Type} (l : list A) : bool :=
  match l with [] => false | _ => true end.

(** [l.pop()]: the last element and the list without it; [None] stands for
    the [IndexError] on an empty list. *)
Fixpoint list_pop {A : Type} (l : list A) : option (A * list A) :=
  match l with
  | [] => None
  | x :: l' =>
      match list_pop l' with
      | None => Some (x, [])
      | Some (y, r) => Some (y, x :: r)
      end
  end.

(** [heapq], after CPython's [Lib/heapq.py].  The heap is a Python list
    [heap] with [heap[k] <= heap[2*k+1]] and [heap[k] <= heap[2*k+2]]. *)

(** [(pos - 1) >> 1] *)
Definition parent (pos : nat) : nat := ((pos - 1) / 2)%nat.

(** The loop of [_siftdown(heap, startpos, pos)]: [newitem] moves towards
    the root while it is smaller than its parent.  [pos] more passes are
    never needed. *)
Fixpoint siftdown_loop (fuel : nat) (heap : list item) (startpos pos : nat)
    (newitem : item) : list item :=
  match fuel with
  | O => <[pos := newitem]> heap
  | S fuel' =>
      if (startpos <? pos)%nat
      then
        let parentpos := parent pos in
        let parent := heap !!! parentpos in
        if item_ltb newitem parent
        then siftdown_loop fuel' (<[pos := parent]> heap) startpos parentpos newitem
        else <[pos := newitem]> heap
      else <[pos := newitem]> heap
  end.

Definition siftdown (heap : list item) (startpos pos : nat) : list item :=
  let newitem := heap !!! pos in
  siftdown_loop pos heap startpos pos newitem.

(** The loop of [_siftup(heap, pos)]: the smaller child moves up into the
    hole until the hole is at a leaf.  Returns the list and the final
    [pos]. *)
Fixpoint siftup_loop (fuel : nat) (heap : list item) (endpos pos : nat)
    : list item * nat :=
  match fuel with
  | O => (heap, pos)
  | S fuel' =>
      let childpos := (2 * pos + 1)%nat in
      if (childpos <? endpos)%nat
      then
        let rightpos := (childpos + 1)%nat in
        let childpos :=
          if (rightpos <? endpos)%nat
             && negb (item_ltb (heap !!! childpos) (heap !!! rightpos))
          then rightpos else childpos in
        siftup_loop fuel' (<[pos := heap !!! childpos]> heap) endpos childpos
      else (heap, pos)
  end.

Definition siftup (heap : list item) (pos : nat) : list item :=
  let endpos := length heap in
  let startpos := pos in
  let newitem := heap !!! pos in
  let '(heap, pos) := siftup_loop endpos heap endpos pos in
  siftdown (<[pos := newitem]> heap) startpos pos.

(** [heappush(heap, item)] *)
Definition heappush (heap : list item) (x : item) : list item :=
  siftdown (heap ++ [x]) 0 (length heap).

(** [heappop(heap)]; [None] stands for the [IndexError] on an empty heap. *)
Definition heappop (heap : list item) : option (item * list item) :=
  match list_pop heap with
  | None => None
  | Some (lastelt, heap) =>
      match heap with
      | [] => Some (lastelt, [])
      | returnitem :: _ => Some (returnitem, siftup (<[0%nat := lastelt]> heap) 0)
      end
  end.

(** The heap invariant. *)
Definition is_heap (heap : list item) : Prop :=
  forall i, (0 < i < length heap)%nat ->
            item_leb (heap !!! parent i) (heap !!! i) = true.

(** The invariant of the loop of [_siftdown], for the hole at [pos] that
    [newitem] will fill: the heap order holds between all positions other
    than the hole, the children of the hole are not below [newitem], and
    they are not below the parent of the hole. *)
Definition siftdown_inv (heap : list item) (pos : nat) (newitem : item) : Prop :=
  (forall i, (0 < i < length heap)%nat -> i <> pos -> parent i <> pos ->
             item_leb (heap !!! parent i) (heap !!! i) = true)
  /\ (forall c, (0 < c < length heap)%nat -> parent c = pos ->
                item_leb newitem (heap !!! c) = true
                /\ ((0 < pos)%nat ->
                    item_leb (heap !!! parent pos) (heap !!! c) = true)).

(** The invariant of the loop of [_siftup], for the hole at [pos]: the heap
    order holds everywhere except from the hole to its children, and the
    children of the hole are not below its parent. *)
Definition siftup_inv (heap : list item) (pos : nat) : Prop :=
  (forall i, (0 < i < length heap)%nat -> parent i <> pos ->
             item_leb (heap !!! parent i) (heap !!! i) = true)
  /\ ((0 < pos)%nat ->
      forall c, (0 < c < length heap)%nat -> parent c = pos ->
                item_leb (heap !!! parent pos) (heap !!! c) = true).

(** ** Helper functions of the crawler *)

(** [keyword_heuristic_score(content, keywords)], lines 32-38. *)
Definition keyword_heuristic_score (w : web) (content : string)
    (keywords : list string) : Z :=
  let content := str_lower w content in
  fold_left (fun score keyword =>
               score + Z.of_nat (PyStr.count content (str_lower w keyword)))
            keywords 0.

(** [extract_categories(soup)], lines 15-22: a dictionary whose values are
    all the empty list. *)
Definition extract_categories (w : web) (s : soup) : gmap string (list string) :=
  fold_left (fun categories t =>
               let text := str_lower w (str_strip w t) in
               if (3 <=? PyStr.len text)%nat
               then <[text := []]> categories else categories)
            (find_all_headings s) ∅.

(** Truth value of the [keywords] argument: [None] and the empty list are
    false. *)
Definition truthy (keywords : option (list string)) : bool :=
  match keywords with
  | Some (_ :: _) => true
  | _ => false
  end.

(** Line 71: the score of a discovered link. *)
Definition link_score (w : web) (page_content : string)
    (keywords : option (list string)) (link : string) : Z :=
  if truthy keywords
  then keyword_heuristic_score w page_content (default [] keywords)
  else Z.of_nat (PyStr.len link).

(** ** The frontier *)

(** The two functions differ only in their frontier: how it is created
    (lines 48 and 92), popped (lines 56 and 100) and pushed to (lines 71-72
    and 115); the push is given the world for the [lower()] of the scorer.
    [frontier_items] lists the pending [(url, depth)] pairs; it is used in
    statements only. *)
Class Frontier (F : Type) : Type := {
  frontier_init : string -> F;
  frontier_nonempty : F -> bool;
  frontier_pop : F -> option (string * Z * F);
  frontier_push : web -> string -> option (list string) -> F -> string -> Z -> F;
  frontier_items : F -> list (string * Z)
}.

(** Best-first: a heap of [(score, url, depth)]. *)
Definition bfs_pop (queue : list item) : option (string * Z * list item) :=
  match heappop queue with
  | Some ((_, current_url, depth), queue') => Some (current_url, depth, queue')
  | None => None
  end.

Definition bfs_push (w : web) (page_content : string)
    (keywords : option (list string)) (queue : list item) (link : string)
    (depth' : Z) : list item :=
  let score := link_score w page_content keywords link in
  heappush queue (score, link, depth').

Global Instance best_first : Frontier (list item) := {|
  frontier_init start_url := [(0, start_url, 0)];
  frontier_nonempty := nonempty;
  frontier_pop := bfs_pop;
  frontier_push := bfs_push;
  frontier_items queue := (fun '(_, url, depth) => (url, depth)) <$> queue
|}.

(** Depth-first: a Python list of [(url, depth)]; [append] adds at the end
    and [pop()] removes the last element. *)
Definition dfs_pop (stack : list (string * Z)) : option (string * Z * list (string * Z)) :=
  match list_pop stack with
  | Some ((current_url, depth), stack') => Some (current_url, depth, stack')
  | None => None
  end.

Definition dfs_push (w : web) (page_content : string)
    (keywords : option (list string)) (stack : list (string * Z)) (link : string)
    (depth' : Z) : list (string * Z) :=
  stack ++ [(link, depth')].

Global Instance depth_first : Frontier (list (string * Z)) := {|
  frontier_init start_url := [(start_url, 0)];
  frontier_nonempty := nonempty;
  frontier_pop := dfs_pop;
  frontier_push := dfs_push;
  frontier_items stack := stack
|}.

(** ** The crawl loop *)

(** The local variables of a run, the calls made so far and the number of
    loop iterations completed. *)
Record state (F : Type) : Type := State {
  frontier : F;
  visited : gset string;
  categorized_urls : gmap string (list string);
  trace : list event;
  iteration : nat
}.
Arguments State {F}.
Arguments frontier {F}.
Arguments visited {F}.
Arguments categorized_urls {F}.
Arguments trace {F}.
Arguments iteration {F}.

(** How one pass through the loop ends: back to the loop test, out of the
    loop to [return categorized_urls], or with an exception that nothing
    catches. *)
Inductive outcome (S : Type) : Type :=
| Continue (s : S)
| Return (s : S)
| Uncaught (s : S).
Arguments Continue {S}.
Arguments Return {S}.
Arguments Uncaught {S}.

Definition outcome_state {S : Type} (o : outcome S) : S :=
  match o with Continue s | Return s | Uncaught s => s end.

(** Lines 78-80 (and 121-123): every category of the page that collected a
    link extends its list in the result by [set(urls)].  A Python set is
    iterated in no particular order; the model keeps one copy of each link in
    list order. *)
Definition merge_categories (categories categorized_urls : gmap string (list string))
    : gmap string (list string) :=
  map_fold (fun category urls acc =>
              match urls with
              | [] => acc
              | _ => <[category := default [] (acc !! category) ++ remove_dups urls]> acc
              end)
           categorized_urls categories.

(** ** Reading a trace *)

(** The URLs added to [visited] in a trace. *)
Fixpoint added (tr : list event) : gset string :=
  match tr with
  | [] => ∅
  | VisitedAdd url _ :: tr' => {[url]} ∪ added tr'
  | _ :: tr' => added tr'
  end.

(** Every fetch and every addition in the trace is for a URL that is not in
    [seen] and was not added earlier in the trace. *)
Fixpoint fresh (seen : gset string) (tr : list event) : Prop :=
  match tr with
  | [] => True
  | Fetch url _ :: tr' => (url ∉ seen) /\ fresh seen tr'
  | VisitedAdd url _ :: tr' => (url ∉ seen) /\ fresh ({[url]} ∪ seen) tr'
  | _ :: tr' => fresh seen tr'
  end.

(** The depth carried by a fetch or an addition is within the limit. *)
Definition within_depth (max_depth : Z) (e : event) : Prop :=
  match e with
  | Fetch _ depth | VisitedAdd _ depth => depth <= max_depth
  | _ => True
  end.

(** The events added to the trace between two states of a run. *)
Definition new_events {F : Type} (before after : state F) : list event :=
  drop (length (trace before)) (trace after).

Section Crawl.

Context {F : Type} `{Frontier F}.
Variable w : web.
Variables max_pages max_depth : Z.
Variable keywords : option (list string).
Variable progress_callback : option callback.
Variable stop_event : option (nat -> bool).

(** Lines 67-76 (and 111-119): the loop over the anchors of the page.  The
    frontier is updated in place, so the links pushed before an exception
    stay pushed; the page's [categories] are lost with the exception. *)
Fixpoint scan_links (current_url : string) (depth : Z) (page_content : string)
    (visited : gset string) (tags : list tag) (queue : F)
    (categories : gmap string (list string))
    : F * result (gmap string (list string)) :=
  match tags with
  | [] => (queue, Ok categories)
  | t :: tags' =>
      match urljoin w current_url (href t) with
      | Raise msg => (queue, Raise msg)
      | Ok joined =>
          let link := PyStr.rstrip_slash joined in
          if decide (link ∈ visited)
          then scan_links current_url depth page_content visited tags' queue categories
          else
            let queue :=
              frontier_push w page_content keywords queue link (depth + 1) in
            let text := str_lower w (str_strip w (get_text t)) in
            let categories :=
              map_imap (fun category urls =>
                          Some (if PyStr.contains text category
                                then urls ++ [link] else urls))
                       categories in
            scan_links current_url depth page_content visited tags' queue categories
      end
  end.

Definition emit (es : list event) (st : state F) : state F :=
  State (frontier st) (visited st) (categorized_urls st) (trace st ++ es) (iteration st).

(** Lines 85-86 (and 128-129). *)
Definition report_progress (st : state F) : state F :=
  match progress_callback with
  | Some _ => emit [Progress (Z.of_nat (size (visited st))) max_pages] st
  | None => st
  end.

(** Lines 60-83 (and 104-126): the [try] block and its handler, for the
    popped [(current_url, depth)]; [st] already has the popped frontier. *)
Definition fetch_page (n : nat) (current_url : string) (depth : Z) (st : state F)
    : state F :=
  let st := emit [Fetch current_url depth] st in
  match urlopen w n current_url with
  | Raise msg => emit [LogError current_url msg] st
  | Ok page =>
      let visited' := {[current_url]} ∪ visited st in
      let tr := trace st ++ [VisitedAdd current_url depth] in
      let categories := extract_categories w page in
      let page_content := soup_get_text page in
      match scan_links current_url depth page_content visited'
                       (find_all_a page) (frontier st) categories with
      | (queue, Ok categories) =>
          State queue visited' (merge_categories categories (categorized_urls st))
                tr (iteration st)
      | (queue, Raise msg) =>
          State queue visited' (categorized_urls st)
                (tr ++ [LogError current_url msg]) (iteration st)
      end
  end.

(** The loop test of line 52 (and 96) and one pass through the body. *)
Definition crawl_iter (st : state F) : outcome (state F) :=
  if frontier_nonempty (frontier st) && (Z.of_nat (size (visited st)) <? max_pages)
  then
    let n := iteration st in
    let '(stop, polled) :=
      match stop_event with
      | Some is_set => (is_set n, [IsSet (is_set n)])
      | None => (false, [])
      end in
    let st := emit polled st in
    if stop then Return st
    else
      match frontier_pop (frontier st) with
      | None => Uncaught st
      | Some (current_url, depth, queue) =>
          let st := State queue (visited st) (categorized_urls st)
                          (trace st ++ [Pop current_url depth]) (S n) in
          if bool_decide (current_url ∈ visited st) || (max_depth <? depth)
          then Continue st
          else Continue (report_progress (fetch_page n current_url depth st))
      end
  else Return st.

(** The loop test of line 52. *)
Definition loop_test (st : state F) : bool :=
  frontier_nonempty (frontier st) && (Z.of_nat (size (visited st)) <? max_pages).

(** The events of the stop-event poll of iteration [n], and its answer. *)
Definition polled (n : nat) : list event :=
  match stop_event with
  | Some is_set => [IsSet (is_set n)]
  | None => []
  end.

Definition stop_requested (n : nat) : bool :=
  match stop_event with
  | Some is_set => is_set n
  | None => false
  end.

(** The events of the progress report for [k] visited pages. *)
Definition progress_events (k : nat) : list event :=
  match progress_callback with
  | Some _ => [Progress (Z.of_nat k) max_pages]
  | None => []
  end.

(** The seven ways a pass can go; [crawl_iter_pass] below shows that
    [crawl_iter] always goes one of them. *)
Inductive pass (st : state F) : outcome (state F) -> Prop :=
| pass_exit :
    loop_test st = false ->
    pass st (Return st)
| pass_stop :
    loop_test st = true ->
    stop_requested (iteration st) = true ->
    pass st (Return (State (frontier st) (visited st) (categorized_urls st)
                           (trace st ++ [IsSet true]) (iteration st)))
| pass_uncaught :
    loop_test st = true ->
    stop_requested (iteration st) = false ->
    frontier_pop (frontier st) = None ->
    pass st (Uncaught (State (frontier st) (visited st) (categorized_urls st)
                             (trace st ++ polled (iteration st)) (iteration st)))
| pass_discard url depth queue :
    loop_test st = true ->
    stop_requested (iteration st) = false ->
    frontier_pop (frontier st) = Some (url, depth, queue) ->
    url ∈ visited st \/ max_depth < depth ->
    pass st (Continue (State queue (visited st) (categorized_urls st)
                             (trace st ++ polled (iteration st) ++ [Pop url depth])
                             (S (iteration st))))
| pass_fetch_error url depth queue msg :
    loop_test st = true ->
    stop_requested (iteration st) = false ->
    frontier_pop (frontier st) = Some (url, depth, queue) ->
    url ∉ visited st -> depth <= max_depth ->
    urlopen w (iteration st) url = Raise msg ->
    pass st (Continue (State queue (visited st) (categorized_urls st)
                             (trace st ++ polled (iteration st)
                                ++ [Pop url depth; Fetch url depth; LogError url msg]
                                ++ progress_events (size (visited st)))
                             (S (iteration st))))
| pass_page url depth queue page queue' categories :
    loop_test st = true ->
    stop_requested (iteration st) = false ->
    frontier_pop (frontier st) = Some (url, depth, queue) ->
    url ∉ visited st -> depth <= max_depth ->
    urlopen w (iteration st) url = Ok page ->
    scan_links url depth (soup_get_text page) ({[url]} ∪ visited st)
               (find_all_a page) queue (extract_categories w page)
    = (queue', Ok categories) ->
    pass st (Continue (State queue' ({[url]} ∪ visited st)
                             (merge_categories categories (categorized_urls st))
                             (trace st ++ polled (iteration st)
                                ++ [Pop url depth; Fetch url depth; VisitedAdd url depth]
                                ++ progress_events (size ({[url]} ∪ visited st)))
                             (S (iteration st))))
| pass_link_error url depth queue page queue' msg :
    loop_test st = true ->
    stop_requested (iteration st) = false ->
    frontier_pop (frontier st) = Some (url, depth, queue) ->
    url ∉ visited st -> depth <= max_depth ->
    urlopen w (iteration st) url = Ok page ->
    scan_links url depth (soup_get_text page) ({[url]} ∪ visited st)
               (find_all_a page) queue (extract_categories w page)
    = (queue', Raise msg) ->
    pass st (Continue (State queue' ({[url]} ∪ visited st) (categorized_urls st)
                             (trace st ++ polled (iteration st)
                                ++ [Pop url depth; Fetch url depth; VisitedAdd url depth;
                                    LogError url msg]
                                ++ progress_events (size ({[url]} ∪ visited st)))
                             (S (iteration st)))).

(** The invariant of the loop on its trace. *)
Definition trace_inv (st : state F) : Prop :=
  visited st = added (trace st)
  /\ fresh ∅ (trace st)
  /\ Forall (within_depth max_depth) (trace st).

(** The pages still allowed and the items still pending: every pass that
    goes back to the loop test lowers the first, or keeps it and lowers the
    second. *)
Definition pages_left (st : state F) : nat :=
  Z.to_nat (max_pages - Z.of_nat (size (visited st))).
Definition items_left (st : state F) : nat :=
  length (frontier_items (frontier st)).

(** At most [fuel] passes through the loop.  [Continue st] says that the
    loop is still running, in [st], after [fuel] passes. *)
Fixpoint crawl_loop (fuel : nat) (st : state F) : outcome (state F) :=
  match fuel with
  | O => Continue st
  | S fuel' =>
      match crawl_iter st with
      | Continue st' => crawl_loop fuel' st'
      | o => o
      end
  end.

(** Lines 48-50 (and 92-94). *)
Definition initial (start_url : string) : state F :=
  State (frontier_init start_url) ∅ ∅ [] O.

Definition crawl_run (fuel : nat) (start_url : string) : outcome (state F) :=
  crawl_loop fuel (initial start_url).

(** The value returned to the caller, if the loop is left by [return]
    within [fuel] passes. *)
Definition crawl (fuel : nat) (start_url : string)
    : option (gmap string (list string)) :=
  match crawl_run fuel start_url with
  | Return st => Some (categorized_urls st)
  | _ => None
  end.

End Crawl.

(** [bfs_crawl], lines 46-88, and [dfs_crawl], lines 90-131. *)
Definition bfs_run (w : web) (fuel : nat) (start_url : string) (max_pages max_depth : Z)
    (keywords : option (list string)) (progress_callback : option callback)
    (stop_event : option (nat -> bool)) : outcome (state (list item)) :=
  crawl_run w max_pages max_depth keywords progress_callback stop_event fuel start_url.

Definition dfs_run (w : web) (fuel : nat) (start_url : string) (max_pages max_depth : Z)
    (keywords : option (list string)) (progress_callback : option callback)
    (stop_event : option (nat -> bool)) : outcome (state (list (string * Z))) :=
  crawl_run w max_pages max_depth keywords progress_callback stop_event fuel start_url.

Definition bfs_crawl (w : web) (fuel : nat) (start_url : string) (max_pages max_depth : Z)
    (keywords : option (list string)) (progress_callback : option callback)
    (stop_event : option (nat -> bool)) : option (gmap string (list string)) :=
  crawl (F := list item) w max_pages max_depth keywords progress_callback stop_event
        fuel start_url.

Definition dfs_crawl (w : web) (fuel : nat) (start_url : string) (max_pages max_depth : Z)
    (keywords : option (list string)) (progress_callback : option callback)
    (stop_event : option (nat -> bool)) : option (gmap string (list string)) :=
  crawl (F := list (string * Z)) w max_pages max_depth keywords progress_callback
        stop_event fuel start_url.

(** ** Runs of either strategy *)

Inductive strategy : Type := BestFirst | DepthFirst.

(** A state with its frontier shown as the list of pending [(url, depth)]
    pairs, so that runs of the two strategies have one type. *)
Definition observe {F : Type} `{Frontier F} (st : state F) : state (list (string * Z)) :=
  State (frontier_items (frontier st)) (visited st) (categorized_urls st)
        (trace st) (iteration st).

Definition observe_outcome {F : Type} `{Frontier F} (o : outcome (state F))
    : outcome (state (list (string * Z))) :=
  match o with
  | Continue st => Continue (observe st)
  | Return st => Return (observe st)
  | Uncaught st => Uncaught (observe st)
  end.

(** The run of strategy [s] cut after [fuel] passes through the loop. *)
Definition run (s : strategy) (w : web) (fuel : nat) (start_url : string)
    (max_pages max_depth : Z) (keywords : option (list string))
    (progress_callback : option callback) (stop_event : option (nat -> bool))
    : outcome (state (list (string * Z))) :=
  match s with
  | BestFirst =>
      observe_outcome (bfs_run w fuel start_url max_pages max_depth keywords
                               progress_callback stop_event)
  | DepthFirst =>
      observe_outcome (dfs_run w fuel start_url max_pages max_depth keywords
                               progress_callback stop_event)
  end.

(** The value the run returns, [bfs_crawl] or [dfs_crawl] by strategy. *)
Definition run_crawl (s : strategy) (w : web) (fuel : nat) (start_url : string)
    (max_pages max_depth : Z) (keywords : option (list string))
    (progress_callback : option callback) (stop_event : option (nat -> bool))
    : option (gmap string (list string)) :=
  match s with
  | BestFirst => bfs_crawl w fuel start_url max_pages max_depth keywords
                           progress_callback stop_event
  | DepthFirst => dfs_crawl w fuel start_url max_pages max_depth keywords
                            progress_callback stop_event
  end.

(** ** Definitions used in the statements *)

(** The scorer in the words of the specification: the sum over the keywords
    of the number of occurrences of the keyword in the page text, letter
    case ignored.  Case is ignored by lowering the text and the keyword;
    occurrences are counted from the left and do not overlap, and the empty
    keyword occurs at every place. *)
Definition occurrences_ignoring_case (w : web) (text keyword : string) : Z :=
  Z.of_nat (PyStr.count (str_lower w text) (str_lower w keyword)).

Fixpoint spec_keyword_score (w : web) (text : string) (keywords : list string) : Z :=
  match keywords with
  | [] => 0
  | keyword :: keywords' =>
      occurrences_ignoring_case w text keyword + spec_keyword_score w text keywords'
  end.

(** [s.isascii()]: every character of the text is below 128. *)
Fixpoint ascii_text (s : string) : bool :=
  match s with
  | EmptyString => true
  | String c s' => (nat_of_ascii c <? 128)%nat && ascii_text s'
  end.

(** The same for ASCII text, letter for letter and with no lowering: two
    characters are the same letter when they are equal or one is a capital
    [A-Z] and the other the small letter for it, 32 places further; an
    occurrence is a place of the text where the keyword stands, letter for
    letter. *)
Definition capital_of (a b : ascii) : bool :=
  let n := nat_of_ascii a in
  ((65 <=? n) && (n <=? 90) && (nat_of_ascii b =? n + 32))%nat.

Definition same_letter (a b : ascii) : bool :=
  Ascii.eqb a b || capital_of a b || capital_of b a.

Fixpoint stands_at (keyword text : string) : bool :=
  match keyword, text with
  | EmptyString, _ => true
  | String _ _, EmptyString => false
  | String a keyword', String b text' => same_letter a b && stands_at keyword' text'
  end.

Fixpoint occurrences_from (keyword text : string) (skip : nat) : nat :=
  match text with
  | EmptyString => 0
  | String _ text' =>
      match skip with
      | S k => occurrences_from keyword text' k
      | O =>
          if stands_at keyword text
          then S (occurrences_from keyword text' (String.length keyword - 1))
          else occurrences_from keyword text' 0
      end
  end.

Definition letterwise_occurrences (text keyword : string) : Z :=
  match keyword with
  | EmptyString => Z.of_nat (S (PyStr.len text))
  | _ => Z.of_nat (occurrences_from keyword text 0)
  end.

Fixpoint letterwise_keyword_score (text : string) (keywords : list string) : Z :=
  match keywords with
  | [] => 0
  | keyword :: keywords' =>
      letterwise_occurrences text keyword + letterwise_keyword_score text keywords'
  end.

(** The links that the loop over the anchors pushes: the references of the
    page resolved against its URL and stripped of trailing slashes, those
    already visited left out, up to the first reference that [urljoin]
    rejects. *)
Fixpoint discovered_links (w : web) (current_url : string) (visited : gset string)
    (tags : list tag) : list string :=
  match tags with
  | [] => []
  | t :: tags' =>
      match urljoin w current_url (href t) with
      | Raise _ => []
      | Ok joined =>
          let link := PyStr.rstrip_slash joined in
          if decide (link ∈ visited)
          then discovered_links w current_url visited tags'
          else link :: discovered_links w current_url visited tags'
      end
  end.

(** A URL is the seed, or it does not end with a slash. *)
Definition seed_or_stripped (start_url url : string) : Prop :=
  url = start_url \/ PyStr.endswith_slash url = false.

(** ** Definitions used in the statements about whole runs *)

(** The arguments of a call of the progress callback are the pages visited
    so far and a positive page limit that is not below them. *)
Definition progress_in_range (max_pages : Z) (e : event) : Prop :=
  match e with
  | Progress n m => m = max_pages /\ 0 <= n <= m /\ 0 < m
  | _ => True
  end.

(** The only calls of a run that fetches nothing: polls of the stop event
    and the pop of the seed. *)
Definition poll_or_seed_pop (start_url : string) (e : event) : Prop :=
  match e with
  | IsSet _ => True
  | Pop url depth => url = start_url /\ depth = 0
  | _ => False
  end.

(** [url] is a link of a page that was fetched from a URL in [seen]: a
    reference of the page, resolved against the URL of the page and stripped
    of its trailing slashes. *)
Definition linked_from (w : web) (seen : gset string) (url : string) : Prop :=
  exists parent n page t joined,
    parent ∈ seen
    /\ urlopen w n parent = Ok page
    /\ t ∈ find_all_a page
    /\ urljoin w parent (href t) = Ok joined
    /\ url = PyStr.rstrip_slash joined.

(** [url] is a link of a page that was fetched from a URL in [seen], the
    page has a heading whose text, stripped and lowered, is [category], and
    the text of the anchor, stripped and lowered, contains [category]. *)
Definition listed_by (w : web) (seen : gset string) (category url : string) : Prop :=
  exists parent n page heading t joined,
    parent ∈ seen
    /\ urlopen w n parent = Ok page
    /\ heading ∈ find_all_headings page
    /\ category = str_lower w (str_strip w heading)
    /\ (3 <= PyStr.len category)%nat
    /\ t ∈ find_all_a page
    /\ urljoin w parent (href t) = Ok joined
    /\ url = PyStr.rstrip_slash joined
    /\ PyStr.contains (str_lower w (str_strip w (get_text t))) category = true.

(** The links that the loop over the anchors appends to the list of
    [category]: the discovered links whose anchor text contains it. *)
Fixpoint category_links (w : web) (current_url : string) (visited : gset string)
    (category : string) (tags : list tag) : list string :=
  match tags with
  | [] => []
  | t :: tags' =>
      match urljoin w current_url (href t) with
      | Raise _ => []
      | Ok joined =>
          let link := PyStr.rstrip_slash joined in
          if decide (link ∈ visited)
          then category_links w current_url visited category tags'
          else if PyStr.contains (str_lower w (str_strip w (get_text t))) category
               then link :: category_links w current_url visited category tags'
               else category_links w current_url visited category tags'
      end
  end.

(** The state [st'] extends [st]: nothing was taken out of [visited], of
    the trace or of a list of the result. *)
Definition extends {F : Type} (st st' : state F) : Prop :=
  visited st ⊆ visited st'
  /\ trace st `prefix_of` trace st'
  /\ forall category urls,
       categorized_urls st !! category = Some urls ->
       exists more, categorized_urls st' !! category = Some (urls ++ more).

(** Every reference of the page can be resolved. *)
Definition resolvable (w : web) (current_url : string) (tags : list tag) : Prop :=
  Forall (fun t => exists joined, urljoin w current_url (href t) = Ok joined) tags.

(** ** The user interface *)

(** [s.split(",")]: the pieces of [s] between its commas, empty pieces
    included; the result is never the empty list. *)
Fixpoint split_comma (s : string) : list string :=
  match s with
  | EmptyString => [EmptyString]
  | String c s' =>
      if Ascii.eqb c ","%char
      then EmptyString :: split_comma s'
      else match split_comma s' with
           | piece :: pieces => String c piece :: pieces
           | [] => [String c EmptyString]
           end
  end.

(** The entries of the algorithm menu, line 230. *)
Definition algorithm_menu : list string :=
  ["Best-First Search (BFS)"; "Depth-First Search (DFS"].

(** The call that [run_crawl] of [start_crawl] makes, lines 159-172, for the
    texts of the entry fields, the value [max_pages] of
    [int(pages_entry.get())], the selected algorithm and the stop event of
    the run: [max_depth] is 3 and the progress callback is always
    supplied. *)
Definition gui_crawl (w : web) (fuel : nat) (url : string) (max_pages : Z)
    (keywords_entry algorithm : string) (is_set : nat -> bool)
    : option (gmap string (list string)) :=
  let keywords := split_comma keywords_entry in
  if String.eqb algorithm "Best-First Search (BFS)"
  then bfs_crawl w fuel url max_pages 3 (Some keywords) (Some Callback) (Some is_set)
  else if String.eqb algorithm "Depth-First Search (DFS)"
  then dfs_crawl w fuel url max_pages 3 (Some keywords) (Some Callback) (Some is_set)
  else bfs_crawl w fuel url max_pages 3 None (Some Callback) (Some is_set).

(** ** [calculate_pagerank], lines 24-30 *)

(** The dictionary [rank] from URLs to ranks is modelled by the list of its
    items in insertion order.  The ranks are the floats that
    [rank[url] += 1] makes from [0.0]: whole numbers, which a float holds
    exactly below [2 ** 53]; they are modelled by integers. *)

(** [rank.get(url)] *)
Fixpoint rank_get (rank : list (string * Z)) (url : string) : option Z :=
  match rank with
  | [] => None
  | (u, r) :: rank' => if String.eqb u url then Some r else rank_get rank' url
  end.

(** [rank[url] += 1] on a [defaultdict(float)]: a missing key enters at the
    end with [0.0] before the addition; a key that is present keeps its
    place. *)
Fixpoint increment (rank : list (string * Z)) (url : string)
    : list (string * Z) :=
  match rank with
  | [] => [(url, 0 + 1)]
  | (u, r) :: rank' =>
      if String.eqb u url then (u, r + 1) :: rank' else (u, r) :: increment rank' url
  end.

(** The two loops of lines 27-29 over the items of [crawled_data]. *)
Definition count_references (crawled_data : list (string * list string))
    : list (string * Z) :=
  fold_left (fun rank entry => fold_left increment (snd entry) rank) crawled_data [].

(** [sorted(items, key=lambda item: item[1], reverse=True)]: the items by
    descending rank, items of equal rank in the order they had.  Python
    sorts by another method; the list returned by a stable sort is fixed by
    the list it is given, whatever the method. *)
Fixpoint insert_by_rank (x : string * Z) (sorted : list (string * Z))
    : list (string * Z) :=
  match sorted with
  | [] => [x]
  | y :: sorted' =>
      if snd y <=? snd x then x :: y :: sorted' else y :: insert_by_rank x sorted'
  end.

Definition sorted_by_rank (items : list (string * Z)) : list (string * Z) :=
  foldr insert_by_rank [] items.

(** [calculate_pagerank(crawled_data)], for the items of [crawled_data] in
    insertion order; the dictionary returned is given by its items in
    insertion order. *)
Definition calculate_pagerank (crawled_data : list (string * list string))
    : list (string * Z) :=
  sorted_by_rank (count_references crawled_data).

(** All the URLs of [crawled_data], in the order the loops meet them. *)
Definition referenced (crawled_data : list (string * list string)) : list string :=
  concat (snd <$> crawled_data).

(** The elements of a list in the order of their first occurrence. *)
Definition first_occurrences (l : list string) : list string :=
  reverse (remove_dups (reverse l)).

(** ** Laws of the two frontiers *)

Class FrontierLaws (F : Type) `{Frontier F} : Prop := {
  frontier_items_init start_url :
    frontier_items (frontier_init start_url) = [(start_url, 0)];
  frontier_nonempty_items q :
    frontier_nonempty q = nonempty (frontier_items q);
  frontier_pop_nonempty q :
    frontier_nonempty q = true -> is_Some (frontier_pop q);
  frontier_pop_items q url depth q' :
    frontier_pop q = Some (url, depth, q') ->
    frontier_items q ≡ₚ (url, depth) :: frontier_items q';
  frontier_push_items w page_content keywords q link depth :
    frontier_items (frontier_push w page_content keywords q link depth)
    ≡ₚ (link, depth) :: frontier_items q
}.

(** ** Synthetic sites *)

(** The pages of the examples: the texts of their links and headings, and
    their text. *)

Definition page_of (links : list (string * string)) (headings : list string)
    (text : string) : soup :=
  Soup headings ((fun '(h, t) => Tag h t) <$> links) text.

(** Every reference of the synthetic sites is an absolute URL, which
    [urljoin] returns as it is. *)
Definition urljoin_absolute (base ref : string) : result string := Ok ref.

Definition chain_urlopen (n : nat) (url : string) : result soup :=
  if String.eqb url "http://a" then Ok (page_of [("http://b", "to b")] [] "page a")
  else if String.eqb url "http://b" then Ok (page_of [("http://c", "to c")] [] "page b")
  else if String.eqb url "http://c" then Ok (page_of [] [] "page c")
  else Raise "HTTP Error 404: Not Found".

Definition chain : web :=
  Web chain_urlopen urljoin_absolute PyStr.ascii_lower PyStr.ascii_strip.

(** A page that links twice to the same page. *)
Definition twice_urlopen (n : nat) (url : string) : result soup :=
  if String.eqb url "http://a"
  then Ok (page_of [("http://b", "first"); ("http://b", "second")] [] "page a")
  else if String.eqb url "http://b" then Ok (page_of [] [] "page b")
  else Raise "HTTP Error 404: Not Found".

Definition twice : web :=
  Web twice_urlopen urljoin_absolute PyStr.ascii_lower PyStr.ascii_strip.

(** A page whose first link is 50 characters long and whose second link is
    5 characters long. *)
Definition long_link : string := "http://site.example/a/rather/long/path/to/the/page".
Definition short_link : string := "s://b".

Definition lengths_urlopen (n : nat) (url : string) : result soup :=
  if String.eqb url "http://a"
  then Ok (page_of [(long_link, "long"); (short_link, "short")] [] "page a")
  else Ok (page_of [] [] "leaf").

Definition lengths : web :=
  Web lengths_urlopen urljoin_absolute PyStr.ascii_lower PyStr.ascii_strip.

(** A page about a shop: its text has the word three times, in three
    spellings. *)
Definition shop_urlopen (n : nat) (url : string) : result soup :=
  if String.eqb url "http://a"
  then Ok (page_of [("http://b", "b"); ("http://cc", "c")] []
                   "Shop here. Our SHOP is open. shopping")
  else Ok (page_of [] [] "leaf").

Definition shop : web :=
  Web shop_urlopen urljoin_absolute PyStr.ascii_lower PyStr.ascii_strip.

(** A page whose two links have the same length; the greater one comes
    first. *)
Definition ties_urlopen (n : nat) (url : string) : result soup :=
  if String.eqb url "http://a"
  then Ok (page_of [("http://c", "c"); ("http://b", "b")] [] "page a")
  else Ok (page_of [] [] "leaf").

Definition ties : web :=
  Web ties_urlopen urljoin_absolute PyStr.ascii_lower PyStr.ascii_strip.

(** A home page that is served with and without the trailing slash and
    links to itself with the slash. *)
Definition home_urlopen (n : nat) (url : string) : result soup :=
  if String.eqb url "http://a/" || String.eqb url "http://a"
  then Ok (page_of [("http://a/", "home")] [] "home page")
  else Raise "HTTP Error 404: Not Found".

Definition home : web :=
  Web home_urlopen urljoin_absolute PyStr.ascii_lower PyStr.ascii_strip.

(** A site whose second page cannot be fetched. *)
Definition broken_urlopen (n : nat) (url : string) : result soup :=
  if String.eqb url "http://a"
  then Ok (page_of [("http://b", "to b"); ("http://c", "to c")] [] "page a")
  else if String.eqb url "http://b" then Ok (page_of [] [] "page b")
  else Raise "<urlopen error timed out>".

Definition broken : web :=
  Web broken_urlopen urljoin_absolute PyStr.ascii_lower PyStr.ascii_strip.

(** The same site where [urlopen] rejects the empty URL, as [urllib] does. *)
Definition reject_empty_urlopen (n : nat) (url : string) : result soup :=
  if String.eqb url "" then Raise "unknown url type: ''" else chain_urlopen n url.

Definition reject_empty : web :=
  Web reject_empty_urlopen urljoin_absolute PyStr.ascii_lower PyStr.ascii_strip.

(** The state of a depth-first run on [broken] after its first pass. *)
Definition broken_after_a : state (list (string * Z)) :=
  State [("http://b", 1); ("http://c", 1)] {[ "http://a" ]} ∅
        [Pop "http://a" 0; Fetch "http://a" 0; VisitedAdd "http://a" 0; Progress 1 10]
        1.

(** The state of a best-first run on [chain], with a progress callback and a
    stop event, after its first pass. *)
Definition chain_after_a : state (list (string * Z)) :=
  State [("http://b", 1)] {[ "http://a" ]} ∅
        [IsSet false; Pop "http://a" 0; Fetch "http://a" 0; VisitedAdd "http://a" 0;
         Progress 1 10]
        1.

(** A stop event that is set during the first pass. *)
Definition set_after_first (n : nat) : bool := (1 <=? n)%nat.

(** The states of the depth-first run on [chain] with [max_depth = 1] and a
    progress callback after its first and after its second pass. *)
Definition chain_dfs_1 : state (list (string * Z)) :=
  State [("http://b", 1)] {[ "http://a" ]} ∅
        [Pop "http://a" 0; Fetch "http://a" 0; VisitedAdd "http://a" 0; Progress 1 10]
        1.

Definition chain_dfs_2 : state (list (string * Z)) :=
  State [("http://c", 2)] {[ "http://a"; "http://b" ]} ∅
        [Pop "http://a" 0; Fetch "http://a" 0; VisitedAdd "http://a" 0; Progress 1 10;
         Pop "http://b" 1; Fetch "http://b" 1; VisitedAdd "http://b" 1; Progress 2 10]
        2.

(** The state of the same run after its third pass. *)
Definition chain_dfs_3 : state (list (string * Z)) :=
  State [] {[ "http://a"; "http://b" ]} ∅
        [Pop "http://a" 0; Fetch "http://a" 0; VisitedAdd "http://a" 0; Progress 1 10;
         Pop "http://b" 1; Fetch "http://b" 1; VisitedAdd "http://b" 1; Progress 2 10;
         Pop "http://c" 2]
        3.

(** A page with headings and links whose texts name them. *)
Definition catalog_urlopen (n : nat) (url : string) : result soup :=
  if String.eqb url "http://a"
  then Ok (page_of [("http://a/p1", "Our Products"); ("http://a/p2", " more products ");
                    ("http://a/about/", "About us"); ("http://a/p1", "PRODUCTS again");
                    ("http://a/misc", "Other")]
                   ["Products"; "  About Us "; "FAQ"; "x"]
                   "Products. About us. FAQ.")
  else Ok (page_of [] [] "leaf").

Definition catalog : web :=
  Web catalog_urlopen urljoin_absolute PyStr.ascii_lower PyStr.ascii_strip.

(** * Properties *)

(** ** The string methods on examples *)

Example lower_ex : PyStr.ascii_lower "Shop At The SHOP" = "shop at the shop".
Proof. reflexivity. Qed.
Example strip_ex : PyStr.ascii_strip "  About us  " = "About us".
Proof. reflexivity. Qed.
Example len_ex : PyStr.len "http://a/é" = 10%nat /\ String.length "http://a/é" = 11%nat.
Proof. split; reflexivity. Qed.
Example rstrip_ex : PyStr.rstrip_slash "http://a.com/x//" = "http://a.com/x".
Proof. reflexivity. Qed.
Example count_ex : PyStr.count "aaaa shop shopshop" "aa" = 2%nat
                   /\ PyStr.count "aaaa shop shopshop" "shop" = 3%nat
                   /\ PyStr.count "abc" "" = 4%nat.
Proof. repeat split; reflexivity. Qed.
Example contains_ex : PyStr.contains "our products" "prod" = true
                      /\ PyStr.contains "our products" "shop" = false.
Proof. split; reflexivity. Qed.
(** ** The categories of a page on an example *)

(** Headings are stripped and lowered and kept from three characters on; a
    link goes under every category that its anchor text contains; links seen
    twice on the page are kept once; a category without links is left out. *)
Example catalog_categories :
  extract_categories catalog (page_of [] ["Products"; "  About Us "; "FAQ"; "x"] "")
  = <["products" := []]> (<["about us" := []]> (<["faq" := []]> ∅))
  /\ bfs_crawl catalog 2 "http://a" 1 3 None None None
     = Some (<["products" := ["http://a/p2"; "http://a/p1"]]>
               (<["about us" := ["http://a/about"]]> ∅))
  /\ dfs_crawl catalog 2 "http://a" 1 3 None None None
     = bfs_crawl catalog 2 "http://a" 1 3 None None None.
Proof. repeat split; by vm_compute. Qed.

(** ** The order on heap items *)

Lemma string_compare_refl (s : string) : String.compare s s = Eq.
Proof.
  induction s as [| c s IH]; simpl; [done |].
  unfold Ascii.compare. by rewrite N.compare_refl.
Qed.

Lemma string_compare_lt_trans (a b c : string) :
  String.compare a b = Lt -> String.compare b c = Lt -> String.compare a c = Lt.
Proof.
  intros Hab Hbc.
  assert (Hle : String.le a c).
  { transitivity b; unfold String.le, String.leb; [by rewrite Hab | by rewrite Hbc]. }
  unfold String.le, String.leb in Hle.
  destruct (String.compare a c) eqn:Hac; [| done | done].
  apply String.compare_eq_iff in Hac as ->.
  rewrite String.compare_antisym, Hbc in Hab. discriminate.
Qed.

Lemma item_compare_eq (a b : item) : item_compare a b = Eq <-> a = b.
Proof.
  destruct a as [[s1 u1] d1], b as [[s2 u2] d2]. simpl. split.
  - destruct (Z.compare_spec s1 s2); try discriminate.
    destruct (String.compare u1 u2) eqn:Hu; try discriminate.
    apply String.compare_eq_iff in Hu.
    destruct (Z.compare_spec d1 d2); try discriminate. congruence.
  - intros [= -> -> ->].
    by rewrite !Z.compare_refl, string_compare_refl.
Qed.

Lemma item_compare_antisym (a b : item) :
  item_compare b a = CompOpp (item_compare a b).
Proof.
  destruct a as [[s1 u1] d1], b as [[s2 u2] d2]. simpl.
  rewrite (Z.compare_antisym s1 s2), (String.compare_antisym u2 u1),
    (Z.compare_antisym d1 d2).
  destruct (s1 ?= s2); simpl; try done.
  destruct (String.compare u1 u2); simpl; try done.
Qed.

Lemma item_compare_lt_trans (a b c : item) :
  item_compare a b = Lt -> item_compare b c = Lt -> item_compare a c = Lt.
Proof.
  destruct a as [[s1 u1] d1], b as [[s2 u2] d2], c as [[s3 u3] d3]. simpl.
  destruct (Z.compare_spec s1 s2) as [-> | H12 | ?]; try discriminate.
  - destruct (s2 ?= s3); try done.
    destruct (String.compare u1 u2) eqn:H1; try discriminate.
    + apply String.compare_eq_iff in H1 as ->.
      destruct (String.compare u2 u3); try done.
      destruct (Z.compare_spec d1 d2) as [-> | Hd | ?]; try discriminate.
      intros _. destruct (Z.compare_spec d2 d3); try discriminate.
      intros _. apply Z.compare_lt_iff. lia.
    + intros _. destruct (String.compare u2 u3) eqn:H2; try discriminate.
      * apply String.compare_eq_iff in H2 as <-. by rewrite H1.
      * by rewrite (string_compare_lt_trans _ _ _ H1 H2).
  - intros _. destruct (Z.compare_spec s2 s3) as [<- | H23 | ?]; try discriminate.
    + intros _. by apply Z.compare_lt_iff in H12 as ->.
    + intros _. assert (s1 < s3) as ->%Z.compare_lt_iff by lia. done.
Qed.

Lemma item_leb_refl (a : item) : item_leb a a = true.
Proof. unfold item_leb. by rewrite (proj2 (item_compare_eq a a) eq_refl). Qed.

Lemma item_ltb_leb (a b : item) : item_ltb a b = true -> item_leb a b = true.
Proof. unfold item_ltb, item_leb. by destruct (item_compare a b). Qed.

Lemma item_ltb_false (a b : item) : item_ltb a b = false -> item_leb b a = true.
Proof.
  unfold item_ltb, item_leb. rewrite (item_compare_antisym b a).
  by destruct (item_compare b a).
Qed.

Lemma item_leb_trans (a b c : item) :
  item_leb a b = true -> item_leb b c = true -> item_leb a c = true.
Proof.
  unfold item_leb.
  destruct (item_compare a b) eqn:Hab; [| | done].
  - apply item_compare_eq in Hab as ->. done.
  - destruct (item_compare b c) eqn:Hbc; [| | done].
    + apply item_compare_eq in Hbc as <-. by rewrite Hab.
    + by rewrite (item_compare_lt_trans _ _ _ Hab Hbc).
Qed.

(** ** [heapq] on examples *)

(** The list after seven pushes and after a pop, as CPython lays it out. *)
Example heappush_layout :
  fold_left heappush
    [(5, "a", 0); (3, "a", 0); (9, "a", 0); (1, "a", 0); (4, "a", 0); (7, "a", 0);
     (2, "a", 0)] []
  = [(1, "a", 0); (3, "a", 0); (2, "a", 0); (5, "a", 0); (4, "a", 0); (9, "a", 0);
     (7, "a", 0)].
Proof. reflexivity. Qed.

Example heappop_layout :
  heappop [(1, "a", 0); (3, "a", 0); (2, "a", 0); (5, "a", 0); (4, "a", 0); (9, "a", 0);
           (7, "a", 0)]
  = Some ((1, "a", 0),
          [(2, "a", 0); (3, "a", 0); (7, "a", 0); (5, "a", 0); (4, "a", 0); (9, "a", 0)]).
Proof. reflexivity. Qed.

(** Ties of score are broken by the URL, then by the depth. *)
Example heappop_ties :
  heappop (fold_left heappush [(2, "b", 1); (2, "a", 3); (2, "a", 2)] [])
  = Some ((2, "a", 2), [(2, "a", 3); (2, "b", 1)]).
Proof. reflexivity. Qed.

(** ** Popping the last element of a list *)

Lemma list_pop_spec {A : Type} (l : list A) (x : A) (r : list A) :
  list_pop l = Some (x, r) <-> l = r ++ [x].
Proof.
  revert x r. induction l as [| y l IH]; intros x r; simpl.
  - split; [done | by destruct r].
  - destruct (list_pop l) as [[z r'] |] eqn:E.
    + pose proof (proj1 (IH z r') eq_refl) as ->. split.
      * by intros [= <- <-].
      * destruct r as [| a r]; simpl.
        { intros [= _ Hnil]. by destruct r'. }
        intros [= <- [-> ->]%app_inj_tail]. done.
    + assert (l = []) as ->.
      { destruct l as [| a l]; [done |]. simpl in E.
        destruct (list_pop l) as [[] |]; discriminate. }
      split.
      * by intros [= <- <-].
      * destruct r as [| a r]; simpl; [by intros [= ->] |].
        intros [= _ Hnil]. by destruct r.
Qed.

Lemma list_pop_nonempty {A : Type} (l : list A) :
  nonempty l = true -> is_Some (list_pop l).
Proof.
  destruct l as [| x l]; [done |]. intros _. simpl.
  destruct (list_pop l) as [[] |]; by eexists.
Qed.

(** ** [heapq] keeps the items of the list *)

Ltac Zify.zify_post_hook ::= Z.to_euclidean_division_equations.

Lemma insert_Permutation {A : Type} (l : list A) (i : nat) (x y : A) :
  l !! i = Some y -> x :: l ≡ₚ y :: <[i := x]> l.
Proof.
  revert i. induction l as [| a l IH]; intros [| i] Hi; simplify_eq/=.
  - apply Permutation_swap.
  - etrans; [apply Permutation_swap |].
    etrans; [apply Permutation_skip, (IH i Hi) |]. apply Permutation_swap.
Qed.

(** Writing [x] where [a] was copied from is writing it where [a] went. *)
Lemma insert_insert_Permutation {A : Type} (l : list A) (i j : nat) (a x : A) :
  i <> j -> l !! i = Some a -> (j < length l)%nat ->
  <[i := x]> (<[j := a]> l) ≡ₚ <[j := x]> l.
Proof.
  intros Hne Hi Hj.
  destruct (lookup_lt_is_Some_2 l j Hj) as [b Hb].
  assert (Hi' : <[j := a]> l !! i = Some a) by by rewrite list_lookup_insert_ne.
  pose proof (insert_Permutation l j a b Hb) as H1.
  pose proof (insert_Permutation _ i x a Hi') as H2.
  pose proof (insert_Permutation l j x b Hb) as H3.
  apply (Permutation_cons_inv (a := a)), (Permutation_cons_inv (a := b)).
  etrans; [apply Permutation_skip; symmetry; exact H2 |].
  etrans; [apply Permutation_swap |].
  etrans; [apply Permutation_skip; symmetry; exact H1 |].
  etrans; [apply Permutation_swap |].
  etrans; [apply Permutation_skip; exact H3 |]. apply Permutation_swap.
Qed.

Lemma parent_lt (pos : nat) : (0 < pos)%nat -> (parent pos < pos)%nat.
Proof. unfold parent. lia. Qed.

Lemma siftdown_loop_length (fuel : nat) (heap : list item) (startpos pos : nat)
    (newitem : item) :
  length (siftdown_loop fuel heap startpos pos newitem) = length heap.
Proof.
  revert heap pos. induction fuel as [| fuel IH]; intros heap pos;
    cbn [siftdown_loop].
  - apply length_insert.
  - destruct (startpos <? pos)%nat; [| apply length_insert].
    destruct (item_ltb newitem (heap !!! parent pos)); [| apply length_insert].
    by rewrite IH, length_insert.
Qed.

Lemma siftdown_loop_perm (fuel : nat) (heap : list item) (startpos pos : nat)
    (newitem : item) :
  (pos < length heap)%nat ->
  siftdown_loop fuel heap startpos pos newitem ≡ₚ <[pos := newitem]> heap.
Proof.
  revert heap pos. induction fuel as [| fuel IH]; intros heap pos Hpos;
    cbn [siftdown_loop]; [done |].
  destruct (startpos <? pos)%nat eqn:Hlt; [| done].
  apply Nat.ltb_lt in Hlt.
  destruct (item_ltb newitem (heap !!! parent pos)); [| done].
  assert (Hparent : (parent pos < pos)%nat) by (apply parent_lt; lia).
  rewrite IH by (rewrite length_insert; lia).
  apply insert_insert_Permutation; [lia | | done].
  apply list_lookup_lookup_total_lt. lia.
Qed.

Lemma siftdown_perm (heap : list item) (startpos pos : nat) :
  (pos < length heap)%nat -> siftdown heap startpos pos ≡ₚ heap.
Proof.
  intros Hpos. unfold siftdown. rewrite siftdown_loop_perm by done.
  by rewrite list_insert_id by by apply list_lookup_lookup_total_lt.
Qed.

Lemma siftup_loop_perm (fuel : nat) (heap : list item) (pos : nat)
    (heap1 : list item) (pos1 : nat) :
  (pos < length heap)%nat ->
  siftup_loop fuel heap (length heap) pos = (heap1, pos1) ->
  length heap1 = length heap
  /\ (pos1 < length heap)%nat
  /\ forall x, <[pos1 := x]> heap1 ≡ₚ <[pos := x]> heap.
Proof.
  revert heap pos. induction fuel as [| fuel IH]; intros heap pos Hpos;
    cbn [siftup_loop].
  { by intros [= <- <-]. }
  destruct (2 * pos + 1 <? length heap)%nat eqn:Hchild; [| by intros [= <- <-]].
  apply Nat.ltb_lt in Hchild.
  set (childpos :=
         if (2 * pos + 1 + 1 <? length heap)%nat
            && negb (item_ltb (heap !!! (2 * pos + 1)%nat) (heap !!! (2 * pos + 1 + 1)%nat))
         then (2 * pos + 1 + 1)%nat else (2 * pos + 1)%nat).
  assert (Hc : (childpos < length heap)%nat /\ childpos <> pos).
  { unfold childpos.
    destruct (2 * pos + 1 + 1 <? length heap)%nat eqn:Hright; simpl.
    - apply Nat.ltb_lt in Hright. destruct (negb _); lia.
    - lia. }
  destruct Hc as [Hclt Hcne].
  intros Hloop.
  pose proof (IH (<[pos := heap !!! childpos]> heap) childpos) as IH'.
  rewrite length_insert in IH'.
  destruct (IH' Hclt Hloop) as (Hlen & Hpos1 & Hperm).
  split; [done |]. split; [done |].
  intros x. rewrite Hperm.
  apply insert_insert_Permutation; [done | | done].
  by apply list_lookup_lookup_total_lt.
Qed.

Lemma siftup_perm (heap : list item) (pos : nat) :
  (pos < length heap)%nat -> siftup heap pos ≡ₚ heap.
Proof.
  intros Hpos. unfold siftup.
  destruct (siftup_loop (length heap) heap (length heap) pos) as [heap1 pos1] eqn:Hloop.
  destruct (siftup_loop_perm _ _ _ _ _ Hpos Hloop) as (Hlen & Hpos1 & Hperm).
  rewrite siftdown_perm by (rewrite length_insert; lia).
  rewrite Hperm.
  by rewrite list_insert_id by by apply list_lookup_lookup_total_lt.
Qed.

Lemma heappush_perm (heap : list item) (x : item) : heappush heap x ≡ₚ x :: heap.
Proof.
  unfold heappush. rewrite siftdown_perm by (rewrite length_app; simpl; lia).
  by rewrite Permutation_app_comm.
Qed.

Lemma heappop_perm (heap : list item) (m : item) (rest : list item) :
  heappop heap = Some (m, rest) -> heap ≡ₚ m :: rest.
Proof.
  unfold heappop.
  destruct (list_pop heap) as [[lastelt heap'] |] eqn:Hpop; [| done].
  apply list_pop_spec in Hpop as ->.
  destruct heap' as [| returnitem heap']; intros [= <- <-]; [done |].
  rewrite siftup_perm by (simpl; lia). simpl.
  apply Permutation_skip. by rewrite Permutation_app_comm.
Qed.

Lemma heappop_nonempty (heap : list item) :
  nonempty heap = true -> is_Some (heappop heap).
Proof.
  intros Hne. unfold heappop.
  destruct (list_pop_nonempty heap Hne) as [[lastelt heap'] ->].
  destruct heap'; by eexists.
Qed.

(** ** [heapq] keeps the heap invariant *)

(** Reads in a list after a write. *)
Ltac lookups :=
  repeat first
    [ rewrite list_lookup_total_insert_eq by (rewrite ?length_insert; lia)
    | rewrite list_lookup_total_insert_ne by lia ].

Lemma siftdown_inv_exit (heap : list item) (pos : nat) (newitem : item) :
  (pos < length heap)%nat ->
  siftdown_inv heap pos newitem ->
  pos = 0%nat \/ item_leb (heap !!! parent pos) newitem = true ->
  is_heap (<[pos := newitem]> heap).
Proof.
  intros Hpos [Ha Hb] Hexit i Hi. rewrite length_insert in Hi.
  destruct (decide (i = pos)) as [-> | Hne].
  - pose proof (parent_lt pos ltac:(lia)). lookups.
    destruct Hexit as [-> | Hle]; [lia | done].
  - destruct (decide (parent i = pos)) as [Hp | Hnp].
    + rewrite Hp. lookups. by apply Hb.
    + lookups. by apply Ha.
Qed.

Lemma siftdown_inv_step (heap : list item) (pos : nat) (newitem : item) :
  (pos < length heap)%nat -> (0 < pos)%nat ->
  siftdown_inv heap pos newitem ->
  item_ltb newitem (heap !!! parent pos) = true ->
  siftdown_inv (<[pos := heap !!! parent pos]> heap) (parent pos) newitem.
Proof.
  intros Hpos Hpos0 [Ha Hb] Hlt.
  pose proof (parent_lt pos Hpos0) as Hpp.
  split.
  - intros i Hi Hne Hnp. rewrite length_insert in Hi.
    destruct (decide (i = pos)) as [-> | Hipos]; [done |].
    destruct (decide (parent i = pos)) as [Hp | Hnpos].
    + rewrite Hp. lookups. by apply Hb.
    + lookups. by apply Ha.
  - intros c Hc Hpc. rewrite length_insert in Hc. split.
    + destruct (decide (c = pos)) as [-> | Hcpos].
      * lookups. by apply item_ltb_leb.
      * lookups. eapply item_leb_trans; [by apply item_ltb_leb |].
        rewrite <- Hpc. apply Ha; [done | done | lia].
    + intros Hpar0.
      pose proof (parent_lt (parent pos) Hpar0) as Hppp.
      destruct (decide (c = pos)) as [-> | Hcpos].
      * lookups. apply Ha; [lia | lia | lia].
      * lookups. eapply item_leb_trans.
        -- apply (Ha (parent pos)); [lia | lia | lia].
        -- rewrite <- Hpc. apply Ha; [done | done | lia].
Qed.

Lemma siftdown_loop_heap (fuel : nat) (heap : list item) (pos : nat) (newitem : item) :
  (pos < length heap)%nat -> (pos <= fuel)%nat ->
  siftdown_inv heap pos newitem ->
  is_heap (siftdown_loop fuel heap 0 pos newitem).
Proof.
  revert heap pos. induction fuel as [| fuel IH]; intros heap pos Hpos Hfuel Hinv;
    cbn [siftdown_loop].
  - apply siftdown_inv_exit; [done | done | left; lia].
  - destruct (0 <? pos)%nat eqn:Hlt.
    + apply Nat.ltb_lt in Hlt. pose proof (parent_lt pos Hlt).
      destruct (item_ltb newitem (heap !!! parent pos)) eqn:Hcmp.
      * apply IH; [rewrite length_insert; lia | lia |].
        by apply siftdown_inv_step.
      * apply siftdown_inv_exit; [done | done | right]. by apply item_ltb_false.
    + apply Nat.ltb_ge in Hlt. apply siftdown_inv_exit; [done | done | left; lia].
Qed.

Lemma siftup_inv_step (heap : list item) (pos childpos : nat) :
  (pos < length heap)%nat -> (childpos < length heap)%nat ->
  parent childpos = pos -> (0 < childpos)%nat ->
  (forall c, (0 < c < length heap)%nat -> parent c = pos ->
             item_leb (heap !!! childpos) (heap !!! c) = true) ->
  siftup_inv heap pos ->
  siftup_inv (<[pos := heap !!! childpos]> heap) childpos.
Proof.
  intros Hpos Hchild Hpc Hc0 Hsmall [Ha Hb].
  assert (Hlt : (pos < childpos)%nat) by (rewrite <- Hpc; by apply parent_lt).
  split.
  - intros i Hi Hnp. rewrite length_insert in Hi.
    destruct (decide (i = pos)) as [-> | Hipos].
    + pose proof (parent_lt pos ltac:(lia)). lookups. apply Hb; [lia | lia | done].
    + destruct (decide (parent i = pos)) as [Hp | Hnpos].
      * rewrite Hp. lookups. by apply Hsmall.
      * lookups. by apply Ha.
  - intros _ c Hc Hpcc. rewrite length_insert in Hc.
    assert ((childpos < c)%nat) by (rewrite <- Hpcc; apply parent_lt; lia).
    rewrite Hpc. lookups. rewrite <- Hpcc. apply Ha; [done | lia].
Qed.

(** The child that [_siftup] moves up is not above the other child. *)
Lemma smaller_child (heap : list item) (pos : nat) :
  (2 * pos + 1 < length heap)%nat ->
  let childpos :=
    if (2 * pos + 1 + 1 <? length heap)%nat
       && negb (item_ltb (heap !!! (2 * pos + 1)%nat) (heap !!! (2 * pos + 1 + 1)%nat))
    then (2 * pos + 1 + 1)%nat else (2 * pos + 1)%nat in
  (childpos < length heap)%nat /\ parent childpos = pos /\ (pos < childpos)%nat
  /\ forall c, (0 < c < length heap)%nat -> parent c = pos ->
               item_leb (heap !!! childpos) (heap !!! c) = true.
Proof.
  intros Hleft. cbv zeta.
  destruct (2 * pos + 1 + 1 <? length heap)%nat eqn:Hright; cbn [andb].
  - apply Nat.ltb_lt in Hright.
    destruct (item_ltb (heap !!! (2 * pos + 1)%nat) (heap !!! (2 * pos + 1 + 1)%nat))
      eqn:Hcmp; cbn [negb].
    + split; [done |]. split; [unfold parent; lia |]. split; [lia |].
      intros c Hc Hpc.
      assert (c = (2 * pos + 1)%nat \/ c = (2 * pos + 1 + 1)%nat) as [-> | ->]
        by (unfold parent in Hpc; lia).
      * apply item_leb_refl.
      * by apply item_ltb_leb.
    + split; [done |]. split; [unfold parent; lia |]. split; [lia |].
      intros c Hc Hpc.
      assert (c = (2 * pos + 1)%nat \/ c = (2 * pos + 1 + 1)%nat) as [-> | ->]
        by (unfold parent in Hpc; lia).
      * by apply item_ltb_false.
      * apply item_leb_refl.
  - apply Nat.ltb_ge in Hright.
    split; [done |]. split; [unfold parent; lia |]. split; [lia |].
    intros c Hc Hpc.
    assert (c = (2 * pos + 1)%nat) as -> by (unfold parent in Hpc; lia).
    apply item_leb_refl.
Qed.

Lemma siftup_loop_inv (fuel : nat) (heap : list item) (pos : nat)
    (heap1 : list item) (pos1 : nat) :
  (pos < length heap)%nat -> (length heap <= fuel + pos)%nat ->
  siftup_inv heap pos ->
  siftup_loop fuel heap (length heap) pos = (heap1, pos1) ->
  siftup_inv heap1 pos1
  /\ length heap1 = length heap
  /\ (pos1 < length heap)%nat
  /\ (length heap <= 2 * pos1 + 1)%nat.
Proof.
  revert heap pos. induction fuel as [| fuel IH]; intros heap pos Hpos Hfuel Hinv;
    cbn [siftup_loop].
  { lia. }
  destruct (2 * pos + 1 <? length heap)%nat eqn:Hleft.
  - apply Nat.ltb_lt in Hleft.
    destruct (smaller_child heap pos Hleft) as (Hclt & Hpc & Hgt & Hsmall).
    set (childpos :=
           if (2 * pos + 1 + 1 <? length heap)%nat
              && negb (item_ltb (heap !!! (2 * pos + 1)%nat)
                                (heap !!! (2 * pos + 1 + 1)%nat))
           then (2 * pos + 1 + 1)%nat else (2 * pos + 1)%nat) in *.
    intros Hloop.
    pose proof (IH (<[pos := heap !!! childpos]> heap) childpos) as IH'.
    rewrite length_insert in IH'.
    apply IH'; [done | lia | | done].
    apply siftup_inv_step; [done | done | done | lia | done | done].
  - apply Nat.ltb_ge in Hleft. intros [= <- <-]. done.
Qed.

Lemma siftup_heap (heap : list item) :
  (0 < length heap)%nat -> siftup_inv heap 0 -> is_heap (siftup heap 0).
Proof.
  intros Hlen Hinv. unfold siftup.
  destruct (siftup_loop (length heap) heap (length heap) 0) as [heap1 pos1] eqn:Hloop.
  assert (Hfuel : (length heap <= length heap + 0)%nat) by lia.
  destruct (siftup_loop_inv _ _ _ _ _ Hlen Hfuel Hinv Hloop)
    as ([Ha Hb] & Hlen1 & Hpos1 & Hleaf).
  unfold siftdown.
  apply siftdown_loop_heap; [rewrite length_insert; lia | done |].
  split.
  - intros i Hi Hne Hnp. rewrite length_insert in Hi. lookups.
    apply Ha; [lia | done].
  - intros c Hc Hpc. rewrite length_insert in Hc. unfold parent in Hpc. lia.
Qed.

Lemma is_heap_nil : is_heap [].
Proof. intros i Hi. simpl in Hi. lia. Qed.

Lemma is_heap_singleton (x : item) : is_heap [x].
Proof. intros i Hi. simpl in Hi. lia. Qed.

Lemma is_heap_app (heap : list item) (x : item) : is_heap (heap ++ [x]) -> is_heap heap.
Proof.
  intros Hheap i Hi. pose proof (parent_lt i ltac:(lia)).
  specialize (Hheap i). rewrite length_app in Hheap. simpl in Hheap.
  rewrite !lookup_total_app_l in Hheap by lia. apply Hheap. lia.
Qed.

(** [heappush] keeps the heap invariant. *)
Lemma heappush_heap (heap : list item) (x : item) :
  is_heap heap -> is_heap (heappush heap x).
Proof.
  intros Hheap. unfold heappush, siftdown.
  apply siftdown_loop_heap; [rewrite length_app; simpl; lia | done |].
  split.
  - intros i Hi Hne Hnp. rewrite length_app in Hi. simpl in Hi.
    pose proof (parent_lt i ltac:(lia)).
    rewrite !lookup_total_app_l by lia. apply Hheap. lia.
  - intros c Hc Hpc. rewrite length_app in Hc. simpl in Hc.
    unfold parent in Hpc. lia.
Qed.

(** The root of a heap is its least item. *)
Lemma heap_root_least (heap : list item) (i : nat) :
  is_heap heap -> (i < length heap)%nat ->
  item_leb (heap !!! 0%nat) (heap !!! i) = true.
Proof.
  intros Hheap. induction i as [i IH] using lt_wf_ind. intros Hi.
  destruct (decide (i = 0%nat)) as [-> | Hne]; [apply item_leb_refl |].
  pose proof (parent_lt i ltac:(lia)).
  eapply item_leb_trans; [apply (IH (parent i)); lia |].
  apply Hheap. lia.
Qed.

(** [heappop] on a heap returns its least item and leaves a heap. *)
Lemma heappop_heap (heap : list item) (m : item) (rest : list item) :
  is_heap heap -> heappop heap = Some (m, rest) ->
  is_heap rest /\ forall y, y ∈ heap -> item_leb m y = true.
Proof.
  intros Hheap. unfold heappop.
  destruct (list_pop heap) as [[lastelt heap'] |] eqn:Hpop; [| done].
  apply list_pop_spec in Hpop as ->.
  destruct heap' as [| returnitem heap'].
  - intros [= <- <-]. split; [apply is_heap_nil |].
    intros y ->%list_elem_of_singleton. apply item_leb_refl.
  - intros [= <- <-]. split.
    + apply siftup_heap; [simpl; lia |].
      pose proof (is_heap_app _ _ Hheap) as Hprefix.
      split; [| lia].
      intros i Hi Hnp. specialize (Hprefix i Hi).
      destruct i as [| i]; [lia |].
      destruct (parent (S i)) as [| k] eqn:Hk; [done |]. exact Hprefix.
    + intros y [i [Hi <-]]%list_elem_of_lookup_total.
      exact (heap_root_least _ i Hheap Hi).
Qed.

(** ** The two frontiers satisfy the laws *)

Global Instance best_first_laws : FrontierLaws (list item).
Proof.
  split.
  - done.
  - by intros [| [[s u] d] q].
  - intros q Hq. simpl in *. unfold bfs_pop.
    destruct (heappop_nonempty q Hq) as [[[[s u] d] q'] ->]. by eexists.
  - intros q url depth q'. simpl. unfold bfs_pop.
    destruct (heappop q) as [[[[s u] d] q''] |] eqn:E; [| done].
    intros [= -> -> ->]. apply heappop_perm in E as ->. done.
  - intros w pc kw q link depth. simpl. unfold bfs_push.
    by rewrite heappush_perm.
Qed.

Global Instance depth_first_laws : FrontierLaws (list (string * Z)).
Proof.
  split.
  - done.
  - done.
  - intros q Hq. simpl in *. unfold dfs_pop.
    destruct (list_pop_nonempty q Hq) as [[[u d] q'] ->]. by eexists.
  - intros q url depth q'. simpl. unfold dfs_pop.
    destruct (list_pop q) as [[[u d] q''] |] eqn:E; [| done].
    intros [= -> -> ->]. apply list_pop_spec in E as ->.
    by rewrite Permutation_app_comm.
  - intros w pc kw q link depth. simpl. unfold dfs_push.
    by rewrite Permutation_app_comm.
Qed.

(** ** One pass through the loop, case by case *)

Section Pass.

Context {F : Type} `{Frontier F}.
Variable w : web.
Variables max_pages max_depth : Z.
Variable keywords : option (list string).
Variable progress_callback : option callback.
Variable stop_event : option (nat -> bool).

Local Abbreviation crawl_iter := (crawl_iter w max_pages max_depth keywords progress_callback stop_event).
Local Abbreviation crawl_loop := (crawl_loop w max_pages max_depth keywords progress_callback stop_event).
Local Abbreviation scan_links := (scan_links w keywords).
Local Abbreviation pass := (pass w max_pages max_depth keywords progress_callback stop_event).
Local Abbreviation loop_test := (loop_test max_pages).
Local Abbreviation polled := (polled stop_event).
Local Abbreviation stop_requested := (stop_requested stop_event).
Local Abbreviation progress_events := (progress_events max_pages progress_callback).

Lemma crawl_iter_pass (st : state F) : pass st (crawl_iter st).
Proof.
  unfold crawl_iter. fold (loop_test st).
  destruct (loop_test st) eqn:Htest; [| by constructor].
  assert (Hpoll :
    (match stop_event with
     | Some is_set => (is_set (iteration st), [IsSet (is_set (iteration st))])
     | None => (false, [])
     end) = (stop_requested (iteration st), polled (iteration st))).
  { unfold stop_requested, polled. by destruct stop_event. }
  rewrite Hpoll. clear Hpoll.
  destruct (stop_requested (iteration st)) eqn:Hstop.
  { assert (polled (iteration st) = [IsSet true]) as ->.
    { unfold polled, stop_requested in *. destruct stop_event; [by rewrite Hstop | done]. }
    by constructor. }
  unfold emit. cbn [frontier visited categorized_urls trace iteration].
  destruct (frontier_pop (frontier st)) as [[[url depth] queue] |] eqn:Hpop;
    [| by constructor].
  destruct (bool_decide (url ∈ visited st)) eqn:Hvis; cbn [orb].
  { apply bool_decide_eq_true in Hvis. rewrite <- (assoc_L (++)).
    econstructor; eauto. }
  apply bool_decide_eq_false in Hvis.
  destruct (max_depth <? depth) eqn:Hdepth.
  { apply Z.ltb_lt in Hdepth. rewrite <- (assoc_L (++)).
    econstructor; eauto. }
  apply Z.ltb_ge in Hdepth.
  unfold fetch_page, report_progress, emit.
  cbn [frontier visited categorized_urls trace iteration].
  destruct (urlopen w (iteration st) url) as [page | msg] eqn:Hopen.
  - destruct (scan_links url depth (soup_get_text page) ({[url]} ∪ visited st)
                (find_all_a page) queue (extract_categories w page))
      as [queue' [categories | msg]] eqn:Hscan.
    + pose proof (pass_page w max_pages max_depth keywords progress_callback stop_event st url depth queue page queue' categories
                    Htest Hstop Hpop Hvis Hdepth Hopen Hscan) as Hp.
      unfold progress_events in Hp.
      destruct progress_callback; cbn [frontier visited categorized_urls trace iteration];
        rewrite <- ?(assoc_L (++)); rewrite <- ?(assoc_L (++)) in Hp;
        simpl in *; rewrite ?app_nil_r in Hp; exact Hp.
    + pose proof (pass_link_error w max_pages max_depth keywords progress_callback stop_event st url depth queue page queue' msg
                    Htest Hstop Hpop Hvis Hdepth Hopen Hscan) as Hp.
      unfold progress_events in Hp.
      destruct progress_callback; cbn [frontier visited categorized_urls trace iteration];
        rewrite <- ?(assoc_L (++)); rewrite <- ?(assoc_L (++)) in Hp;
        simpl in *; rewrite ?app_nil_r in Hp; exact Hp.
  - pose proof (pass_fetch_error w max_pages max_depth keywords progress_callback stop_event st url depth queue msg
                  Htest Hstop Hpop Hvis Hdepth Hopen) as Hp.
    unfold progress_events in Hp.
    destruct progress_callback; cbn [frontier visited categorized_urls trace iteration];
      rewrite <- ?(assoc_L (++)); rewrite <- ?(assoc_L (++)) in Hp;
      simpl in *; rewrite ?app_nil_r in Hp; exact Hp.
Qed.

End Pass.

(** ** Unrolling the loop *)

Section Loop.

Context {F : Type} `{Frontier F}.
Variable w : web.
Variables max_pages max_depth : Z.
Variable keywords : option (list string).
Variable progress_callback : option callback.
Variable stop_event : option (nat -> bool).

Local Abbreviation crawl_iter := (crawl_iter w max_pages max_depth keywords progress_callback stop_event).
Local Abbreviation crawl_loop := (crawl_loop w max_pages max_depth keywords progress_callback stop_event).
Local Abbreviation crawl_run := (crawl_run w max_pages max_depth keywords progress_callback stop_event).
Local Abbreviation pass := (pass w max_pages max_depth keywords progress_callback stop_event).
Local Abbreviation loop_test := (loop_test max_pages).
Local Abbreviation trace_inv := (trace_inv max_depth).

(** The last of [S fuel] passes is a pass from the state after [fuel]. *)
Lemma crawl_loop_last (fuel : nat) (st : state F) :
  crawl_loop (S fuel) st
  = match crawl_loop fuel st with
    | Continue st' => crawl_iter st'
    | o => o
    end.
Proof.
  revert st. induction fuel as [| fuel IH]; intros st.
  - simpl. by destruct (crawl_iter st).
  - change (crawl_loop (S (S fuel)) st)
      with (match crawl_iter st with
            | Continue st' => crawl_loop (S fuel) st'
            | o => o
            end).
    change (crawl_loop (S fuel) st)
      with (match crawl_iter st with
            | Continue st' => crawl_loop fuel st'
            | o => o
            end).
    destruct (crawl_iter st) as [st' | st' | st']; [apply IH | done | done].
Qed.

(** Once the loop is left, more fuel changes nothing. *)
Lemma crawl_loop_return (fuel fuel' : nat) (st st' : state F) :
  crawl_loop fuel st = Return st' -> (fuel <= fuel')%nat ->
  crawl_loop fuel' st = Return st'.
Proof.
  intros Hret Hle. induction Hle as [| fuel' Hle IH]; [done |].
  by rewrite crawl_loop_last, IH.
Qed.

(** A property that holds before the loop and is kept by every pass holds
    after any number of passes. *)
Lemma crawl_loop_invariant (P : state F -> Prop) :
  (forall st o, P st -> pass st o -> P (outcome_state o)) ->
  forall fuel st, P st -> P (outcome_state (crawl_loop fuel st)).
Proof.
  intros Hstep fuel. induction fuel as [| fuel IH]; intros st HP; [done |].
  simpl. pose proof (Hstep st _ HP (crawl_iter_pass _ _ _ _ _ _ st)) as HP'.
  destruct (crawl_iter st) as [st' | st' | st']; [by apply IH | done | done].
Qed.

(** *** The page limit *)

Lemma size_visited_add (url : string) (seen : gset string) :
  url ∉ seen -> size ({[url]} ∪ seen) = S (size seen).
Proof.
  intros Hnot. rewrite size_union by set_solver. by rewrite size_singleton.
Qed.

Lemma pass_bounded (st : state F) (o : outcome (state F)) :
  Z.of_nat (size (visited st)) <= max_pages -> pass st o ->
  Z.of_nat (size (visited (outcome_state o))) <= max_pages.
Proof.
  intros Hle Hpass.
  destruct Hpass as [ | | | | | ? ? ? ? ? ? Htest ? ? Hnew | ? ? ? ? ? ? Htest ? ? Hnew];
    simpl; try done.
  all: apply andb_true_iff in Htest as [_ Hlt%Z.ltb_lt];
    rewrite (size_visited_add _ _ Hnew); lia.
Qed.

Lemma crawl_run_bounded_any (fuel : nat) (start_url : string) :
  Z.of_nat (size (visited (outcome_state (crawl_run fuel start_url))))
  <= Z.max 0 max_pages.
Proof.
  unfold crawl_run.
  apply (crawl_loop_invariant
           (fun st => Z.of_nat (size (visited st)) <= Z.max 0 max_pages)).
  - intros st o Hle Hpass.
    destruct Hpass as [ | | | | | ? ? ? ? ? ? Htest ? ? Hnew | ? ? ? ? ? ? Htest ? ? Hnew];
      simpl; try done.
    all: apply andb_true_iff in Htest as [_ Hlt%Z.ltb_lt];
      rewrite (size_visited_add _ _ Hnew); lia.
  - unfold initial. cbn [visited]. rewrite size_empty. lia.
Qed.

Lemma crawl_run_bounded (fuel : nat) (start_url : string) :
  0 <= max_pages ->
  Z.of_nat (size (visited (outcome_state (crawl_run fuel start_url)))) <= max_pages.
Proof.
  intros Hpos. unfold crawl_run.
  apply (crawl_loop_invariant (fun st => Z.of_nat (size (visited st)) <= max_pages)).
  - intros st o. apply pass_bounded.
  - unfold initial. cbn [visited]. rewrite size_empty. lia.
Qed.

(** *** What the trace says about [visited] *)

Lemma added_app (t1 t2 : list event) : added (t1 ++ t2) = added t1 ∪ added t2.
Proof.
  induction t1 as [| e t1 IH]; simpl; [set_solver |].
  destruct e; rewrite IH; set_solver.
Qed.

Lemma elem_of_added (url : string) (tr : list event) :
  url ∈ added tr <-> exists depth, VisitedAdd url depth ∈ tr.
Proof.
  induction tr as [| e tr IH]; simpl.
  - split; [set_solver | intros [d Hd]; by apply elem_of_nil in Hd].
  - assert (Hskip : (forall u d, e <> VisitedAdd u d) ->
                    url ∈ added tr <-> exists depth, VisitedAdd url depth ∈ e :: tr).
    { intros Hne. rewrite IH. split; intros [d Hd]; exists d.
      - by apply list_elem_of_further.
      - apply elem_of_cons in Hd as [Hd | Hd]; [by destruct (Hne url d) | done]. }
    destruct e as [b | u d | u d | u d | u m | n m]; try (apply Hskip; done).
    rewrite elem_of_union, elem_of_singleton, IH. split.
    + intros [-> | [d' Hd']]; [exists d; apply list_elem_of_here |].
      exists d'. by apply list_elem_of_further.
    + intros [d' [[= -> ->] | Hd']%elem_of_cons]; [by left | right; by exists d'].
Qed.

Lemma fresh_app (seen : gset string) (t1 t2 : list event) :
  fresh seen (t1 ++ t2) <-> fresh seen t1 /\ fresh (added t1 ∪ seen) t2.
Proof.
  revert seen. induction t1 as [| e t1 IH]; intros seen; simpl.
  - assert (∅ ∪ seen = seen) as -> by set_solver. tauto.
  - destruct e as [b | u d | u d | u d | u m | n m]; rewrite ?IH; try tauto.
    assert (added t1 ∪ ({[u]} ∪ seen) = {[u]} ∪ added t1 ∪ seen) as -> by set_solver.
    tauto.
Qed.

(** A URL that is in [seen] is neither fetched nor added in a fresh trace. *)
Lemma fresh_seen (seen : gset string) (tr : list event) (url : string) (depth : Z) :
  fresh seen tr -> url ∈ seen ->
  (Fetch url depth ∉ tr) /\ (VisitedAdd url depth ∉ tr).
Proof.
  revert seen. induction tr as [| e tr IH]; intros seen Hfresh Hin.
  - split; apply not_elem_of_nil.
  - rewrite !not_elem_of_cons. simpl in Hfresh.
    destruct e as [b | u d | u d | u d | u m | n m];
      try (destruct (IH seen Hfresh Hin); done).
    + destruct Hfresh as [Hu Hfresh]. destruct (IH seen Hfresh Hin).
      repeat split; try done. intros [= -> ->]. done.
    + destruct Hfresh as [Hu Hfresh].
      destruct (IH ({[u]} ∪ seen) Hfresh) as [? ?]; [set_solver |].
      repeat split; try done. intros [= -> ->]. done.
Qed.

Lemma trace_inv_extend (st : state F) (queue : F) (seen : gset string)
    (categorized : gmap string (list string)) (n : nat) (new : list event) :
  trace_inv st ->
  seen = added new ∪ visited st ->
  fresh (visited st) new ->
  Forall (within_depth max_depth) new ->
  trace_inv (State queue seen categorized (trace st ++ new) n).
Proof.
  intros (Hvis & Hfresh & Hdepth) -> Hnew Hwithin.
  unfold trace_inv. cbn [visited trace].
  rewrite added_app, fresh_app, Forall_app, <- Hvis, (right_id_L ∅ (∪)).
  split; [apply (comm_L (∪)) | done].
Qed.

Lemma pass_trace_inv (st : state F) (o : outcome (state F)) :
  trace_inv st -> pass st o -> trace_inv (outcome_state o).
Proof.
  intros Hinv Hpass.
  destruct Hpass; cbn [outcome_state]; try done;
    apply trace_inv_extend; try done;
    unfold polled, progress_events;
    destruct stop_event, progress_callback; simpl;
    rewrite ?(left_id_L ∅ (∪)), ?(right_id_L ∅ (∪));
    try done; repeat constructor; simpl; done.
Qed.

Lemma crawl_run_trace_inv (fuel : nat) (start_url : string) :
  trace_inv (outcome_state (crawl_run fuel start_url)).
Proof.
  unfold crawl_run. apply (crawl_loop_invariant trace_inv).
  - apply pass_trace_inv.
  - unfold trace_inv, initial. simpl. repeat split; constructor.
Qed.

End Loop.

(** ** Termination *)

Section Lawful.

Context {F : Type} `{FrontierLaws F}.
Variable w : web.
Variables max_pages max_depth : Z.
Variable keywords : option (list string).
Variable progress_callback : option callback.
Variable stop_event : option (nat -> bool).

Local Abbreviation crawl_iter := (crawl_iter w max_pages max_depth keywords progress_callback stop_event).
Local Abbreviation crawl_loop := (crawl_loop w max_pages max_depth keywords progress_callback stop_event).
Local Abbreviation crawl_run := (crawl_run w max_pages max_depth keywords progress_callback stop_event).
Local Abbreviation crawl := (crawl w max_pages max_depth keywords progress_callback stop_event).
Local Abbreviation pass := (pass w max_pages max_depth keywords progress_callback stop_event).
Local Abbreviation loop_test := (loop_test max_pages).
Local Abbreviation pages_left := (pages_left max_pages).

(** [heappop] and [stack.pop()] are only called on a non-empty frontier, so
    no pass ends with an uncaught exception. *)
Lemma pass_caught (st st' : state F) : ~ pass st (Uncaught st').
Proof.
  intros Hpass. inversion Hpass as [ | | Htest _ Hpop | | | | ]; subst.
  apply andb_true_iff in Htest as [Hne _].
  destruct (frontier_pop_nonempty _ Hne) as [x Hx]. congruence.
Qed.

Lemma pass_decreases (st st' : state F) :
  pass st (Continue st') ->
  (pages_left st' < pages_left st)%nat
  \/ (pages_left st' = pages_left st /\ items_left st' < items_left st)%nat.
Proof.
  unfold pages_left, items_left.
  inversion 1 as [ | | | url depth queue Htest _ Hpop _
                   | url depth queue msg Htest _ Hpop _ _ _
                   | url depth queue page queue' cats Htest _ _ Hnew _ _ _
                   | url depth queue page queue' msg Htest _ _ Hnew _ _ _ ];
    subst; cbn [visited frontier].
  - right. split; [done |]. rewrite (frontier_pop_items _ _ _ _ Hpop). simpl. lia.
  - right. split; [done |]. rewrite (frontier_pop_items _ _ _ _ Hpop). simpl. lia.
  - left. apply andb_true_iff in Htest as [_ Hlt%Z.ltb_lt].
    rewrite (size_visited_add _ _ Hnew). lia.
  - left. apply andb_true_iff in Htest as [_ Hlt%Z.ltb_lt].
    rewrite (size_visited_add _ _ Hnew). lia.
Qed.

(** From every state the loop is left by [return] after finitely many
    passes. *)
Lemma crawl_loop_terminates (st : state F) :
  exists fuel st', crawl_loop fuel st = Return st'.
Proof.
  remember (pages_left st) as a eqn:Ha. revert st Ha.
  induction a as [a IHa] using lt_wf_ind. intros st Ha.
  remember (items_left st) as b eqn:Hb. revert st Ha Hb.
  induction b as [b IHb] using lt_wf_ind. intros st Ha Hb.
  pose proof (crawl_iter_pass w max_pages max_depth keywords progress_callback
                stop_event st) as Hpass.
  destruct (crawl_iter st) as [st' | st' | st'] eqn:Hiter.
  - assert (exists fuel st'', crawl_loop fuel st' = Return st'') as (fuel & st'' & Hret).
    { destruct (pass_decreases _ _ Hpass) as [Hlt | [Heq Hlt]].
      - eapply (IHa (pages_left st')); [lia | done].
      - eapply (IHb (items_left st')); [lia | lia | done]. }
    exists (S fuel), st''. simpl. by rewrite Hiter.
  - exists 1%nat, st'. simpl. by rewrite Hiter.
  - by apply pass_caught in Hpass.
Qed.

Lemma crawl_terminates (start_url : string) :
  exists fuel st,
    forall fuel', (fuel <= fuel')%nat ->
      crawl_run fuel' start_url = Return st
      /\ crawl fuel' start_url = Some (categorized_urls st).
Proof.
  destruct (crawl_loop_terminates (initial start_url)) as (fuel & st & Hret).
  exists fuel, st. intros fuel' Hle. unfold crawl, crawl_run.
  by rewrite (crawl_loop_return w max_pages max_depth keywords progress_callback
                stop_event fuel fuel' _ _ Hret Hle).
Qed.

(** No run ends with an uncaught exception. *)
Lemma crawl_run_caught (fuel : nat) (start_url : string) (st : state F) :
  crawl_run fuel start_url <> Uncaught st.
Proof.
  unfold crawl_run. generalize (initial (F := F) start_url). intros st0.
  revert st0. induction fuel as [| fuel IH]; intros st0; [done |].
  simpl. pose proof (crawl_iter_pass w max_pages max_depth keywords progress_callback
                       stop_event st0) as Hpass.
  destruct (crawl_iter st0) as [st' | st' | st']; [apply IH | done |].
  by apply pass_caught in Hpass.
Qed.

End Lawful.

(** ** What one pass does, read from its events *)

(** Membership of an event in an explicit list of events. *)
Ltac in_events H :=
  repeat (apply elem_of_cons in H as [H | H];
          [try discriminate H; try (injection H as ? ?; subst) |]);
  try (apply elem_of_nil in H; destruct H).

Ltac not_in_events :=
  let Hin := fresh "Hin" in intros Hin; in_events Hin.

Section PassFacts.

Context {F : Type} `{FrontierLaws F}.
Variable w : web.
Variables max_pages max_depth : Z.
Variable keywords : option (list string).
Variable progress_callback : option callback.
Variable stop_event : option (nat -> bool).

Local Abbreviation crawl_iter := (crawl_iter w max_pages max_depth keywords progress_callback stop_event).
Local Abbreviation crawl_loop := (crawl_loop w max_pages max_depth keywords progress_callback stop_event).
Local Abbreviation crawl_run := (crawl_run w max_pages max_depth keywords progress_callback stop_event).
Local Abbreviation crawl := (crawl w max_pages max_depth keywords progress_callback stop_event).
Local Abbreviation pass := (pass w max_pages max_depth keywords progress_callback stop_event).
Local Abbreviation loop_test := (loop_test max_pages).
Local Abbreviation polled := (polled stop_event).
Local Abbreviation stop_requested := (stop_requested stop_event).
Local Abbreviation progress_events := (progress_events max_pages progress_callback).

Lemma new_events_app (st : state F) (q : F) (v : gset string)
    (c : gmap string (list string)) (es : list event) (n : nat) :
  new_events st (State q v c (trace st ++ es) n) = es.
Proof. unfold new_events. cbn [trace]. apply drop_app_length. Qed.

Lemma new_events_same (st : state F) : new_events st st = [].
Proof. unfold new_events. by rewrite drop_all. Qed.

(** Exposes the new events of every case of a pass. *)
Ltac pass_cases Hpass :=
  destruct Hpass;
  cbn [outcome_state visited categorized_urls frontier iteration] in *;
  rewrite ?new_events_app, ?new_events_same in *.

(** A popped item that is visited or too deep is dropped: nothing is
    fetched, added, logged or reported. *)
Lemma pass_discards (st : state F) (o : outcome (state F)) (url : string) (depth : Z) :
  pass st o ->
  Pop url depth ∈ new_events st (outcome_state o) ->
  url ∈ visited st \/ max_depth < depth ->
  o = Continue (outcome_state o)
  /\ new_events st (outcome_state o) = polled (iteration st) ++ [Pop url depth]
  /\ visited (outcome_state o) = visited st
  /\ categorized_urls (outcome_state o) = categorized_urls st
  /\ frontier_items (frontier st)
     ≡ₚ (url, depth) :: frontier_items (frontier (outcome_state o)).
Proof.
  intros Hpass Hin Hdrop.
  pass_cases Hpass; unfold polled, progress_events in *;
    destruct stop_event, progress_callback; simpl in Hin; in_events Hin;
    try (destruct Hdrop; [done | lia]).
  all: repeat split; try done; by apply frontier_pop_items.
Qed.

(** A fetch that raises leaves [visited] and the result as they were, logs
    the error and goes back to the loop test. *)
Lemma pass_fetch_fails (st : state F) (o : outcome (state F)) (url : string)
    (depth : Z) (msg : string) :
  pass st o ->
  Fetch url depth ∈ new_events st (outcome_state o) ->
  urlopen w (iteration st) url = Raise msg ->
  o = Continue (outcome_state o)
  /\ new_events st (outcome_state o)
     = polled (iteration st) ++ [Pop url depth; Fetch url depth; LogError url msg]
       ++ progress_events (size (visited st))
  /\ visited (outcome_state o) = visited st
  /\ (url ∉ visited (outcome_state o))
  /\ categorized_urls (outcome_state o) = categorized_urls st
  /\ frontier_items (frontier st)
     ≡ₚ (url, depth) :: frontier_items (frontier (outcome_state o)).
Proof.
  intros Hpass Hin Hraise.
  pass_cases Hpass; unfold polled, progress_events in *;
    destruct stop_event, progress_callback; simpl in Hin; in_events Hin;
    try congruence.
  all: assert (msg0 = msg) as -> by congruence.
  all: repeat split; try done; by apply frontier_pop_items.
Qed.

(** A stop request seen by the poll ends the loop at once. *)
Lemma pass_stops (st : state F) (o : outcome (state F)) :
  pass st o -> loop_test st = true -> stop_requested (iteration st) = true ->
  o = Return (State (frontier st) (visited st) (categorized_urls st)
                    (trace st ++ [IsSet true]) (iteration st)).
Proof. intros Hpass Htest Hstop. destruct Hpass; congruence. Qed.

(** A pass that enters the loop body polls the stop event once, before
    anything else: a stop request ends the loop with nothing popped,
    otherwise the pop follows. *)
Lemma pass_poll (st : state F) (o : outcome (state F)) (is_set : nat -> bool) :
  pass st o -> stop_event = Some is_set -> loop_test st = true ->
  (is_set (iteration st) = true
   /\ o = Return (State (frontier st) (visited st) (categorized_urls st)
                        (trace st ++ [IsSet true]) (iteration st)))
  \/ (is_set (iteration st) = false
      /\ exists url depth rest,
           o = Continue (outcome_state o)
           /\ new_events st (outcome_state o) = IsSet false :: Pop url depth :: rest
           /\ forall b, IsSet b ∉ rest).
Proof.
  intros Hpass Hev Htest.
  destruct (is_set (iteration st)) eqn:Hset; [left | right]; (split; [done |]).
  { apply pass_stops; [done .. |]. unfold stop_requested. by rewrite Hev. }
  inversion Hpass as [ | Htrue Hstop | Htrue Hstop Hpop | | | | ]; subst;
    cbn [outcome_state]; rewrite ?new_events_app;
    unfold polled, progress_events, stop_requested in *; rewrite ?Hev in *;
    try congruence.
  - by apply pass_caught in Hpass.
  - do 3 eexists. rewrite Hset. split; [done |]. split; [reflexivity |].
    intros b. not_in_events.
  - do 3 eexists. rewrite Hset. split; [done |]. split; [reflexivity |].
    intros b. destruct progress_callback; not_in_events.
  - do 3 eexists. rewrite Hset. split; [done |]. split; [reflexivity |].
    intros b. destruct progress_callback; not_in_events.
  - do 3 eexists. rewrite Hset. split; [done |]. split; [reflexivity |].
    intros b. destruct progress_callback; not_in_events.
Qed.

(** The progress report: none for a dropped item, one after the [try]
    block otherwise. *)
Lemma pass_progress (st st' : state F) (url : string) (depth : Z) :
  pass st (Continue st') ->
  Pop url depth ∈ new_events st st' ->
  (url ∈ visited st \/ max_depth < depth ->
   forall n m, (Progress n m ∉ new_events st st'))
  /\ (url ∉ visited st -> depth <= max_depth ->
      exists body,
        Fetch url depth ∈ body
        /\ (forall n m, Progress n m ∉ body)
        /\ new_events st st' = body ++ progress_events (size (visited st'))).
Proof.
  intros Hpass Hin.
  inversion Hpass as [ | | | url0 depth0 | url0 depth0 | url0 depth0 | url0 depth0 ];
    subst; rewrite ?new_events_app in *; cbn [visited].
  all: assert (url = url0 /\ depth = depth0) as [-> ->]
    by (unfold polled, progress_events in Hin;
        destruct stop_event, progress_callback; simpl in Hin; in_events Hin; done).
  all: split; [intros Hdrop | intros Hnot Hle].
  all: try (destruct Hdrop; [done | lia]).
  all: try match goal with
           | Hd : _ ∈ _ \/ _ |- _ => destruct Hd; [done | lia]
           end.
  - intros n m. unfold polled. destruct stop_event; not_in_events.
  - eexists (polled (iteration st) ++ [_; _; _]). rewrite <- !(assoc_L (++)).
    split; [| split; [| reflexivity]].
    + apply elem_of_app. right. apply list_elem_of_further, list_elem_of_here.
    + intros n m. unfold polled. destruct stop_event; not_in_events.
  - eexists (polled (iteration st) ++ [_; _; _]). rewrite <- !(assoc_L (++)).
    split; [| split; [| reflexivity]].
    + apply elem_of_app. right. apply list_elem_of_further, list_elem_of_here.
    + intros n m. unfold polled. destruct stop_event; not_in_events.
  - eexists (polled (iteration st) ++ [_; _; _; _]). rewrite <- !(assoc_L (++)).
    split; [| split; [| reflexivity]].
    + apply elem_of_app. right. apply list_elem_of_further, list_elem_of_here.
    + intros n m. unfold polled. destruct stop_event; not_in_events.
Qed.

(** A fetch that returns a page adds the URL to [visited] and leaves the
    frontier as the loop over the anchors of the page made it. *)
Lemma pass_fetch_page (st : state F) (o : outcome (state F)) (url : string)
    (depth : Z) (page : soup) :
  pass st o ->
  Fetch url depth ∈ new_events st (outcome_state o) ->
  urlopen w (iteration st) url = Ok page ->
  exists queue,
    frontier_pop (frontier st) = Some (url, depth, queue)
    /\ o = Continue (outcome_state o)
    /\ visited (outcome_state o) = {[url]} ∪ visited st
    /\ frontier (outcome_state o)
       = fst (scan_links w keywords url depth (soup_get_text page)
                ({[url]} ∪ visited st) (find_all_a page) queue
                (extract_categories w page)).
Proof.
  intros Hpass Hin Hopen.
  destruct Hpass as [ | | | | | ? ? queue ? ? ? ? ? ? ? ? ? Hscan
                     | ? ? queue ? ? ? ? ? ? ? ? ? Hscan ];
    cbn [outcome_state visited categorized_urls frontier iteration] in *;
    rewrite ?new_events_app, ?new_events_same in *;
    unfold polled, progress_events in *;
    destruct stop_event, progress_callback; simpl in Hin; in_events Hin;
    try congruence.
  all: assert (page0 = page) as -> by congruence.
  all: exists queue; rewrite Hscan; done.
Qed.

End PassFacts.

(** ** Runs of either strategy are runs of the loop *)

Lemma run_generic (s : strategy) :
  exists (F : Type) (HF : Frontier F) (HL : FrontierLaws F),
    forall w fuel start_url max_pages max_depth keywords progress_callback stop_event,
      run s w fuel start_url max_pages max_depth keywords progress_callback stop_event
      = observe_outcome
          (crawl_run (F := F) w max_pages max_depth keywords progress_callback
                     stop_event fuel start_url)
      /\ run_crawl s w fuel start_url max_pages max_depth keywords progress_callback
                   stop_event
         = crawl (F := F) w max_pages max_depth keywords progress_callback
                 stop_event fuel start_url.
Proof.
  destruct s.
  - exists (list item), best_first, best_first_laws. by intros.
  - exists (list (string * Z)), depth_first, depth_first_laws. by intros.
Qed.

Lemma observe_state {F : Type} `{Frontier F} (o : outcome (state F)) :
  outcome_state (observe_outcome o) = observe (outcome_state o).
Proof. by destruct o. Qed.

Lemma observe_continue {F : Type} `{Frontier F} (o : outcome (state F))
    (st : state (list (string * Z))) :
  observe_outcome o = Continue st -> exists st0, o = Continue st0 /\ st = observe st0.
Proof. destruct o as [st0 | st0 | st0]; intros [= <-]. by exists st0. Qed.

Lemma observe_return {F : Type} `{Frontier F} (o : outcome (state F))
    (st : state (list (string * Z))) :
  observe_outcome o = Return st -> exists st0, o = Return st0 /\ st = observe st0.
Proof. destruct o as [st0 | st0 | st0]; intros [= <-]. by exists st0. Qed.

Lemma crawl_run_step {F : Type} `{Frontier F} (w : web) (max_pages max_depth : Z)
    (keywords : option (list string)) (progress_callback : option callback)
    (stop_event : option (nat -> bool)) (fuel : nat) (start_url : string)
    (st : state F) :
  crawl_run w max_pages max_depth keywords progress_callback stop_event fuel start_url
  = Continue st ->
  pass w max_pages max_depth keywords progress_callback stop_event st
       (crawl_run w max_pages max_depth keywords progress_callback stop_event
                  (S fuel) start_url).
Proof.
  unfold crawl_run. intros Hrun. rewrite crawl_loop_last, Hrun.
  apply crawl_iter_pass.
Qed.

(** ** The page limit *)

(** C1.  In every run of either strategy, whatever the fetches return and
    whenever the stop event is set, [visited] never holds more than
    [max_pages] URLs (for a page limit that is not negative): not after any
    number of passes through the loop, and not when the run returns, which
    it always does. *)
Theorem visited_never_exceeds_max_pages (s : strategy) (w : web) (start_url : string)
    (max_pages max_depth : Z) (keywords : option (list string))
    (progress_callback : option callback) (stop_event : option (nat -> bool)) :
  0 <= max_pages ->
  (forall fuel,
     Z.of_nat (size (visited (outcome_state
       (run s w fuel start_url max_pages max_depth keywords progress_callback
            stop_event)))) <= max_pages)
  /\ exists fuel st,
       run s w fuel start_url max_pages max_depth keywords progress_callback stop_event
       = Return st
       /\ Z.of_nat (size (visited st)) <= max_pages.
Proof.
  intros Hpos. destruct (run_generic s) as (F & HF & HL & Hrun).
  assert (Hall : forall fuel,
    Z.of_nat (size (visited (outcome_state
      (run s w fuel start_url max_pages max_depth keywords progress_callback
           stop_event)))) <= max_pages).
  { intros fuel. rewrite (proj1 (Hrun _ _ _ _ _ _ _ _)), observe_state.
    cbn [observe visited]. by apply crawl_run_bounded. }
  split; [done |].
  destruct (crawl_terminates w max_pages max_depth keywords progress_callback
              stop_event start_url) as (fuel & st & Hret).
  destruct (Hret fuel (Nat.le_refl _)) as [Hret' _]. clear Hret. rename Hret' into Hret.
  exists fuel, (observe st). specialize (Hall fuel).
  rewrite (proj1 (Hrun _ _ _ _ _ _ _ _)) in *. rewrite Hret in *. done.
Qed.

Lemma visited_never_exceeds_max_pages_witness :
  Z.of_nat (size (visited (outcome_state
    (run BestFirst chain 2 "http://a" 2 3 None (Some Callback) None)))) <= 2.
Proof.
  apply (visited_never_exceeds_max_pages BestFirst chain "http://a" 2 3 None
           (Some Callback) None).
  lia.
Defined.

(** ** Items dropped at the pop *)

(** In a run of either strategy, a pass that pops an item whose URL is
    already visited, or whose depth is beyond the limit, does nothing else:
    the loop goes back to its test with [visited] and the result unchanged. *)
Lemma run_discards (s : strategy) (w : web) (start_url : string)
    (max_pages max_depth : Z) (keywords : option (list string))
    (progress_callback : option callback) (stop_event : option (nat -> bool))
    (fuel : nat) (st : state (list (string * Z))) (url : string) (depth : Z) :
  run s w fuel start_url max_pages max_depth keywords progress_callback stop_event
  = Continue st ->
  Pop url depth ∈ new_events st (outcome_state
    (run s w (S fuel) start_url max_pages max_depth keywords progress_callback
         stop_event)) ->
  url ∈ visited st \/ max_depth < depth ->
  exists st',
    run s w (S fuel) start_url max_pages max_depth keywords progress_callback stop_event
    = Continue st'
    /\ new_events st st' = polled stop_event (iteration st) ++ [Pop url depth]
    /\ visited st' = visited st
    /\ categorized_urls st' = categorized_urls st
    /\ frontier st ≡ₚ (url, depth) :: frontier st'.
Proof.
  destruct (run_generic s) as (F & HF & HL & Hrun).
  rewrite !(proj1 (Hrun _ _ _ _ _ _ _ _)). intros Hbefore Hin Hdrop.
  apply observe_continue in Hbefore as (st0 & Hbefore & ->).
  pose proof (crawl_run_step _ _ _ _ _ _ _ _ _ Hbefore) as Hpass.
  rewrite observe_state in Hin.
  destruct (pass_discards _ _ _ _ _ _ _ _ url depth Hpass Hin Hdrop)
    as (Ho & Hnew & Hvis & Hcat & Hperm).
  exists (observe (outcome_state (crawl_run w max_pages max_depth keywords
                                           progress_callback stop_event (S fuel) start_url))).
  split; [by rewrite Ho at 1 |]. done.
Qed.

(** ** The depth limit *)

(** C2.  In every run of either strategy, every fetch and every addition to
    [visited] is for a popped item whose depth is at most [max_depth], every
    visited URL was added at such a depth, and a popped item that is deeper
    is dropped without a fetch.  Depth-first on the chain A -> B -> C with
    [max_depth = 1] visits exactly A and B and drops C at depth 2. *)
Theorem no_fetch_beyond_max_depth (s : strategy) (w : web) (start_url : string)
    (max_pages max_depth : Z) (keywords : option (list string))
    (progress_callback : option callback) (stop_event : option (nat -> bool)) :
  (forall fuel url depth,
     Fetch url depth ∈ trace (outcome_state
       (run s w fuel start_url max_pages max_depth keywords progress_callback stop_event))
     \/ VisitedAdd url depth ∈ trace (outcome_state
       (run s w fuel start_url max_pages max_depth keywords progress_callback stop_event))
     -> depth <= max_depth)
  /\ (forall fuel url,
        url ∈ visited (outcome_state
          (run s w fuel start_url max_pages max_depth keywords progress_callback
               stop_event)) ->
        exists depth,
          VisitedAdd url depth ∈ trace (outcome_state
            (run s w fuel start_url max_pages max_depth keywords progress_callback
                 stop_event))
          /\ depth <= max_depth)
  /\ (forall fuel st url depth,
        run s w fuel start_url max_pages max_depth keywords progress_callback stop_event
        = Continue st ->
        Pop url depth ∈ new_events st (outcome_state
          (run s w (S fuel) start_url max_pages max_depth keywords progress_callback
               stop_event)) ->
        max_depth < depth ->
        exists st',
          run s w (S fuel) start_url max_pages max_depth keywords progress_callback
              stop_event = Continue st'
          /\ new_events st st' = polled stop_event (iteration st) ++ [Pop url depth]
          /\ visited st' = visited st)
  /\ (exists fuel st,
        run DepthFirst chain fuel "http://a" 10 1 None None None = Return st
        /\ visited st = {[ "http://a"; "http://b" ]}
        /\ trace st = [Pop "http://a" 0; Fetch "http://a" 0; VisitedAdd "http://a" 0;
                       Pop "http://b" 1; Fetch "http://b" 1; VisitedAdd "http://b" 1;
                       Pop "http://c" 2]).
Proof.
  destruct (run_generic s) as (F & HF & HL & Hrun).
  assert (Hinv : forall fuel,
    trace_inv max_depth (outcome_state
      (run s w fuel start_url max_pages max_depth keywords progress_callback stop_event))).
  { intros fuel. rewrite (proj1 (Hrun _ _ _ _ _ _ _ _)), observe_state.
    exact (crawl_run_trace_inv w max_pages max_depth keywords progress_callback
             stop_event fuel start_url). }
  split; [| split; [| split]].
  - intros fuel url depth Hin. destruct (Hinv fuel) as (_ & _ & Hdepth).
    rewrite Forall_forall in Hdepth.
    destruct Hin as [Hin | Hin]; exact (Hdepth _ Hin).
  - intros fuel url Hin. destruct (Hinv fuel) as (Hvis & _ & Hdepth).
    rewrite Hvis in Hin. apply elem_of_added in Hin as [depth Hin].
    exists depth. split; [done |].
    rewrite Forall_forall in Hdepth. exact (Hdepth _ Hin).
  - intros fuel st url depth Hbefore Hin Hdeep.
    destruct (run_discards s w start_url max_pages max_depth keywords progress_callback
                stop_event fuel st url depth Hbefore Hin (or_intror Hdeep))
      as (st' & Hafter & Hnew & Hvis & _).
    by exists st'.
  - exists 4%nat. eexists. split; [vm_compute; reflexivity |].
    split; [by vm_compute | reflexivity].
Qed.

Lemma no_fetch_beyond_max_depth_witness :
  Fetch "http://b" 1 ∈ trace (outcome_state
    (run DepthFirst chain 2 "http://a" 10 1 None None None))
  /\ 1 <= 1.
Proof.
  assert (Hin : Fetch "http://b" 1 ∈ trace (outcome_state
            (run DepthFirst chain 2 "http://a" 10 1 None None None))).
  { vm_compute. do 4 apply list_elem_of_further. apply list_elem_of_here. }
  split; [exact Hin |].
  exact (proj1 (no_fetch_beyond_max_depth DepthFirst chain "http://a" 10 1 None None None)
           2%nat "http://b" 1 (or_introl Hin)).
Defined.

(** ** Each URL is visited once *)

(** C3.  In every run of either strategy a URL is added to [visited] at most
    once, and after it is added it is never fetched again.  A popped item
    whose URL is visited is dropped at the pop, with nothing fetched or
    changed.  Pushing does not look at the frontier: on the page that links
    twice to B the frontier holds two copies of B, and the second copy is
    dropped when it is popped. *)
Theorem visited_once_checked_at_pop (s : strategy) (w : web) (start_url : string)
    (max_pages max_depth : Z) (keywords : option (list string))
    (progress_callback : option callback) (stop_event : option (nat -> bool)) :
  (forall fuel t1 t2 url depth,
     trace (outcome_state
       (run s w fuel start_url max_pages max_depth keywords progress_callback stop_event))
     = t1 ++ VisitedAdd url depth :: t2 ->
     forall depth',
       (VisitedAdd url depth' ∉ t1)
       /\ (VisitedAdd url depth' ∉ t2)
       /\ (Fetch url depth' ∉ t2))
  /\ (forall fuel st url depth,
        run s w fuel start_url max_pages max_depth keywords progress_callback stop_event
        = Continue st ->
        Pop url depth ∈ new_events st (outcome_state
          (run s w (S fuel) start_url max_pages max_depth keywords progress_callback
               stop_event)) ->
        url ∈ visited st ->
        exists st',
          run s w (S fuel) start_url max_pages max_depth keywords progress_callback
              stop_event = Continue st'
          /\ new_events st st' = polled stop_event (iteration st) ++ [Pop url depth]
          /\ visited st' = visited st
          /\ categorized_urls st' = categorized_urls st)
  /\ (exists st1 st3,
        run s twice 1 "http://a" 10 3 None None None = Continue st1
        /\ frontier st1 = [("http://b", 1); ("http://b", 1)]
        /\ run s twice 3 "http://a" 10 3 None None None = Continue st3
        /\ trace st3 = [Pop "http://a" 0; Fetch "http://a" 0; VisitedAdd "http://a" 0;
                        Pop "http://b" 1; Fetch "http://b" 1; VisitedAdd "http://b" 1;
                        Pop "http://b" 1]).
Proof.
  destruct (run_generic s) as (F & HF & HL & Hrun).
  split; [| split].
  - intros fuel t1 t2 url depth Htrace depth'.
    pose proof (crawl_run_trace_inv w max_pages max_depth keywords progress_callback
                  stop_event fuel start_url) as (_ & Hfresh & _).
    rewrite (proj1 (Hrun _ _ _ _ _ _ _ _)), observe_state in Htrace.
    cbn [observe trace] in Htrace. rewrite Htrace in Hfresh.
    apply fresh_app in Hfresh as [_ [Hnew Hfresh]].
    split; [| apply and_comm; apply (fresh_seen _ _ _ _ Hfresh); set_solver].
    intros Hin. apply Hnew. apply elem_of_union. left.
    apply elem_of_added. by exists depth'.
  - intros fuel st url depth Hbefore Hin Hvisited.
    destruct (run_discards s w start_url max_pages max_depth keywords progress_callback
                stop_event fuel st url depth Hbefore Hin (or_introl Hvisited))
      as (st' & Hafter & Hnew & Hvis & Hcat & _).
    by exists st'.
  - destruct s; do 2 eexists; (split; [vm_compute; reflexivity |]);
      (split; [reflexivity |]); (split; [vm_compute; reflexivity | reflexivity]).
Qed.

Lemma visited_once_checked_at_pop_witness :
  (VisitedAdd "http://a" 5 ∉ [Pop "http://a" 0; Fetch "http://a" 0])
  /\ (VisitedAdd "http://a" 5 ∉ [Pop "http://b" 1; Fetch "http://b" 1;
                                 VisitedAdd "http://b" 1])
  /\ (Fetch "http://a" 5 ∉ [Pop "http://b" 1; Fetch "http://b" 1;
                            VisitedAdd "http://b" 1]).
Proof.
  apply (proj1 (visited_once_checked_at_pop DepthFirst chain "http://a" 10 1 None
                  None None) 2%nat _ _ "http://a" 0).
  vm_compute. reflexivity.
Defined.

(** ** The priority of a pushed link *)

Lemma is_continuation_lower (c : ascii) :
  PyStr.is_continuation (PyStr.lower_ascii c) = PyStr.is_continuation c.
Proof. by destruct c as [[] [] [] [] [] [] [] []]. Qed.

Lemma ascii_lower_len (s : string) : PyStr.len (PyStr.ascii_lower s) = PyStr.len s.
Proof.
  induction s as [| c s IH]; cbn [PyStr.len PyStr.ascii_lower]; [done |].
  by rewrite is_continuation_lower, IH.
Qed.

Lemma ascii_lower_length (s : string) :
  String.length (PyStr.ascii_lower s) = String.length s.
Proof. induction s as [| c s IH]; simpl; [done | by rewrite IH]. Qed.

Lemma nat_of_lower_ascii (c : ascii) :
  nat_of_ascii (PyStr.lower_ascii c)
  = if ((65 <=? nat_of_ascii c) && (nat_of_ascii c <=? 90))%nat
    then (nat_of_ascii c + 32)%nat else nat_of_ascii c.
Proof.
  unfold PyStr.lower_ascii.
  destruct ((65 <=? nat_of_ascii c) && (nat_of_ascii c <=? 90))%nat eqn:Hupper; [| done].
  apply nat_ascii_embedding.
  apply andb_true_iff in Hupper as [_ Hle%Nat.leb_le]. lia.
Qed.

Lemma ascii_eqb_nat (a b : ascii) :
  Ascii.eqb a b = (nat_of_ascii a =? nat_of_ascii b)%nat.
Proof.
  destruct (Ascii.eqb_spec a b) as [-> | Hne]; [by rewrite Nat.eqb_refl |].
  symmetry. apply Nat.eqb_neq. intros Heq. apply Hne.
  by rewrite <- (ascii_nat_embedding a), <- (ascii_nat_embedding b), Heq.
Qed.

(** Two characters are the same letter when [lower()] makes them equal. *)
Lemma same_letter_lower (a b : ascii) :
  same_letter a b = Ascii.eqb (PyStr.lower_ascii a) (PyStr.lower_ascii b).
Proof.
  unfold same_letter, capital_of.
  rewrite !ascii_eqb_nat, !nat_of_lower_ascii.
  generalize (nat_of_ascii a) (nat_of_ascii b). intros n m.
  destruct (Nat.leb_spec 65 n), (Nat.leb_spec n 90), (Nat.leb_spec 65 m),
    (Nat.leb_spec m 90); cbn [andb orb];
    repeat match goal with
           | |- context [(?x =? ?y)%nat] => destruct (Nat.eqb_spec x y)
           end; cbn [andb orb]; first [reflexivity | lia].
Qed.

Lemma stands_at_lower (keyword text : string) :
  stands_at keyword text
  = String.prefix (PyStr.ascii_lower keyword) (PyStr.ascii_lower text).
Proof.
  revert text. induction keyword as [| a keyword IH]; intros [| b text];
    cbn [stands_at PyStr.ascii_lower String.prefix]; try done.
  rewrite same_letter_lower.
  destruct (ascii_dec (PyStr.lower_ascii a) (PyStr.lower_ascii b)) as [Heq | Hne].
  - rewrite Heq, Ascii.eqb_refl. apply IH.
  - by apply Ascii.eqb_neq in Hne as ->.
Qed.

Lemma occurrences_from_lower (keyword text : string) (skip : nat) :
  occurrences_from keyword text skip
  = PyStr.count_go (PyStr.ascii_lower keyword) (PyStr.ascii_lower text) skip.
Proof.
  revert skip. induction text as [| c text IH]; intros skip; [done |].
  cbn [occurrences_from PyStr.ascii_lower PyStr.count_go].
  destruct skip as [| k]; [| apply IH].
  change (String (PyStr.lower_ascii c) (PyStr.ascii_lower text))
    with (PyStr.ascii_lower (String c text)).
  rewrite <- stands_at_lower, ascii_lower_length, !IH. done.
Qed.

(** On text that [lower()] lowers letter by letter, [content.lower().count(
    keyword.lower())] counts the places where the keyword stands. *)
Lemma count_lower_letterwise (content keyword : string) :
  Z.of_nat (PyStr.count (PyStr.ascii_lower content) (PyStr.ascii_lower keyword))
  = letterwise_occurrences content keyword.
Proof.
  unfold letterwise_occurrences, PyStr.count.
  destruct keyword as [| a keyword]; simpl PyStr.ascii_lower; cbv iota.
  - by rewrite ascii_lower_len.
  - by rewrite occurrences_from_lower.
Qed.

Lemma keyword_heuristic_score_from (w : web) (content : string) (keywords : list string)
    (acc : Z) :
  fold_left (fun score keyword =>
               score + Z.of_nat (PyStr.count (str_lower w content) (str_lower w keyword)))
            keywords acc
  = acc + spec_keyword_score w content keywords.
Proof.
  revert acc. induction keywords as [| k keywords IH]; intros acc;
    cbn [fold_left spec_keyword_score]; [lia |].
  rewrite IH. unfold occurrences_ignoring_case. lia.
Qed.

Lemma keyword_heuristic_score_spec (w : web) (content : string) (keywords : list string) :
  keyword_heuristic_score w content keywords = spec_keyword_score w content keywords.
Proof.
  unfold keyword_heuristic_score. by rewrite keyword_heuristic_score_from.
Qed.

Lemma spec_keyword_score_letterwise (w : web) (text : string) (keywords : list string) :
  (forall s, ascii_text s = true -> str_lower w s = PyStr.ascii_lower s) ->
  ascii_text text = true ->
  Forall (fun keyword => ascii_text keyword = true) keywords ->
  spec_keyword_score w text keywords = letterwise_keyword_score text keywords.
Proof.
  intros Hlower Htext Hkeywords.
  induction Hkeywords as [| k keywords Hk _ IH];
    cbn [spec_keyword_score letterwise_keyword_score]; [done |].
  unfold occurrences_ignoring_case.
  by rewrite IH, (Hlower _ Htext), (Hlower _ Hk), count_lower_letterwise.
Qed.

(** The loop over the anchors of a page, in best-first mode, pushes the
    discovered links one after the other. *)
Lemma scan_links_bfs (w : web) (keywords : option (list string)) (current_url : string)
    (depth : Z) (page_content : string) (seen : gset string) (tags : list tag)
    (queue : list item) (categories : gmap string (list string)) :
  fst (scan_links w keywords current_url depth page_content seen tags queue categories)
  = fold_left (fun queue link =>
                 heappush queue (link_score w page_content keywords link, link, depth + 1))
              (discovered_links w current_url seen tags) queue.
Proof.
  revert queue categories.
  induction tags as [| t tags IH]; intros queue categories; simpl; [done |].
  destruct (urljoin w current_url (href t)) as [joined | msg]; simpl; [| done].
  destruct (decide (PyStr.rstrip_slash joined ∈ seen)); [apply IH |].
  by rewrite IH.
Qed.

Lemma fold_heappush_heap {A : Type} (f : A -> item) (xs : list A) (queue : list item) :
  is_heap queue -> is_heap (fold_left (fun queue x => heappush queue (f x)) xs queue).
Proof.
  revert queue. induction xs as [| x xs IH]; intros queue Hheap; simpl; [done |].
  by apply IH, heappush_heap.
Qed.

Lemma item_leb_score (p p' : Z) (u u' : string) (d d' : Z) :
  item_leb (p, u, d) (p', u', d') = true -> p <= p'.
Proof.
  unfold item_leb. simpl. destruct (Z.compare_spec p p'); [lia | lia | done].
Qed.

(** The frontier of a best-first run is a heap at every pass. *)
Lemma bfs_pass_heap (w : web) (max_pages max_depth : Z) (keywords : option (list string))
    (progress_callback : option callback) (stop_event : option (nat -> bool))
    (st : state (list item)) (o : outcome (state (list item))) :
  is_heap (frontier st) ->
  pass w max_pages max_depth keywords progress_callback stop_event st o ->
  is_heap (frontier (outcome_state o)).
Proof.
  intros Hheap Hpass.
  assert (Hpopped : forall url depth queue,
    frontier_pop (frontier st) = Some (url, depth, queue) -> is_heap queue).
  { intros url depth queue Hpop. simpl in Hpop. unfold bfs_pop in Hpop.
    destruct (heappop (frontier st)) as [[[[p u] d] q] |] eqn:Hheappop; [| done].
    injection Hpop as -> -> ->. by apply (heappop_heap _ _ _ Hheap Hheappop). }
  destruct Hpass as [ | | | ? ? ? ? ? Hpop | ? ? ? ? ? ? Hpop
                     | ? ? ? ? ? ? ? ? Hpop ? ? ? Hscan
                     | ? ? ? ? ? ? ? ? Hpop ? ? ? Hscan ];
    cbn [outcome_state frontier]; try done; try by eapply Hpopped.
  all: apply (f_equal fst) in Hscan; rewrite scan_links_bfs in Hscan;
    cbn [fst] in Hscan; rewrite <- Hscan;
    apply (fold_heappush_heap
             (fun link => (link_score w (soup_get_text page) keywords link, link,
                            depth + 1)));
    by eapply Hpopped.
Qed.

Lemma bfs_run_heap (w : web) (fuel : nat) (start_url : string) (max_pages max_depth : Z)
    (keywords : option (list string)) (progress_callback : option callback)
    (stop_event : option (nat -> bool)) :
  is_heap (frontier (outcome_state
    (bfs_run w fuel start_url max_pages max_depth keywords progress_callback stop_event))).
Proof.
  unfold bfs_run, crawl_run.
  apply (crawl_loop_invariant w max_pages max_depth keywords progress_callback stop_event
           (fun st => is_heap (frontier st))).
  - intros st o. apply bfs_pass_heap.
  - unfold initial. cbn [frontier]. apply is_heap_singleton.
Qed.

(** C4.  In best-first mode the score of a link is the sum over the keywords
    of the occurrences of the lowered keyword in the lowered text of the
    referring page, when a non-empty keyword list is given, and the length
    of the link in characters otherwise.  On ASCII text and keywords this is
    the number of places of the text where the keyword stands, letter for
    letter with case ignored, counted from the left without overlap.  A pass
    that fetches a page pushes each of its links (resolved, not yet visited)
    as [(score, link, depth + 1)], and in every state of a run [heappop]
    returns an item of the lowest score in the frontier.  With no keywords,
    a link of length 5 is popped before a link of length 50 that was pushed
    before it; with the keyword "shop" and a page text that has it three
    times, the links of the page are pushed with score 3. *)
Theorem best_first_priority (w : web) (start_url : string)
    (max_pages max_depth : Z) (keywords : option (list string))
    (progress_callback : option callback) (stop_event : option (nat -> bool)) :
  (forall text keyword keywords' link,
     link_score w text (Some (keyword :: keywords')) link
     = spec_keyword_score w text (keyword :: keywords'))
  /\ (forall text keyword keywords' link,
        (forall s, ascii_text s = true -> str_lower w s = PyStr.ascii_lower s) ->
        ascii_text text = true ->
        Forall (fun keyword => ascii_text keyword = true) (keyword :: keywords') ->
        link_score w text (Some (keyword :: keywords')) link
        = letterwise_keyword_score text (keyword :: keywords'))
  /\ (forall text link,
        link_score w text None link = Z.of_nat (PyStr.len link)
        /\ link_score w text (Some []) link = Z.of_nat (PyStr.len link))
  /\ (forall fuel st url depth page,
        bfs_run w fuel start_url max_pages max_depth keywords progress_callback stop_event
        = Continue st ->
        Fetch url depth ∈ new_events st (outcome_state
          (bfs_run w (S fuel) start_url max_pages max_depth keywords progress_callback
                   stop_event)) ->
        urlopen w (iteration st) url = Ok page ->
        exists priority rest,
          heappop (frontier st) = Some ((priority, url, depth), rest)
          /\ frontier (outcome_state
               (bfs_run w (S fuel) start_url max_pages max_depth keywords
                        progress_callback stop_event))
             = fold_left
                 (fun queue link =>
                    heappush queue (link_score w (soup_get_text page) keywords link,
                                    link, depth + 1))
                 (discovered_links w url ({[url]} ∪ visited st) (find_all_a page))
                 rest)
  /\ (forall fuel priority url depth rest,
        heappop (frontier (outcome_state
          (bfs_run w fuel start_url max_pages max_depth keywords progress_callback
                   stop_event)))
        = Some ((priority, url, depth), rest) ->
        forall priority' url' depth',
          (priority', url', depth') ∈ frontier (outcome_state
            (bfs_run w fuel start_url max_pages max_depth keywords progress_callback
                     stop_event)) ->
          priority <= priority')
  /\ (exists st1 st,
        bfs_run lengths 1 "http://a" 10 3 None None None = Continue st1
        /\ frontier st1 = heappush (heappush [] (50, long_link, 1)) (5, short_link, 1)
        /\ bfs_run lengths 4 "http://a" 10 3 None None None = Return st
        /\ trace st = [Pop "http://a" 0; Fetch "http://a" 0; VisitedAdd "http://a" 0;
                       Pop short_link 1; Fetch short_link 1; VisitedAdd short_link 1;
                       Pop long_link 1; Fetch long_link 1; VisitedAdd long_link 1])
  /\ (exists st1,
        bfs_run shop 1 "http://a" 10 3 (Some ["shop"]) None None = Continue st1
        /\ frontier st1 = [(3, "http://b", 1); (3, "http://cc", 1)]).
Proof.
  split; [| split; [| split; [| split; [| split; [| split]]]]].
  - intros text keyword keywords' link. unfold link_score. simpl truthy. cbv iota.
    apply keyword_heuristic_score_spec.
  - intros text keyword keywords' link Hlower Htext Hkeywords.
    unfold link_score. simpl truthy. cbv iota.
    rewrite keyword_heuristic_score_spec.
    by apply spec_keyword_score_letterwise.
  - done.
  - intros fuel st url depth page Hbefore Hin Hopen.
    pose proof (crawl_run_step (F := list item) _ _ _ _ _ _ _ _ _ Hbefore) as Hpass.
    destruct (pass_fetch_page _ _ _ _ _ _ _ _ _ _ _ Hpass Hin Hopen)
      as (queue & Hpop & _ & _ & Hfrontier).
    simpl in Hpop. unfold bfs_pop in Hpop.
    destruct (heappop (frontier st)) as [[[[p u] d] q] |] eqn:Hheap; [| done].
    injection Hpop as -> -> ->. exists p, queue. split; [done |].
    unfold bfs_run. rewrite Hfrontier. apply scan_links_bfs.
  - intros fuel priority url depth rest Hpop priority' url' depth' Hin.
    pose proof (bfs_run_heap w fuel start_url max_pages max_depth keywords
                  progress_callback stop_event) as Hheap.
    destruct (heappop_heap _ _ _ Hheap Hpop) as [_ Hmin].
    by eapply item_leb_score, Hmin.
  - do 2 eexists. split; [vm_compute; reflexivity |].
    split; [reflexivity |]. split; [vm_compute; reflexivity | reflexivity].
  - eexists. split; [vm_compute; reflexivity | reflexivity].
Qed.

Lemma best_first_priority_witness :
  (exists priority rest,
     heappop [(0, "http://a", 0)] = Some ((priority, "http://a", 0), rest)
     /\ frontier (outcome_state (bfs_run lengths 1 "http://a" 10 3 None None None))
        = heappush (heappush rest (50, long_link, 1)) (5, short_link, 1))
  /\ link_score shop "Shop here. Our SHOP is open. shopping" (Some ["shop"]) "http://b"
     = letterwise_keyword_score "Shop here. Our SHOP is open. shopping" ["shop"].
Proof.
  split.
  - assert (Hin : Fetch "http://a" 0 ∈ new_events
              (State [(0, "http://a", 0)] ∅ ∅ [] 0)
              (outcome_state (bfs_run lengths 1 "http://a" 10 3 None None None))).
    { vm_compute. apply list_elem_of_further, list_elem_of_here. }
    exact (proj1 (proj2 (proj2 (proj2
             (best_first_priority lengths "http://a" 10 3 None None None))))
             0%nat (State [(0, "http://a", 0)] ∅ ∅ [] 0) "http://a" 0
             (page_of [(long_link, "long"); (short_link, "short")] [] "page a")
             eq_refl Hin eq_refl).
  - apply (proj1 (proj2 (best_first_priority shop "http://a" 10 3 (Some ["shop"])
                           None None))).
    + intros s _. reflexivity.
    + reflexivity.
    + repeat constructor.
Defined.

(** ** The order of the best-first frontier *)

Lemma item_leb_spec (p p' : Z) (u u' : string) (d d' : Z) :
  item_leb (p, u, d) (p', u', d') = true
  <-> p < p'
      \/ (p = p' /\ String.compare u u' = Lt)
      \/ (p = p' /\ u = u' /\ d <= d').
Proof.
  unfold item_leb. simpl.
  pose proof (string_compare_refl u) as Hrefl.
  destruct (Z.compare_spec p p');
    destruct (String.compare u u') eqn:Hu;
    try (apply String.compare_eq_iff in Hu; subst u');
    destruct (Z.compare_spec d d');
    (split;
     [ intros Ht; try discriminate Ht;
       first [ left; lia
             | right; left; split; [lia | done]
             | right; right; repeat split; (lia || done) ]
     | intros [? | [[? Hc] | (? & ? & ?)]];
       try done; try lia; try congruence; try (subst; congruence) ]).
Qed.

Lemma item_leb_antisym (a b : item) :
  item_leb a b = true -> item_leb b a = true -> a = b.
Proof.
  unfold item_leb. rewrite (item_compare_antisym a b).
  destruct (item_compare a b) eqn:Hab; simpl; try done.
  intros _ _. by apply item_compare_eq.
Qed.

Lemma heappop_in (queue : list item) (m : item) (rest : list item) :
  heappop queue = Some (m, rest) -> m ∈ queue.
Proof.
  intros Hperm%heappop_perm. rewrite Hperm. apply list_elem_of_here.
Qed.

(** The popped item depends on the items in the heap only, not on the order
    in which they were pushed. *)
Lemma heappop_permutation (q1 q2 : list item) (m : item) (rest : list item) :
  is_heap q1 -> is_heap q2 -> q1 ≡ₚ q2 -> heappop q1 = Some (m, rest) ->
  exists rest', heappop q2 = Some (m, rest') /\ rest ≡ₚ rest'.
Proof.
  intros Hheap1 Hheap2 Hperm Hpop1.
  destruct (heappop q2) as [[m2 rest2] |] eqn:Hpop2.
  - pose proof (heappop_in _ _ _ Hpop1) as Hin1.
    pose proof (heappop_in _ _ _ Hpop2) as Hin2.
    destruct (heappop_heap _ _ _ Hheap1 Hpop1) as [_ Hmin1].
    destruct (heappop_heap _ _ _ Hheap2 Hpop2) as [_ Hmin2].
    apply heappop_perm in Hpop1 as Hp1. apply heappop_perm in Hpop2 as Hp2.
    assert (m = m2) as <-.
    { apply item_leb_antisym.
      - apply Hmin1. by rewrite Hperm.
      - apply Hmin2. by rewrite <- Hperm. }
    exists rest2. split; [done |].
    apply (Permutation_cons_inv (a := m)). by rewrite <- Hp1, <- Hp2.
  - assert (Hempty : nonempty q2 = false).
    { destruct (nonempty q2) eqn:Hne; [| done].
      destruct (heappop_nonempty q2 Hne) as [x Hx]. congruence. }
    destruct q2; [| done]. apply Permutation_nil_r in Hperm as ->. done.
Qed.

(** C8, as stated, fails.  Among items of equal score the frontier does not
    pop the one inserted first: with [(8, "http://c", 1)] pushed before
    [(8, "http://b", 1)], the second is popped first, and a best-first run
    on a page with these two links fetches "http://b" before "http://c". *)
Lemma ties_not_in_insertion_order :
  ~ (forall popped rest,
       heappop (heappush (heappush [] (8, "http://c", 1)) (8, "http://b", 1))
       = Some (popped, rest) ->
       popped = (8, "http://c", 1))
  /\ heappop (heappush (heappush [] (8, "http://c", 1)) (8, "http://b", 1))
     = Some ((8, "http://b", 1), [(8, "http://c", 1)])
  /\ exists st1 st,
       bfs_run ties 1 "http://a" 10 3 None None None = Continue st1
       /\ frontier st1 = heappush (heappush [] (8, "http://c", 1)) (8, "http://b", 1)
       /\ bfs_run ties 4 "http://a" 10 3 None None None = Return st
       /\ trace st = [Pop "http://a" 0; Fetch "http://a" 0; VisitedAdd "http://a" 0;
                      Pop "http://b" 1; Fetch "http://b" 1; VisitedAdd "http://b" 1;
                      Pop "http://c" 1; Fetch "http://c" 1; VisitedAdd "http://c" 1].
Proof.
  split; [| split; [reflexivity |]].
  - intros Hclaim. by specialize (Hclaim _ _ eq_refl).
  - do 2 eexists.
    split; [vm_compute; reflexivity |]. split; [reflexivity |].
    split; [vm_compute; reflexivity | reflexivity].
Qed.

(** C8, amended.  The ordering key of the best-first frontier is the tuple
    [(score, url, depth)].  The frontier of a best-first run is a heap at
    every pass, and [heappop] on a heap removes one item, the least in the
    order of tuples: of the lowest score, among those of the least URL in
    code point order, among those of the least depth.  The order of
    insertion plays no part: two heaps with the same items pop the same
    item. *)
Theorem best_first_pops_least_tuple (w : web) (fuel : nat) (start_url : string)
    (max_pages max_depth : Z) (keywords : option (list string))
    (progress_callback : option callback) (stop_event : option (nat -> bool))
    (queue : list item) (score : Z) (url : string) (depth : Z) (rest : list item) :
  queue = frontier (outcome_state
    (bfs_run w fuel start_url max_pages max_depth keywords progress_callback stop_event)) ->
  heappop queue = Some ((score, url, depth), rest) ->
  is_heap queue
  /\ queue ≡ₚ (score, url, depth) :: rest
  /\ (forall score' url' depth',
        (score', url', depth') ∈ queue ->
        score < score'
        \/ (score = score' /\ String.compare url url' = Lt)
        \/ (score = score' /\ url = url' /\ depth <= depth'))
  /\ (forall queue',
        is_heap queue' -> queue ≡ₚ queue' ->
        exists rest', heappop queue' = Some ((score, url, depth), rest')
                      /\ rest ≡ₚ rest').
Proof.
  intros -> Hpop.
  pose proof (bfs_run_heap w fuel start_url max_pages max_depth keywords
                progress_callback stop_event) as Hheap.
  split; [done |]. split; [| split].
  - by apply heappop_perm.
  - intros score' url' depth' Hin. apply item_leb_spec.
    destruct (heappop_heap _ _ _ Hheap Hpop) as [_ Hmin]. by apply Hmin.
  - intros queue' Hheap' Hperm.
    exact (heappop_permutation _ _ _ _ Hheap Hheap' Hperm Hpop).
Qed.

Lemma best_first_pops_least_tuple_witness :
  is_heap [(8, "http://b", 1); (8, "http://c", 1)]
  /\ [(8, "http://b", 1); (8, "http://c", 1)] ≡ₚ [(8, "http://b", 1); (8, "http://c", 1)]
  /\ (forall score' url' depth',
        (score', url', depth') ∈ [(8, "http://b", 1); (8, "http://c", 1)] ->
        8 < score'
        \/ (8 = score' /\ String.compare "http://b" url' = Lt)
        \/ (8 = score' /\ "http://b" = url' /\ 1 <= depth'))
  /\ (forall queue',
        is_heap queue' -> [(8, "http://b", 1); (8, "http://c", 1)] ≡ₚ queue' ->
        exists rest', heappop queue' = Some ((8, "http://b", 1), rest')
                      /\ [(8, "http://c", 1)] ≡ₚ rest').
Proof.
  apply (best_first_pops_least_tuple ties 1 "http://a" 10 3 None None None
           [(8, "http://b", 1); (8, "http://c", 1)] 8 "http://b" 1 [(8, "http://c", 1)]).
  - vm_compute. reflexivity.
  - reflexivity.
Defined.

(** ** Trailing slashes *)

Lemma rstrip_slash_stripped (s : string) :
  PyStr.endswith_slash (PyStr.rstrip_slash s) = false.
Proof.
  unfold PyStr.rstrip_slash. induction s as [| c s IH]; simpl; [done |].
  destruct (PyStr.rstrip PyStr.is_slash s) as [| a r] eqn:Hr.
  - destruct (PyStr.is_slash c) eqn:Hc; simpl; [done | by rewrite Hc].
  - exact IH.
Qed.

Section Stripped.

Context {F : Type} `{FrontierLaws F}.
Variable w : web.
Variables max_pages max_depth : Z.
Variable keywords : option (list string).
Variable progress_callback : option callback.
Variable stop_event : option (nat -> bool).
Variable start_url : string.

Local Abbreviation crawl_run := (crawl_run w max_pages max_depth keywords progress_callback stop_event).
Local Abbreviation pass := (pass w max_pages max_depth keywords progress_callback stop_event).
Local Abbreviation scan_links := (scan_links w keywords).

Local Abbreviation seed_or_stripped := (seed_or_stripped start_url).

Lemma scan_links_stripped (current_url : string) (depth : Z) (page_content : string)
    (seen : gset string) (tags : list tag) (queue : F)
    (categories : gmap string (list string)) :
  (forall url d, (url, d) ∈ frontier_items queue -> seed_or_stripped url) ->
  forall url d,
    (url, d) ∈ frontier_items
      (fst (scan_links current_url depth page_content seen tags queue categories)) ->
    seed_or_stripped url.
Proof.
  revert queue categories.
  induction tags as [| t tags IH]; intros queue categories Hqueue; simpl; [done |].
  destruct (urljoin w current_url (href t)) as [joined | msg]; simpl; [| done].
  destruct (decide (PyStr.rstrip_slash joined ∈ seen)); [by apply IH |].
  apply IH. intros url d Hin.
  rewrite frontier_push_items in Hin.
  apply elem_of_cons in Hin as [[= -> ->] | Hin]; [| by eapply Hqueue].
  right. apply rstrip_slash_stripped.
Qed.

Lemma pass_stripped (st : state F) (o : outcome (state F)) :
  (forall url d, (url, d) ∈ frontier_items (frontier st) -> seed_or_stripped url) ->
  (forall url, url ∈ visited st -> seed_or_stripped url) ->
  pass st o ->
  (forall url d, (url, d) ∈ frontier_items (frontier (outcome_state o)) ->
                 seed_or_stripped url)
  /\ (forall url, url ∈ visited (outcome_state o) -> seed_or_stripped url).
Proof.
  intros Hqueue Hvisited Hpass.
  assert (Hpopped : forall url d queue,
    frontier_pop (frontier st) = Some (url, d, queue) ->
    seed_or_stripped url
    /\ forall url' d', (url', d') ∈ frontier_items queue -> seed_or_stripped url').
  { intros url d queue Hpop. apply frontier_pop_items in Hpop. split.
    - apply (Hqueue url d). rewrite Hpop. apply list_elem_of_here.
    - intros url' d' Hin. apply (Hqueue url' d'). rewrite Hpop.
      by apply list_elem_of_further. }
  destruct Hpass as [ | | | ? ? ? ? ? Hpop | ? ? ? ? ? ? Hpop
                     | ? ? ? ? ? ? ? ? Hpop ? ? ? Hscan
                     | ? ? ? ? ? ? ? ? Hpop ? ? ? Hscan ];
    cbn [outcome_state frontier visited]; try done;
    destruct (Hpopped _ _ _ Hpop) as [Hurl Hrest]; try done.
  all: split;
    [ intros url' d' Hin; eapply scan_links_stripped; [exact Hrest |];
      rewrite Hscan; exact Hin
    | intros url' [->%elem_of_singleton | Hin]%elem_of_union; [done | by apply Hvisited] ].
Qed.

(** Every visited URL other than the seed has no trailing slash. *)
Lemma crawl_run_stripped (fuel : nat) (url : string) :
  url ∈ visited (outcome_state (crawl_run fuel start_url)) ->
  seed_or_stripped url.
Proof.
  intros Hin.
  assert (Hinv :
    (fun st : state F =>
       (forall url d, (url, d) ∈ frontier_items (frontier st) -> seed_or_stripped url)
       /\ (forall url, url ∈ visited st -> seed_or_stripped url))
      (outcome_state (crawl_run fuel start_url))).
  { unfold crawl_run. apply crawl_loop_invariant.
    - intros st o [Hq Hv] Hpass. exact (pass_stripped st o Hq Hv Hpass).
    - unfold initial. cbn [frontier visited]. split.
      + intros u d. rewrite frontier_items_init.
        intros [= -> ->]%list_elem_of_singleton. by left.
      + intros u Hu. by apply not_elem_of_empty in Hu. }
  destruct Hinv as [_ Hv]. by apply Hv.
Qed.

End Stripped.

(** C7.  The seed URL goes into the frontier as it is given (lines 48 and
    92), while every link is stripped of its trailing slashes (lines 68 and
    112).  With the seed "http://a/" both strategies store "http://a/" in
    [visited]; the link of the page back to itself is stripped to "http://a",
    is not recognised as visited and is fetched again. *)
Theorem seed_keeps_trailing_slash (s : strategy) :
  exists st,
    run s home 3 "http://a/" 10 3 None None None = Return st
    /\ "http://a/" ∈ visited st
    /\ PyStr.endswith_slash "http://a/" = true
    /\ trace st = [Pop "http://a/" 0; Fetch "http://a/" 0; VisitedAdd "http://a/" 0;
                   Pop "http://a" 1; Fetch "http://a" 1; VisitedAdd "http://a" 1].
Proof.
  destruct s; eexists; (split; [vm_compute; reflexivity |]);
    (split; [by vm_compute |]); split; reflexivity.
Qed.

(** In every run of either strategy, every visited URL other than the seed
    has no trailing slash. *)
Lemma visited_links_stripped (s : strategy) (w : web) (fuel : nat) (start_url : string)
    (max_pages max_depth : Z) (keywords : option (list string))
    (progress_callback : option callback) (stop_event : option (nat -> bool))
    (url : string) :
  url ∈ visited (outcome_state
    (run s w fuel start_url max_pages max_depth keywords progress_callback stop_event)) ->
  url <> start_url ->
  PyStr.endswith_slash url = false.
Proof.
  intros Hin Hne.
  destruct (run_generic s) as (F & HF & HL & Hrun).
  rewrite (proj1 (Hrun _ _ _ _ _ _ _ _)), observe_state in Hin.
  cbn [observe visited] in Hin.
  by destruct (crawl_run_stripped _ _ _ _ _ _ _ _ _ Hin).
Qed.

(** ** Failed fetches *)

Lemma run_step (s : strategy) (w : web) (start_url : string)
    (max_pages max_depth : Z) (keywords : option (list string))
    (progress_callback : option callback) (stop_event : option (nat -> bool))
    (fuel : nat) (st : state (list (string * Z))) :
  run s w fuel start_url max_pages max_depth keywords progress_callback stop_event
  = Continue st ->
  exists (F : Type) (HF : Frontier F) (HL : FrontierLaws F) (st0 : state F)
         (o : outcome (state F)),
    st = observe st0
    /\ pass w max_pages max_depth keywords progress_callback stop_event st0 o
    /\ run s w (S fuel) start_url max_pages max_depth keywords progress_callback
           stop_event = observe_outcome o
    /\ run_crawl s w (S fuel) start_url max_pages max_depth keywords progress_callback
                 stop_event
       = match o with Return st' => Some (categorized_urls st') | _ => None end.
Proof.
  destruct (run_generic s) as (F & HF & HL & Hrun).
  rewrite (proj1 (Hrun _ _ _ _ _ _ _ _)). intros Hbefore.
  apply observe_continue in Hbefore as (st0 & Hbefore & ->).
  exists F, HF, HL, st0, (crawl_run w max_pages max_depth keywords progress_callback
                                    stop_event (S fuel) start_url).
  split; [done |]. split; [by apply crawl_run_step |].
  split; [apply Hrun | apply Hrun].
Qed.

(** C5.  In every run of either strategy, when the fetch of the popped URL
    raises, whatever the error, the pass logs the URL with the error text,
    leaves [visited] (which does not hold the URL) and the result as they
    were, and goes back to the loop test with the rest of the frontier.  No
    run ends with an exception: every run returns, and returns the result
    accumulated in its last state, however much fuel is given beyond what
    the run needs. *)
Theorem fetch_error_logged_and_skipped (s : strategy) (w : web) (start_url : string)
    (max_pages max_depth : Z) (keywords : option (list string))
    (progress_callback : option callback) (stop_event : option (nat -> bool)) :
  (forall fuel st url depth msg,
     run s w fuel start_url max_pages max_depth keywords progress_callback stop_event
     = Continue st ->
     Fetch url depth ∈ new_events st (outcome_state
       (run s w (S fuel) start_url max_pages max_depth keywords progress_callback
            stop_event)) ->
     urlopen w (iteration st) url = Raise msg ->
     exists st',
       run s w (S fuel) start_url max_pages max_depth keywords progress_callback
           stop_event = Continue st'
       /\ new_events st st'
          = polled stop_event (iteration st)
            ++ [Pop url depth; Fetch url depth; LogError url msg]
            ++ progress_events max_pages progress_callback (size (visited st))
       /\ visited st' = visited st
       /\ (url ∉ visited st')
       /\ categorized_urls st' = categorized_urls st
       /\ frontier st ≡ₚ (url, depth) :: frontier st')
  /\ (forall fuel st,
        run s w fuel start_url max_pages max_depth keywords progress_callback stop_event
        <> Uncaught st)
  /\ (exists fuel st,
        forall fuel', (fuel <= fuel')%nat ->
          run s w fuel' start_url max_pages max_depth keywords progress_callback
              stop_event = Return st
          /\ run_crawl s w fuel' start_url max_pages max_depth keywords
                       progress_callback stop_event = Some (categorized_urls st)).
Proof.
  split; [| split].
  - intros fuel st url depth msg Hbefore Hin Hraise.
    destruct (run_step _ _ _ _ _ _ _ _ _ _ Hbefore)
      as (F & HF & HL & st0 & o & -> & Hpass & Hafter & _).
    rewrite Hafter, observe_state in *.
    destruct (pass_fetch_fails _ _ _ _ _ _ _ _ url depth msg Hpass Hin Hraise)
      as (Ho & Hnew & Hvis & Hnot & Hcat & Hperm).
    exists (observe (outcome_state o)). split; [by rewrite Ho at 1 |]. done.
  - intros fuel st. destruct (run_generic s) as (F & HF & HL & Hrun).
    rewrite (proj1 (Hrun _ _ _ _ _ _ _ _)).
    pose proof (crawl_run_caught w max_pages max_depth keywords progress_callback
                  stop_event fuel start_url) as Hcaught.
    destruct (crawl_run _ _ _ _ _ _ _ _) as [st0 | st0 | st0]; try done.
    by destruct (Hcaught st0).
  - destruct (run_generic s) as (F & HF & HL & Hrun).
    destruct (crawl_terminates w max_pages max_depth keywords progress_callback
                stop_event start_url) as (fuel & st & Hret).
    exists fuel, (observe st). intros fuel' Hle.
    destruct (Hret fuel' Hle) as [Hret' Hval].
    rewrite (proj1 (Hrun _ _ _ _ _ _ _ _)), (proj2 (Hrun _ _ _ _ _ _ _ _)).
    by rewrite Hret', Hval.
Qed.

Lemma fetch_error_logged_and_skipped_witness :
  exists st',
    run DepthFirst broken 2 "http://a" 10 3 None (Some Callback) None = Continue st'
    /\ new_events broken_after_a st'
       = polled None (iteration broken_after_a)
         ++ [Pop "http://c" 1; Fetch "http://c" 1;
             LogError "http://c" "<urlopen error timed out>"]
         ++ progress_events 10 (Some Callback) (size (visited broken_after_a))
    /\ visited st' = visited broken_after_a
    /\ ("http://c" ∉ visited st')
    /\ categorized_urls st' = categorized_urls broken_after_a
    /\ frontier broken_after_a ≡ₚ ("http://c", 1) :: frontier st'.
Proof.
  apply (proj1 (fetch_error_logged_and_skipped DepthFirst broken "http://a" 10 3 None
                  (Some Callback) None)
           1%nat broken_after_a "http://c" 1 "<urlopen error timed out>").
  - vm_compute. reflexivity.
  - vm_compute. apply list_elem_of_further, list_elem_of_here.
  - reflexivity.
Defined.

(** ** Cancellation *)

Lemma pass_exit_inv {F : Type} `{Frontier F} (w : web) (max_pages max_depth : Z)
    (keywords : option (list string)) (progress_callback : option callback)
    (stop_event : option (nat -> bool)) (st : state F) (o : outcome (state F)) :
  loop_test max_pages st = false ->
  pass w max_pages max_depth keywords progress_callback stop_event st o ->
  o = Return st.
Proof. intros Htest Hpass. destruct Hpass; congruence. Qed.

Lemma loop_test_observe {F : Type} `{FrontierLaws F} (max_pages : Z) (st : state F) :
  loop_test max_pages st = true
  <-> frontier (observe st) <> [] /\ Z.of_nat (size (visited st)) < max_pages.
Proof.
  unfold loop_test. rewrite andb_true_iff, Z.ltb_lt, frontier_nonempty_items.
  cbn [observe frontier]. destruct (frontier_items (frontier st)); simpl; naive_solver.
Qed.

(** C6.  In every run of either strategy with a stop event, a pass that
    finds the loop test true polls the event exactly once, before the pop.
    When the poll finds the event set, the run ends there: nothing is popped,
    fetched or changed, and the result accumulated so far is returned.
    Otherwise the pop follows the poll.  When the loop test is false the run
    returns without a poll. *)
Theorem stop_event_polled_before_each_pop (s : strategy) (w : web) (start_url : string)
    (max_pages max_depth : Z) (keywords : option (list string))
    (progress_callback : option callback) (is_set : nat -> bool)
    (fuel : nat) (st : state (list (string * Z))) :
  run s w fuel start_url max_pages max_depth keywords progress_callback (Some is_set)
  = Continue st ->
  (frontier st = [] \/ max_pages <= Z.of_nat (size (visited st)) ->
   run s w (S fuel) start_url max_pages max_depth keywords progress_callback
       (Some is_set) = Return st)
  /\ (frontier st <> [] -> Z.of_nat (size (visited st)) < max_pages ->
      is_set (iteration st) = true ->
      run s w (S fuel) start_url max_pages max_depth keywords progress_callback
          (Some is_set)
      = Return (State (frontier st) (visited st) (categorized_urls st)
                      (trace st ++ [IsSet true]) (iteration st))
      /\ run_crawl s w (S fuel) start_url max_pages max_depth keywords
                   progress_callback (Some is_set)
         = Some (categorized_urls st))
  /\ (frontier st <> [] -> Z.of_nat (size (visited st)) < max_pages ->
      is_set (iteration st) = false ->
      exists st' url depth rest,
        run s w (S fuel) start_url max_pages max_depth keywords progress_callback
            (Some is_set) = Continue st'
        /\ new_events st st' = IsSet false :: Pop url depth :: rest
        /\ forall b, IsSet b ∉ rest).
Proof.
  intros Hbefore.
  destruct (run_step _ _ _ _ _ _ _ _ _ _ Hbefore)
    as (F & HF & HL & st0 & o & -> & Hpass & Hafter & Hvalue).
  rewrite Hafter, Hvalue.
  assert (Hentered : frontier (observe st0) <> [] ->
                     Z.of_nat (size (visited (observe st0))) < max_pages ->
                     loop_test max_pages st0 = true).
  { intros Hne Hlt. by apply loop_test_observe. }
  split; [| split].
  - intros Hexit.
    destruct (loop_test max_pages st0) eqn:Htest.
    + apply loop_test_observe in Htest as [Hne Hlt].
      cbn [observe visited] in Hexit. destruct Hexit; [done | lia].
    + by rewrite (pass_exit_inv _ _ _ _ _ _ _ _ Htest Hpass).
  - intros Hne Hlt Hset.
    destruct (pass_poll _ _ _ _ _ _ _ _ is_set Hpass eq_refl (Hentered Hne Hlt))
      as [[_ ->] | [Hfalse _]]; [done |].
    cbn [observe iteration] in Hset. congruence.
  - intros Hne Hlt Hset.
    destruct (pass_poll _ _ _ _ _ _ _ _ is_set Hpass eq_refl (Hentered Hne Hlt))
      as [[Htrue _] | (_ & url & depth & rest & Ho & Hnew & Hrest)].
    { cbn [observe iteration] in Hset. congruence. }
    exists (observe (outcome_state o)), url, depth, rest.
    split; [by rewrite Ho at 1 |]. done.
Qed.

Lemma stop_event_polled_before_each_pop_witness :
  run BestFirst chain 2 "http://a" 10 1 None (Some Callback) (Some set_after_first)
  = Return (State (frontier chain_after_a) (visited chain_after_a)
                  (categorized_urls chain_after_a)
                  (trace chain_after_a ++ [IsSet true]) (iteration chain_after_a))
  /\ run_crawl BestFirst chain 2 "http://a" 10 1 None (Some Callback)
               (Some set_after_first)
     = Some (categorized_urls chain_after_a).
Proof.
  apply (stop_event_polled_before_each_pop BestFirst chain "http://a" 10 1 None
           (Some Callback) set_after_first 1%nat chain_after_a).
  - vm_compute. reflexivity.
  - discriminate.
  - vm_compute. reflexivity.
  - reflexivity.
Defined.

(** ** Progress reports *)

(** C9, as stated, fails.  In the depth-first run on the chain with
    [max_depth = 1] and a progress callback, the third pass pops C at depth
    2 and drops it; this pass makes no call to the callback. *)
Lemma no_progress_for_dropped_item :
  run DepthFirst chain 2 "http://a" 10 1 None (Some Callback) None = Continue chain_dfs_2
  /\ run DepthFirst chain 3 "http://a" 10 1 None (Some Callback) None
     = Continue chain_dfs_3
  /\ new_events chain_dfs_2 chain_dfs_3 = [Pop "http://c" 2]
  /\ ~ (exists n m, Progress n m ∈ new_events chain_dfs_2 chain_dfs_3).
Proof.
  split; [vm_compute; reflexivity |]. split; [vm_compute; reflexivity |].
  split; [reflexivity |]. intros (n & m & Hin).
  change (new_events chain_dfs_2 chain_dfs_3) with [Pop "http://c" 2] in Hin.
  in_events Hin.
Qed.

(** C9, amended.  In every run of either strategy with a progress callback,
    a pass that fetches (the popped URL is not visited and not too deep) ends
    with one call of the callback on the size of [visited] and [max_pages],
    whether the fetch succeeded or not; a pass that drops the popped item
    makes no call of the callback. *)
Theorem progress_after_each_fetch_only (s : strategy) (w : web) (start_url : string)
    (max_pages max_depth : Z) (keywords : option (list string))
    (cb : callback) (stop_event : option (nat -> bool))
    (fuel : nat) (st st' : state (list (string * Z))) (url : string) (depth : Z) :
  run s w fuel start_url max_pages max_depth keywords (Some cb) stop_event
  = Continue st ->
  run s w (S fuel) start_url max_pages max_depth keywords (Some cb) stop_event
  = Continue st' ->
  Pop url depth ∈ new_events st st' ->
  (url ∈ visited st \/ max_depth < depth ->
   forall n m, (Progress n m ∉ new_events st st'))
  /\ (url ∉ visited st -> depth <= max_depth ->
      exists body,
        Fetch url depth ∈ body
        /\ (forall n m, Progress n m ∉ body)
        /\ new_events st st'
           = body ++ [Progress (Z.of_nat (size (visited st'))) max_pages]).
Proof.
  intros Hbefore Hafter Hin.
  destruct (run_step _ _ _ _ _ _ _ _ _ _ Hbefore)
    as (F & HF & HL & st0 & o & -> & Hpass & Hafter' & _).
  rewrite Hafter' in Hafter.
  apply observe_continue in Hafter as (st0' & -> & ->).
  exact (pass_progress _ _ _ _ _ _ _ _ _ _ Hpass Hin).
Qed.

Lemma progress_after_each_fetch_only_witness :
  exists body,
    Fetch "http://b" 1 ∈ body
    /\ (forall n m, Progress n m ∉ body)
    /\ new_events chain_dfs_1 chain_dfs_2
       = body ++ [Progress (Z.of_nat (size (visited chain_dfs_2))) 10].
Proof.
  apply (progress_after_each_fetch_only DepthFirst chain "http://a" 10 1 None
           Callback None 1%nat chain_dfs_1 chain_dfs_2 "http://b" 1).
  - vm_compute. reflexivity.
  - vm_compute. reflexivity.
  - vm_compute. apply list_elem_of_here.
  - by vm_compute.
  - lia.
Defined.

(** ** Configurations that the specification calls invalid *)

Section Unchecked.

Context {F : Type} `{FrontierLaws F}.
Variable w : web.
Variables max_pages max_depth : Z.
Variable keywords : option (list string).
Variable progress_callback : option callback.
Variable stop_event : option (nat -> bool).

Local Abbreviation crawl_iter := (crawl_iter w max_pages max_depth keywords progress_callback stop_event).
Local Abbreviation crawl_run := (crawl_run w max_pages max_depth keywords progress_callback stop_event).
Local Abbreviation pass := (pass w max_pages max_depth keywords progress_callback stop_event).

(** With a page limit of zero or less the loop test fails at once. *)
Lemma crawl_run_no_pages (start_url : string) :
  max_pages <= 0 -> crawl_run 1 start_url = Return (initial start_url).
Proof.
  intros Hle. unfold crawl_run. simpl.
  pose proof (crawl_iter_pass w max_pages max_depth keywords progress_callback
                stop_event (initial start_url)) as Hpass.
  assert (Htest : loop_test max_pages (initial (F := F) start_url) = false).
  { unfold loop_test, initial. cbn [visited]. rewrite size_empty.
    apply andb_false_iff. right. apply Z.ltb_ge. lia. }
  by rewrite (pass_exit_inv _ _ _ _ _ _ _ _ Htest Hpass).
Qed.

(** The first pass on a seed that cannot be fetched, and the return that
    follows it. *)
Lemma crawl_run_seed_error (start_url msg : string) :
  0 < max_pages -> 0 <= max_depth -> stop_requested stop_event 0 = false ->
  urlopen w 0 start_url = Raise msg ->
  exists queue,
    frontier_items queue = []
    /\ crawl_run 2 start_url
       = Return (State queue ∅ ∅
                  (polled stop_event 0
                     ++ [Pop start_url 0; Fetch start_url 0; LogError start_url msg]
                     ++ progress_events max_pages progress_callback 0)
                  1).
Proof.
  intros Hpages Hdepth Hstop Hraise. unfold crawl_run.
  set (st0 := initial (F := F) start_url).
  assert (Htest : loop_test max_pages st0 = true).
  { unfold loop_test, st0, initial. cbn [visited frontier].
    rewrite size_empty, frontier_nonempty_items, frontier_items_init.
    apply andb_true_iff. split; [done | apply Z.ltb_lt; lia]. }
  pose proof (crawl_iter_pass w max_pages max_depth keywords progress_callback
                stop_event st0) as Hpass.
  assert (Hfirst : exists queue,
    frontier_items queue = []
    /\ crawl_iter st0
       = Continue (State queue ∅ ∅
                    (polled stop_event 0
                       ++ [Pop start_url 0; Fetch start_url 0; LogError start_url msg]
                       ++ progress_events max_pages progress_callback 0)
                    1)).
  { assert (Hpopped : forall url depth queue,
      frontier_pop (frontier st0) = Some (url, depth, queue) ->
      url = start_url /\ depth = 0 /\ frontier_items queue = []).
    { intros url depth queue Hpop. apply frontier_pop_items in Hpop.
      unfold st0, initial in Hpop. cbn [frontier] in Hpop.
      rewrite frontier_items_init in Hpop.
      apply Permutation_singleton_l in Hpop. by injection Hpop as <- <- <-. }
    destruct (crawl_iter st0) as [st1 | st1 | st1] eqn:Hiter;
      [| | by apply pass_caught in Hpass].
    - inversion Hpass as [ | | | url depth queue ? ? Hpop Hdrop
                         | url depth queue msg' ? ? Hpop ? ? Hopen
                         | url depth queue page ? ? ? ? Hpop ? ? Hopen
                         | url depth queue page ? ? ? ? Hpop ? ? Hopen ];
        subst; destruct (Hpopped _ _ _ Hpop) as (-> & -> & Hempty).
      + destruct Hdrop as [Hin | ?]; [by apply not_elem_of_empty in Hin | lia].
      + assert (msg' = msg) as -> by (cbn [iteration st0 initial] in Hopen; congruence).
        exists queue. split; [done |]. unfold st0, initial.
        cbn [visited categorized_urls trace iteration]. reflexivity.
      + cbn [iteration st0 initial] in Hopen. congruence.
      + cbn [iteration st0 initial] in Hopen. congruence.
    - inversion Hpass as [Hf | Ht Hs | | | | | ]; [congruence |].
      cbn [iteration st0 initial] in Hs. congruence. }
  destruct Hfirst as (queue & Hempty & Hfirst).
  exists queue. split; [done |].
  change (crawl_loop w max_pages max_depth keywords progress_callback stop_event 2 st0)
    with (match crawl_iter st0 with
          | Continue st' =>
              match crawl_iter st' with
              | Continue st'' => Continue st''
              | o => o
              end
          | o => o
          end).
  rewrite Hfirst.
  match goal with
  | |- context [crawl_iter ?st1] =>
      assert (Hexit : loop_test max_pages st1 = false)
        by (unfold loop_test; cbn [frontier];
            by rewrite frontier_nonempty_items, Hempty);
      by rewrite (pass_exit_inv _ _ _ _ _ _ _ _ Hexit
                    (crawl_iter_pass w max_pages max_depth keywords progress_callback
                       stop_event st1))
  end.
Qed.

End Unchecked.

(** C10, as stated, fails.  Neither function checks its arguments.  With
    [max_pages = 0] or [max_pages = -5] the run returns the empty result like
    any other run.  With the empty seed URL and [max_pages = 5] the loop
    starts, pops the seed and calls [urlopen] on it; the error of [urlopen]
    is logged and the run returns the empty result. *)
Lemma invalid_configuration_not_rejected :
  run_crawl BestFirst chain 1 "http://a" 0 3 None None None = Some ∅
  /\ run_crawl DepthFirst chain 1 "http://a" (-5) 3 None None None = Some ∅
  /\ exists st,
       run BestFirst reject_empty 2 "" 5 3 None None None = Return st
       /\ trace st = [Pop "" 0; Fetch "" 0; LogError "" "unknown url type: ''"]
       /\ Fetch "" 0 ∈ trace st
       /\ run_crawl BestFirst reject_empty 2 "" 5 3 None None None = Some ∅.
Proof.
  split; [by vm_compute |]. split; [by vm_compute |].
  eexists. split; [vm_compute; reflexivity |]. split; [reflexivity |].
  split; [apply list_elem_of_further, list_elem_of_here | by vm_compute].
Qed.

(** C10, amended.  The core makes no check of its configuration and reports
    no configuration error, in either strategy.  With [max_pages <= 0] the
    loop body never runs: the run makes no call and returns the empty result.
    With the empty seed URL, a positive page limit, a depth limit that is not
    negative and no stop request, the run pops the seed and tries to fetch
    it; when the fetch raises, the error is logged and the run returns the
    empty result. *)
Theorem no_configuration_check (s : strategy) (w : web) (start_url : string)
    (max_pages max_depth : Z) (keywords : option (list string))
    (progress_callback : option callback) (stop_event : option (nat -> bool)) :
  (max_pages <= 0 ->
   run s w 1 start_url max_pages max_depth keywords progress_callback stop_event
   = Return (State [(start_url, 0)] ∅ ∅ [] 0)
   /\ run_crawl s w 1 start_url max_pages max_depth keywords progress_callback
                stop_event = Some ∅)
  /\ (forall msg,
        0 < max_pages -> 0 <= max_depth -> stop_requested stop_event 0 = false ->
        urlopen w 0 "" = Raise msg ->
        run s w 2 "" max_pages max_depth keywords progress_callback stop_event
        = Return (State [] ∅ ∅
                    (polled stop_event 0
                       ++ [Pop "" 0; Fetch "" 0; LogError "" msg]
                       ++ progress_events max_pages progress_callback 0)
                    1)
        /\ run_crawl s w 2 "" max_pages max_depth keywords progress_callback
                     stop_event = Some ∅).
Proof.
  destruct (run_generic s) as (F & HF & HL & Hrun). split.
  - intros Hle.
    rewrite (proj1 (Hrun _ _ _ _ _ _ _ _)), (proj2 (Hrun _ _ _ _ _ _ _ _)).
    unfold crawl. rewrite (crawl_run_no_pages _ _ _ _ _ _ _ Hle).
    unfold initial, observe_outcome, observe.
    cbn [frontier visited categorized_urls trace iteration].
    by rewrite frontier_items_init.
  - intros msg Hpages Hdepth Hstop Hraise.
    rewrite (proj1 (Hrun _ _ _ _ _ _ _ _)), (proj2 (Hrun _ _ _ _ _ _ _ _)).
    destruct (crawl_run_seed_error w max_pages max_depth keywords progress_callback
                stop_event "" msg Hpages Hdepth Hstop Hraise) as (queue & Hempty & Hret).
    unfold crawl. rewrite Hret. unfold observe_outcome, observe.
    cbn [frontier visited categorized_urls trace iteration].
    by rewrite Hempty.
Qed.

Lemma no_configuration_check_witness :
  run DepthFirst reject_empty 2 "" 5 3 None (Some Callback) (Some (fun _ => false))
  = Return (State [] ∅ ∅
              (polled (Some (fun _ => false)) 0
                 ++ [Pop "" 0; Fetch "" 0; LogError "" "unknown url type: ''"]
                 ++ progress_events 5 (Some Callback) 0)
              1)
  /\ run_crawl DepthFirst reject_empty 2 "" 5 3 None (Some Callback)
               (Some (fun _ => false)) = Some ∅.
Proof.
  apply (proj2 (no_configuration_check DepthFirst reject_empty "" 5 3 None
                  (Some Callback) (Some (fun _ => false)))
           "unknown url type: ''").
  - lia.
  - lia.
  - reflexivity.
  - reflexivity.
Defined.

(** * Further properties of the two crawl functions *)

(** The cases of a pass, with the names of the constructor arguments. *)
Ltac each_pass Hpass :=
  destruct Hpass as
    [ Htest
    | Htest Hstop
    | Htest Hstop Hpop
    | url depth queue Htest Hstop Hpop Hdrop
    | url depth queue msg Htest Hstop Hpop Hnot Hle Hopen
    | url depth queue page queue' categories Htest Hstop Hpop Hnot Hle Hopen Hscan
    | url depth queue page queue' msg Htest Hstop Hpop Hnot Hle Hopen Hscan ];
  cbn [outcome_state frontier visited categorized_urls trace iteration].

Section Invariants.

Context {F : Type} `{FrontierLaws F}.
Variable w : web.
Variables max_pages max_depth : Z.
Variable keywords : option (list string).
Variable progress_callback : option callback.
Variable stop_event : option (nat -> bool).

Local Abbreviation crawl_run := (crawl_run w max_pages max_depth keywords progress_callback stop_event).
Local Abbreviation crawl_loop := (crawl_loop w max_pages max_depth keywords progress_callback stop_event).
Local Abbreviation crawl_iter := (crawl_iter w max_pages max_depth keywords progress_callback stop_event).
Local Abbreviation pass := (pass w max_pages max_depth keywords progress_callback stop_event).
Local Abbreviation scan_links := (scan_links w keywords).

(** *** The arguments of the progress callback *)

Lemma pass_progress_range (st : state F) (o : outcome (state F)) :
  Forall (progress_in_range max_pages) (trace st) -> pass st o ->
  Forall (progress_in_range max_pages) (trace (outcome_state o)).
Proof.
  intros Hall Hpass.
  destruct Hpass as [ | | | | ? ? ? ? Htest | ? ? ? ? ? ? Htest ? ? Hnew
                     | ? ? ? ? ? ? Htest ? ? Hnew ];
    cbn [outcome_state trace]; try done;
    try (apply andb_true_iff in Htest as [_ Hlt%Z.ltb_lt]);
    try rewrite (size_visited_add _ _ Hnew);
    unfold polled, progress_events;
    destruct stop_event, progress_callback;
    rewrite ?Forall_app; repeat split; try done;
    repeat constructor; simpl; lia.
Qed.

Lemma crawl_run_progress_range (fuel : nat) (start_url : string) :
  Forall (progress_in_range max_pages) (trace (outcome_state (crawl_run fuel start_url))).
Proof.
  unfold crawl_run.
  apply (crawl_loop_invariant w max_pages max_depth keywords progress_callback
           stop_event (fun st => Forall (progress_in_range max_pages) (trace st))).
  - apply pass_progress_range.
  - constructor.
Qed.

(** *** The links pushed by the loop over the anchors *)

Lemma elem_of_discovered_links (current_url : string) (seen : gset string)
    (tags : list tag) (link : string) :
  link ∈ discovered_links w current_url seen tags ->
  exists t joined,
    t ∈ tags /\ urljoin w current_url (href t) = Ok joined
    /\ link = PyStr.rstrip_slash joined /\ link ∉ seen.
Proof.
  induction tags as [| t tags IH]; simpl; [by intros ?%elem_of_nil |].
  destruct (urljoin w current_url (href t)) as [joined | msg] eqn:Hjoin;
    [| by intros ?%elem_of_nil].
  assert (Hrest : link ∈ discovered_links w current_url seen tags ->
                  exists t' joined',
                    t' ∈ t :: tags /\ urljoin w current_url (href t') = Ok joined'
                    /\ link = PyStr.rstrip_slash joined' /\ link ∉ seen).
  { intros (t' & joined' & Hin & Hrest)%IH. exists t', joined'.
    split; [by apply list_elem_of_further | done]. }
  destruct (decide (PyStr.rstrip_slash joined ∈ seen)) as [Hseen | Hnew]; [done |].
  intros [-> | Hin]%elem_of_cons; [| by apply Hrest].
  exists t, joined. split; [apply list_elem_of_here | done].
Qed.

Lemma scan_links_items (current_url : string) (depth : Z) (page_content : string)
    (seen : gset string) (tags : list tag) (queue : F)
    (categories : gmap string (list string)) :
  frontier_items
    (fst (scan_links current_url depth page_content seen tags queue categories))
  ≡ₚ ((fun link => (link, depth + 1)) <$> discovered_links w current_url seen tags)
     ++ frontier_items queue.
Proof.
  revert queue categories.
  induction tags as [| t tags IH]; intros queue categories; simpl; [done |].
  destruct (urljoin w current_url (href t)) as [joined | msg]; simpl; [| done].
  destruct (decide (PyStr.rstrip_slash joined ∈ seen)); [apply IH |].
  rewrite IH, frontier_push_items. simpl. by rewrite Permutation_middle.
Qed.

(** The items of the frontier after a pass are items of the frontier before
    it or links discovered on the page of the popped item, one level
    deeper. *)
Lemma pass_items (st : state F) (o : outcome (state F)) (link : string) (d : Z) :
  pass st o ->
  (link, d) ∈ frontier_items (frontier (outcome_state o)) ->
  (link, d) ∈ frontier_items (frontier st)
  \/ exists url depth page,
       (url, depth) ∈ frontier_items (frontier st)
       /\ depth <= max_depth
       /\ urlopen w (iteration st) url = Ok page
       /\ visited (outcome_state o) = {[url]} ∪ visited st
       /\ d = depth + 1
       /\ link ∈ discovered_links w url ({[url]} ∪ visited st) (find_all_a page).
Proof.
  intros Hpass Hin.
  assert (Hpopped : forall url depth queue,
    frontier_pop (frontier st) = Some (url, depth, queue) ->
    (url, depth) ∈ frontier_items (frontier st)
    /\ forall x, x ∈ frontier_items queue -> x ∈ frontier_items (frontier st)).
  { intros url depth queue Hpop%frontier_pop_items.
    split; [| intros x Hx]; rewrite Hpop;
      [apply list_elem_of_here | by apply list_elem_of_further]. }
  each_pass Hpass; cbn [outcome_state frontier visited] in Hin; try by left.
  1-2: left; by apply (Hpopped _ _ _ Hpop).
  all: destruct (Hpopped _ _ _ Hpop) as [Hitem Hrest];
    apply (f_equal fst) in Hscan; cbn [fst] in Hscan; rewrite <- Hscan in Hin;
    rewrite scan_links_items in Hin;
    apply elem_of_app in Hin as [Hin | Hin]; [| left; by apply Hrest];
    apply list_elem_of_fmap in Hin as (l & [= -> ->] & Hin);
    right; exists url, depth, page; done.
Qed.

(** What a pass does to [visited]: nothing, or it adds the URL of the popped
    item, which was fetched in this pass. *)
Lemma pass_visited (st : state F) (o : outcome (state F)) :
  pass st o ->
  (iteration st <= iteration (outcome_state o))%nat
  /\ (visited (outcome_state o) = visited st
      \/ exists url depth page,
           (url, depth) ∈ frontier_items (frontier st)
           /\ (url ∉ visited st) /\ depth <= max_depth
           /\ urlopen w (iteration st) url = Ok page
           /\ visited (outcome_state o) = {[url]} ∪ visited st
           /\ iteration (outcome_state o) = S (iteration st)).
Proof.
  intros Hpass.
  assert (Hpopped : forall url depth queue,
    frontier_pop (frontier st) = Some (url, depth, queue) ->
    (url, depth) ∈ frontier_items (frontier st)).
  { intros url depth queue Hpop%frontier_pop_items. rewrite Hpop.
    apply list_elem_of_here. }
  each_pass Hpass; (split; [lia |]); try by left.
  all: right; exists url, depth, page; repeat split; try done; by eapply Hpopped.
Qed.

Lemma pass_visited_mono (st : state F) (o : outcome (state F)) :
  pass st o -> visited st ⊆ visited (outcome_state o).
Proof.
  intros [_ [-> | (url & depth & page & _ & _ & _ & _ & -> & _)]]%pass_visited;
    set_solver.
Qed.

(** The events that a pass adds to the trace: the popped item, if any, was
    in the frontier. *)
Lemma pass_pops (st : state F) (o : outcome (state F)) (u : string) (d : Z) :
  pass st o ->
  Pop u d ∈ trace (outcome_state o) ->
  Pop u d ∈ trace st \/ (u, d) ∈ frontier_items (frontier st).
Proof.
  intros Hpass Hin.
  assert (Hpopped : forall url depth queue,
    frontier_pop (frontier st) = Some (url, depth, queue) ->
    (url, depth) ∈ frontier_items (frontier st)).
  { intros url' depth' queue Hpop%frontier_pop_items. rewrite Hpop.
    apply list_elem_of_here. }
  each_pass Hpass; cbn [outcome_state trace] in Hin; try by left.
  all: apply elem_of_app in Hin as [Hin | Hin]; [by left |].
  all: unfold polled, progress_events in Hin;
    destruct stop_event, progress_callback; simpl in Hin; in_events Hin.
  all: right; by eapply Hpopped.
Qed.

(** *** Depths *)

Lemma pass_depths (st : state F) (o : outcome (state F)) :
  (forall url d, (url, d) ∈ frontier_items (frontier st) ->
                 0 <= d <= Z.max 0 (max_depth + 1)) ->
  pass st o ->
  forall url d, (url, d) ∈ frontier_items (frontier (outcome_state o)) ->
                0 <= d <= Z.max 0 (max_depth + 1).
Proof.
  intros Hitems Hpass link d Hin.
  destruct (pass_items _ _ _ _ Hpass Hin)
    as [Hold | (url & depth & page & Hitem & Hle & _ & _ & -> & _)];
    [by eapply Hitems |].
  apply Hitems in Hitem. lia.
Qed.

Lemma crawl_run_depths (fuel : nat) (start_url : string) :
  (forall url d,
     (url, d) ∈ frontier_items (frontier (outcome_state (crawl_run fuel start_url))) ->
     0 <= d <= Z.max 0 (max_depth + 1))
  /\ (forall url d,
        Pop url d ∈ trace (outcome_state (crawl_run fuel start_url)) ->
        0 <= d <= Z.max 0 (max_depth + 1)).
Proof.
  assert (Hinv :
    (fun st : state F =>
       (forall url d, (url, d) ∈ frontier_items (frontier st) ->
                      0 <= d <= Z.max 0 (max_depth + 1))
       /\ (forall url d, Pop url d ∈ trace st -> 0 <= d <= Z.max 0 (max_depth + 1)))
      (outcome_state (crawl_run fuel start_url))).
  { unfold crawl_run. apply crawl_loop_invariant.
    - intros st o [Hitems Hpops] Hpass. split.
      + by apply (pass_depths st o).
      + intros url d Hin.
        destruct (pass_pops _ _ _ _ Hpass Hin); [by eapply Hpops | by eapply Hitems].
    - unfold initial. cbn [frontier trace]. split.
      + intros url d. rewrite frontier_items_init.
        intros [= -> ->]%list_elem_of_singleton. lia.
      + intros url d Hin. by apply elem_of_nil in Hin. }
  exact Hinv.
Qed.

(** *** A depth limit below zero *)

Lemma pass_idle (start_url : string) (st : state F) (o : outcome (state F)) :
  max_depth < 0 ->
  (forall url d, (url, d) ∈ frontier_items (frontier st) -> url = start_url /\ d = 0) ->
  visited st = ∅ -> categorized_urls st = ∅ ->
  Forall (poll_or_seed_pop start_url) (trace st) ->
  pass st o ->
  (forall url d, (url, d) ∈ frontier_items (frontier (outcome_state o)) ->
                 url = start_url /\ d = 0)
  /\ visited (outcome_state o) = ∅
  /\ categorized_urls (outcome_state o) = ∅
  /\ Forall (poll_or_seed_pop start_url) (trace (outcome_state o)).
Proof.
  intros Hneg Hitems Hvis Hcat Htrace Hpass.
  assert (Hpopped : forall url depth queue,
    frontier_pop (frontier st) = Some (url, depth, queue) ->
    (url = start_url /\ depth = 0)
    /\ forall x, x ∈ frontier_items queue -> x ∈ frontier_items (frontier st)).
  { intros url depth queue Hpop%frontier_pop_items.
    split; [apply Hitems | intros x Hx]; rewrite Hpop;
      [apply list_elem_of_here | by apply list_elem_of_further]. }
  assert (Hpolled : Forall (poll_or_seed_pop start_url)
                           (polled stop_event (iteration st))).
  { unfold polled. destruct stop_event; by repeat constructor. }
  each_pass Hpass; try done.
  - split; [done | split; [done | split; [done |]]].
    apply Forall_app. split; [done |]. by repeat constructor.
  - split; [done | split; [done | split; [done |]]].
    apply Forall_app. by split.
  - destruct (Hpopped _ _ _ Hpop) as [[-> ->] Hrest].
    split; [| split; [done | split; [done |]]].
    + intros u d Hin. by eapply Hitems, Hrest.
    + rewrite !Forall_app. split; [done |]. split; [done |]. by repeat constructor.
  - destruct (Hpopped _ _ _ Hpop) as [[-> ->] _]. lia.
  - destruct (Hpopped _ _ _ Hpop) as [[-> ->] _]. lia.
  - destruct (Hpopped _ _ _ Hpop) as [[-> ->] _]. lia.
Qed.

Lemma crawl_run_idle (fuel : nat) (start_url : string) :
  max_depth < 0 ->
  visited (outcome_state (crawl_run fuel start_url)) = ∅
  /\ categorized_urls (outcome_state (crawl_run fuel start_url)) = ∅
  /\ Forall (poll_or_seed_pop start_url)
            (trace (outcome_state (crawl_run fuel start_url))).
Proof.
  intros Hneg.
  assert (Hinv :
    (fun st : state F =>
       (forall url d, (url, d) ∈ frontier_items (frontier st) ->
                      url = start_url /\ d = 0)
       /\ visited st = ∅ /\ categorized_urls st = ∅
       /\ Forall (poll_or_seed_pop start_url) (trace st))
      (outcome_state (crawl_run fuel start_url))).
  { unfold crawl_run. apply crawl_loop_invariant.
    - intros st o (Hitems & Hvis & Hcat & Htrace) Hpass.
      by apply (pass_idle start_url st o).
    - unfold initial. cbn [frontier visited categorized_urls trace].
      split; [| by split].
      intros url d. rewrite frontier_items_init.
      by intros [= -> ->]%list_elem_of_singleton. }
  by destruct Hinv as (_ & ? & ? & ?).
Qed.

(** *** Where the visited URLs come from *)

Lemma crawl_run_fetched (fuel : nat) (start_url url : string) :
  url ∈ visited (outcome_state (crawl_run fuel start_url)) ->
  exists n page,
    (n < iteration (outcome_state (crawl_run fuel start_url)))%nat
    /\ urlopen w n url = Ok page.
Proof.
  revert url.
  assert (Hinv :
    (fun st : state F =>
       forall url, url ∈ visited st ->
                   exists n page, (n < iteration st)%nat /\ urlopen w n url = Ok page)
      (outcome_state (crawl_run fuel start_url))).
  { unfold crawl_run. apply crawl_loop_invariant.
    - intros st o Hinv Hpass url Hin.
      destruct (pass_visited _ _ Hpass)
        as [Hiter [Hsame | (u & depth & page & _ & _ & _ & Hopen & Hvis & Hnext)]].
      + rewrite Hsame in Hin. destruct (Hinv url Hin) as (n & page & Hn & Hopen).
        exists n, page. split; [lia | done].
      + rewrite Hvis in Hin. apply elem_of_union in Hin as [->%elem_of_singleton | Hin].
        * exists (iteration st), page. split; [lia | done].
        * destruct (Hinv url Hin) as (n & page' & Hn & Hopen').
          exists n, page'. split; [lia | done].
    - intros url Hin. by apply not_elem_of_empty in Hin. }
  exact Hinv.
Qed.

Lemma linked_from_mono (seen seen' : gset string) (url : string) :
  seen ⊆ seen' -> linked_from w seen url -> linked_from w seen' url.
Proof.
  intros Hsub (parent & n & page & t & joined & Hin & Hrest).
  exists parent, n, page, t, joined. split; [by apply Hsub | done].
Qed.

Lemma pass_linked (start_url : string) (st : state F) (o : outcome (state F)) :
  (forall url d, (url, d) ∈ frontier_items (frontier st) ->
                 url = start_url \/ linked_from w (visited st) url) ->
  (forall url, url ∈ visited st -> url = start_url \/ linked_from w (visited st) url) ->
  pass st o ->
  (forall url d, (url, d) ∈ frontier_items (frontier (outcome_state o)) ->
                 url = start_url \/ linked_from w (visited (outcome_state o)) url)
  /\ (forall url, url ∈ visited (outcome_state o) ->
                  url = start_url \/ linked_from w (visited (outcome_state o)) url).
Proof.
  intros Hitems Hvisited Hpass.
  pose proof (pass_visited_mono _ _ Hpass) as Hmono.
  split.
  - intros link d Hin.
    destruct (pass_items _ _ _ _ Hpass Hin)
      as [Hold | (url & depth & page & _ & _ & Hopen & Hvis & _ & Hlink)].
    + destruct (Hitems _ _ Hold) as [-> | Hfrom]; [by left | right].
      by apply (linked_from_mono (visited st)).
    + right.
      apply elem_of_discovered_links in Hlink as (t & joined & Ht & Hjoin & -> & _).
      exists url, (iteration st), page, t, joined.
      split; [rewrite Hvis; set_solver | done].
  - intros url Hin.
    destruct (pass_visited _ _ Hpass)
      as [_ [Hsame | (u & depth & page & Hitem & _ & _ & _ & Hvis & _)]].
    + rewrite Hsame in Hin |- *. by apply Hvisited.
    + assert (Hold : url = start_url \/ linked_from w (visited st) url).
      { rewrite Hvis in Hin. apply elem_of_union in Hin as [->%elem_of_singleton | Hin].
        - by eapply Hitems.
        - by apply Hvisited. }
      destruct Hold as [-> | Hfrom]; [by left | right].
      by apply (linked_from_mono (visited st)).
Qed.

Lemma crawl_run_linked (fuel : nat) (start_url url : string) :
  url ∈ visited (outcome_state (crawl_run fuel start_url)) ->
  url = start_url
  \/ linked_from w (visited (outcome_state (crawl_run fuel start_url))) url.
Proof.
  revert url.
  assert (Hinv :
    (fun st : state F =>
       (forall url d, (url, d) ∈ frontier_items (frontier st) ->
                      url = start_url \/ linked_from w (visited st) url)
       /\ (forall url, url ∈ visited st ->
                       url = start_url \/ linked_from w (visited st) url))
      (outcome_state (crawl_run fuel start_url))).
  { unfold crawl_run. apply crawl_loop_invariant.
    - intros st o [Hitems Hvisited] Hpass. by apply (pass_linked start_url st o).
    - unfold initial. cbn [frontier visited]. split.
      + intros url d. rewrite frontier_items_init.
        intros [= -> ->]%list_elem_of_singleton. by left.
      + intros url Hin. by apply not_elem_of_empty in Hin. }
  by destruct Hinv as [_ Hvisited].
Qed.

(** *** The categories *)

Lemma lookup_merge_categories (categories categorized : gmap string (list string))
    (k : string) :
  merge_categories categories categorized !! k
  = match categories !! k with
    | Some (u :: urls) => Some (default [] (categorized !! k) ++ remove_dups (u :: urls))
    | _ => categorized !! k
    end.
Proof.
  unfold merge_categories.
  apply (map_fold_weak_ind
           (fun r m =>
              r !! k = match m !! k with
                       | Some (u :: urls) =>
                           Some (default [] (categorized !! k) ++ remove_dups (u :: urls))
                       | _ => categorized !! k
                       end)).
  - by rewrite lookup_empty.
  - intros i x m r Hnone IH.
    destruct (decide (i = k)) as [-> | Hne].
    + rewrite lookup_insert_eq. rewrite Hnone in IH.
      destruct x as [| u urls]; [done |]. by rewrite lookup_insert_eq, IH.
    + rewrite (lookup_insert_ne m) by done.
      destruct x as [| u urls]; [done |]. by rewrite lookup_insert_ne.
Qed.

Lemma scan_links_categories (current_url : string) (depth : Z) (page_content : string)
    (seen : gset string) (tags : list tag) (queue queue' : F)
    (categories categories' : gmap string (list string)) :
  scan_links current_url depth page_content seen tags queue categories
  = (queue', Ok categories') ->
  forall k,
    categories' !! k
    = (fun urls => urls ++ category_links w current_url seen k tags) <$> categories !! k.
Proof.
  revert queue categories.
  induction tags as [| t tags IH]; intros queue categories; simpl.
  - intros [= _ <-] k. destruct (categories !! k); simpl; [by rewrite app_nil_r | done].
  - destruct (urljoin w current_url (href t)) as [joined | msg]; [| done].
    destruct (decide (PyStr.rstrip_slash joined ∈ seen)); [apply IH |].
    intros Hscan k. rewrite (IH _ _ Hscan k), map_lookup_imap.
    destruct (categories !! k) as [urls |]; simpl; [| done].
    destruct (PyStr.contains _ k); [| done].
    by rewrite <- (assoc_L (++)).
Qed.

Lemma scan_links_resolvable (current_url : string) (depth : Z) (page_content : string)
    (seen : gset string) (tags : list tag) (queue : F)
    (categories : gmap string (list string)) :
  resolvable w current_url tags ->
  exists categories',
    snd (scan_links current_url depth page_content seen tags queue categories)
    = Ok categories'.
Proof.
  revert queue categories.
  induction tags as [| t tags IH]; intros queue categories Hall; simpl.
  - by exists categories.
  - apply Forall_cons in Hall as [[joined ->] Hall].
    destruct (decide (PyStr.rstrip_slash joined ∈ seen)); by apply IH.
Qed.

Lemma elem_of_category_links (current_url : string) (seen : gset string)
    (k : string) (tags : list tag) (link : string) :
  link ∈ category_links w current_url seen k tags ->
  exists t joined,
    t ∈ tags /\ urljoin w current_url (href t) = Ok joined
    /\ link = PyStr.rstrip_slash joined /\ (link ∉ seen)
    /\ PyStr.contains (str_lower w (str_strip w (get_text t))) k = true.
Proof.
  induction tags as [| t tags IH]; simpl; [by intros ?%elem_of_nil |].
  destruct (urljoin w current_url (href t)) as [joined | msg] eqn:Hjoin;
    [| by intros ?%elem_of_nil].
  assert (Hrest : link ∈ category_links w current_url seen k tags ->
                  exists t' joined',
                    t' ∈ t :: tags /\ urljoin w current_url (href t') = Ok joined'
                    /\ link = PyStr.rstrip_slash joined' /\ (link ∉ seen)
                    /\ PyStr.contains (str_lower w (str_strip w (get_text t'))) k = true).
  { intros (t' & joined' & Hin & Hrest)%IH. exists t', joined'.
    split; [by apply list_elem_of_further | done]. }
  destruct (decide (PyStr.rstrip_slash joined ∈ seen)) as [Hseen | Hnew]; [done |].
  destruct (PyStr.contains _ k) eqn:Hcontains; [| done].
  intros [-> | Hin]%elem_of_cons; [| by apply Hrest].
  exists t, joined. split; [apply list_elem_of_here | done].
Qed.

Lemma category_links_complete (current_url : string) (seen : gset string)
    (k : string) (tags : list tag) (t : tag) (joined : string) :
  resolvable w current_url tags ->
  t ∈ tags -> urljoin w current_url (href t) = Ok joined ->
  PyStr.rstrip_slash joined ∉ seen ->
  PyStr.contains (str_lower w (str_strip w (get_text t))) k = true ->
  PyStr.rstrip_slash joined ∈ category_links w current_url seen k tags.
Proof.
  intros Hall Hin Hjoin Hnew Hcontains.
  induction tags as [| t' tags IH]; [by apply elem_of_nil in Hin |].
  apply Forall_cons in Hall as [[joined' Hjoin'] Hall]. simpl. rewrite Hjoin'.
  apply elem_of_cons in Hin as [<- | Hin].
  - assert (joined' = joined) as -> by congruence.
    rewrite decide_False by done. rewrite Hcontains. apply list_elem_of_here.
  - specialize (IH Hall Hin).
    destruct (decide (PyStr.rstrip_slash joined' ∈ seen)); [done |].
    destruct (PyStr.contains (str_lower w (str_strip w (get_text t'))) k);
      [by apply list_elem_of_further | done].
Qed.

Lemma extract_categories_lookup (page : soup) (k : string) (urls : list string) :
  extract_categories w page !! k = Some urls ->
  urls = []
  /\ (3 <= PyStr.len k)%nat
  /\ exists heading,
       heading ∈ find_all_headings page /\ k = str_lower w (str_strip w heading).
Proof.
  unfold extract_categories.
  induction (find_all_headings page) as [| heading headings IH] using rev_ind.
  - cbn [fold_left]. by rewrite lookup_empty.
  - rewrite fold_left_app. cbn [fold_left]. intros Hlookup.
    assert (Hold : urls = [] /\ (3 <= PyStr.len k)%nat
                   /\ (exists heading',
                         heading' ∈ headings
                         /\ k = str_lower w (str_strip w heading')) ->
                   urls = [] /\ (3 <= PyStr.len k)%nat
                   /\ exists heading',
                        heading' ∈ headings ++ [heading]
                        /\ k = str_lower w (str_strip w heading')).
    { intros (-> & Hlen & h & Hin & ->). repeat split; [done |].
      exists h. split; [| done]. apply elem_of_app. by left. }
    destruct (3 <=? PyStr.len (str_lower w (str_strip w heading)))%nat eqn:Hlen;
      [| apply Hold, IH; exact Hlookup].
    destruct (decide (str_lower w (str_strip w heading) = k)) as [<- | Hne].
    + rewrite lookup_insert_eq in Hlookup. injection Hlookup as <-. repeat split.
      * by apply Nat.leb_le.
      * exists heading. split; [| done]. apply elem_of_app. right.
        apply list_elem_of_here.
    + rewrite lookup_insert_ne in Hlookup by done. apply Hold, IH. exact Hlookup.
Qed.

Lemma extract_categories_complete (page : soup) (heading : string) :
  heading ∈ find_all_headings page ->
  (3 <= PyStr.len (str_lower w (str_strip w heading)))%nat ->
  extract_categories w page !! str_lower w (str_strip w heading) = Some [].
Proof.
  unfold extract_categories. intros Hin Hlen.
  induction (find_all_headings page) as [| h headings IH] using rev_ind;
    [by apply elem_of_nil in Hin |].
  rewrite fold_left_app. cbn [fold_left].
  destruct (decide (str_lower w (str_strip w h) = str_lower w (str_strip w heading)))
    as [Heq | Hne].
  - rewrite Heq. apply Nat.leb_le in Hlen as ->. by rewrite lookup_insert_eq.
  - apply elem_of_app in Hin as [Hin | ->%list_elem_of_singleton]; [| done].
    destruct (3 <=? _)%nat; [rewrite lookup_insert_ne by done |]; by apply IH.
Qed.

Lemma listed_by_mono (seen seen' : gset string) (k url : string) :
  seen ⊆ seen' -> listed_by w seen k url -> listed_by w seen' k url.
Proof.
  intros Hsub (parent & n & page & heading & t & joined & Hin & Hrest).
  exists parent, n, page, heading, t, joined. split; [by apply Hsub | done].
Qed.

(** What a pass does to the result: nothing, or the merge of the categories
    of the page fetched in this pass. *)
Lemma pass_categorized (st : state F) (o : outcome (state F)) :
  pass st o ->
  categorized_urls (outcome_state o) = categorized_urls st
  \/ exists url page categories,
       urlopen w (iteration st) url = Ok page
       /\ visited (outcome_state o) = {[url]} ∪ visited st
       /\ (forall k, categories !! k
                     = (fun urls => urls ++ category_links w url ({[url]} ∪ visited st) k
                                              (find_all_a page))
                       <$> extract_categories w page !! k)
       /\ categorized_urls (outcome_state o)
          = merge_categories categories (categorized_urls st).
Proof.
  intros Hpass. each_pass Hpass; try by left.
  right. exists url, page, categories. repeat split; try done.
  by apply (scan_links_categories _ _ _ _ _ _ _ _ _ Hscan).
Qed.

Lemma pass_listed (st : state F) (o : outcome (state F)) :
  (forall k urls, categorized_urls st !! k = Some urls ->
                  urls <> [] /\ forall u, u ∈ urls -> listed_by w (visited st) k u) ->
  pass st o ->
  forall k urls, categorized_urls (outcome_state o) !! k = Some urls ->
                 urls <> []
                 /\ forall u, u ∈ urls -> listed_by w (visited (outcome_state o)) k u.
Proof.
  intros Hinv Hpass k urls Hlookup.
  pose proof (pass_visited_mono _ _ Hpass) as Hmono.
  assert (Hold : forall urls0, categorized_urls st !! k = Some urls0 ->
                 urls0 <> []
                 /\ forall u, u ∈ urls0 -> listed_by w (visited (outcome_state o)) k u).
  { intros urls0 [Hne Hall]%Hinv. split; [done |].
    intros u Hu. by apply (listed_by_mono (visited st)), Hall. }
  destruct (pass_categorized _ _ Hpass)
    as [Hsame | (url & page & categories & Hopen & Hvis & Hcats & Hmerge)].
  { rewrite Hsame in Hlookup. by apply Hold. }
  rewrite Hmerge, lookup_merge_categories in Hlookup.
  destruct (extract_categories w page !! k) as [urls0 |] eqn:Hextract.
  2: { rewrite Hcats, Hextract in Hlookup. by apply Hold. }
  apply extract_categories_lookup in Hextract as Hheading.
  destruct Hheading as (-> & Hlen & heading & Hheading & Hk).
  assert (Hcat : categories !! k
                 = Some (category_links w url ({[url]} ∪ visited st) k (find_all_a page)))
    by (by rewrite Hcats, Hextract).
  rewrite Hcat in Hlookup.
  destruct (category_links w url ({[url]} ∪ visited st) k (find_all_a page))
    as [| u0 links] eqn:Hlinks; [by apply Hold |].
  injection Hlookup as <-. split.
  { intros [_ Hnil]%app_eq_nil.
    apply (elem_of_nil u0). rewrite <- Hnil.
    apply (proj2 (elem_of_remove_dups (u0 :: links) u0)), list_elem_of_here. }
  intros u [Hu | Hu]%elem_of_app.
  - destruct (categorized_urls st !! k) as [urls0 |] eqn:Hprev; simpl in Hu;
      [| by apply elem_of_nil in Hu].
    by apply (Hold urls0).
  - apply (proj1 (elem_of_remove_dups (u0 :: links) u)) in Hu. rewrite <- Hlinks in Hu.
    apply elem_of_category_links in Hu as (t & joined & Ht & Hjoin & -> & _ & Hcontains).
    exists url, (iteration st), page, heading, t, joined.
    split; [rewrite Hvis; set_solver | done].
Qed.

Lemma crawl_run_listed (fuel : nat) (start_url : string) (k : string)
    (urls : list string) :
  categorized_urls (outcome_state (crawl_run fuel start_url)) !! k = Some urls ->
  urls <> []
  /\ forall u, u ∈ urls ->
       listed_by w (visited (outcome_state (crawl_run fuel start_url))) k u.
Proof.
  revert k urls.
  assert (Hinv :
    (fun st : state F =>
       forall k urls, categorized_urls st !! k = Some urls ->
                      urls <> [] /\ forall u, u ∈ urls -> listed_by w (visited st) k u)
      (outcome_state (crawl_run fuel start_url))).
  { unfold crawl_run. apply crawl_loop_invariant.
    - intros st o Hinv Hpass. by apply (pass_listed st o).
    - intros k urls. unfold initial. cbn [categorized_urls]. by rewrite lookup_empty. }
  exact Hinv.
Qed.

(** *** Nothing is taken back *)

Lemma extends_refl (st : state F) : extends st st.
Proof.
  split; [done |]. split; [done |].
  intros k urls Hlookup. exists []. by rewrite app_nil_r.
Qed.

Lemma extends_trans (st1 st2 st3 : state F) :
  extends st1 st2 -> extends st2 st3 -> extends st1 st3.
Proof.
  intros (Hv1 & Ht1 & Hc1) (Hv2 & Ht2 & Hc2).
  split; [by etrans |]. split; [by etrans |].
  intros k urls [more1 Hmore1]%Hc1. apply Hc2 in Hmore1 as [more2 Hmore2].
  exists (more1 ++ more2). by rewrite (assoc_L (++)).
Qed.

Lemma pass_extends (st : state F) (o : outcome (state F)) :
  pass st o -> extends st (outcome_state o).
Proof.
  intros Hpass. split; [by apply pass_visited_mono |]. split.
  - each_pass Hpass; try done; by eexists.
  - intros k urls Hlookup.
    destruct (pass_categorized _ _ Hpass)
      as [-> | (url & page & categories & _ & _ & _ & ->)].
    { exists []. by rewrite app_nil_r. }
    rewrite lookup_merge_categories, Hlookup. simpl.
    destruct (categories !! k) as [[| u us] |].
    + exists []. by rewrite app_nil_r.
    + by eexists.
    + exists []. by rewrite app_nil_r.
Qed.

Lemma crawl_loop_extends (fuel fuel' : nat) (st : state F) :
  (fuel <= fuel')%nat ->
  extends (outcome_state (crawl_loop fuel st)) (outcome_state (crawl_loop fuel' st)).
Proof.
  intros Hle. induction Hle as [| fuel' Hle IH]; [apply extends_refl |].
  apply (extends_trans _ _ _ IH).
  rewrite (crawl_loop_last w max_pages max_depth keywords progress_callback stop_event
             fuel' st).
  destruct (crawl_loop fuel' st) as [st' | st' | st']; cbn [outcome_state];
    [| apply extends_refl ..].
  apply pass_extends, crawl_iter_pass.
Qed.

(** A pass that fetches a page whose references can all be resolved merges
    the categories of the page into the result. *)
Lemma pass_page_merged (st : state F) (o : outcome (state F)) (u : string) (d : Z)
    (p : soup) :
  pass st o ->
  Fetch u d ∈ new_events st (outcome_state o) ->
  urlopen w (iteration st) u = Ok p ->
  resolvable w u (find_all_a p) ->
  exists categories,
    (forall k, categories !! k
               = (fun urls => urls ++ category_links w u ({[u]} ∪ visited st) k
                                        (find_all_a p))
                 <$> extract_categories w p !! k)
    /\ categorized_urls (outcome_state o)
       = merge_categories categories (categorized_urls st).
Proof.
  intros Hpass Hin Hok Hall.
  each_pass Hpass; cbn [outcome_state] in Hin;
    rewrite ?new_events_app, ?new_events_same in Hin;
    unfold polled, progress_events in Hin;
    destruct stop_event, progress_callback; simpl in Hin; in_events Hin;
    try congruence.
  all: assert (page = p) as -> by congruence.
  all: try (exists categories; split;
            [by apply (scan_links_categories _ _ _ _ _ _ _ _ _ Hscan) | done]).
  all: destruct (scan_links_resolvable url depth (soup_get_text p)
                   ({[url]} ∪ visited st) (find_all_a p) queue (extract_categories w p)
                   Hall) as [categories Hsnd];
    rewrite Hscan in Hsnd; discriminate Hsnd.
Qed.

(** The links that one pass adds to a list of the result are distinct. *)
Lemma pass_adds_distinct (st : state F) (o : outcome (state F)) (k : string)
    (urls' : list string) :
  pass st o ->
  categorized_urls (outcome_state o) !! k = Some urls' ->
  exists more,
    urls' = default [] (categorized_urls st !! k) ++ more /\ NoDup more.
Proof.
  intros Hpass Hlookup.
  assert (Hsame : categorized_urls st !! k = Some urls' ->
                  exists more,
                    urls' = default [] (categorized_urls st !! k) ++ more
                    /\ NoDup more).
  { intros ->. exists []. split; [by rewrite app_nil_r | constructor]. }
  destruct (pass_categorized _ _ Hpass)
    as [Heq | (url & page & categories & _ & _ & _ & Heq)];
    rewrite Heq in Hlookup; [by apply Hsame |].
  rewrite lookup_merge_categories in Hlookup.
  destruct (categories !! k) as [[| u us] |]; try by apply Hsame.
  injection Hlookup as <-. exists (remove_dups (u :: us)).
  split; [done | apply NoDup_remove_dups].
Qed.

Lemma crawl_loop_adds_distinct (fuel : nat) (st : state F) (k : string)
    (urls' : list string) :
  categorized_urls (outcome_state (crawl_loop (S fuel) st)) !! k = Some urls' ->
  exists more,
    urls' = default [] (categorized_urls (outcome_state (crawl_loop fuel st)) !! k)
            ++ more
    /\ NoDup more.
Proof.
  rewrite (crawl_loop_last w max_pages max_depth keywords progress_callback stop_event
             fuel st).
  destruct (crawl_loop fuel st) as [st' | st' | st']; cbn [outcome_state].
  - apply pass_adds_distinct, crawl_iter_pass.
  - intros ->. exists []. split; [by rewrite app_nil_r | constructor].
  - intros ->. exists []. split; [by rewrite app_nil_r | constructor].
Qed.

End Invariants.

(** The loop over the anchors of a page, in depth-first mode, appends the
    discovered links to the stack in the order of the page. *)
Lemma scan_links_dfs (w : web) (keywords : option (list string)) (current_url : string)
    (depth : Z) (page_content : string) (seen : gset string) (tags : list tag)
    (stack : list (string * Z)) (categories : gmap string (list string)) :
  fst (scan_links w keywords current_url depth page_content seen tags stack categories)
  = stack
    ++ ((fun link => (link, depth + 1)) <$> discovered_links w current_url seen tags).
Proof.
  revert stack categories.
  induction tags as [| t tags IH]; intros stack categories; simpl;
    [by rewrite app_nil_r |].
  destruct (urljoin w current_url (href t)) as [joined | msg]; simpl;
    [| by rewrite app_nil_r].
  destruct (decide (PyStr.rstrip_slash joined ∈ seen)); [apply IH |].
  rewrite IH. unfold dfs_push. by rewrite <- (assoc_L (++)).
Qed.

(** ** Trailing slashes *)

Lemma rstrip_idem (p : ascii -> bool) (s : string) :
  PyStr.rstrip p (PyStr.rstrip p s) = PyStr.rstrip p s.
Proof.
  induction s as [| c s IH]; simpl; [done |].
  destruct (PyStr.rstrip p s) as [| a r] eqn:Hr.
  - destruct (p c) eqn:Hc; simpl; [done | by rewrite Hc].
  - change (PyStr.rstrip p (String c (String a r)))
      with (match PyStr.rstrip p (String a r) with
            | EmptyString => if p c then EmptyString else String c EmptyString
            | r' => String c r'
            end).
    by rewrite IH.
Qed.

(** [s] with [n] slashes after it. *)
Lemma rstrip_slash_append (s : string) :
  exists n,
    s = String.append (PyStr.rstrip_slash s) (string_of_list_ascii (repeat "/"%char n)).
Proof.
  unfold PyStr.rstrip_slash. induction s as [| c s IH]; simpl; [by exists 0%nat |].
  destruct IH as [n IH].
  destruct (PyStr.rstrip PyStr.is_slash s) as [| a r] eqn:Hr.
  - change (s = string_of_list_ascii (repeat "/"%char n)) in IH.
    destruct (PyStr.is_slash c) eqn:Hc.
    + exists (S n). unfold PyStr.is_slash in Hc. apply Ascii.eqb_eq in Hc as ->.
      change (String "/" s = String "/" (string_of_list_ascii (repeat "/"%char n))).
      by f_equal.
    + exists n.
      change (String c s = String c (string_of_list_ascii (repeat "/"%char n))).
      by f_equal.
  - exists n.
    change (String c s
            = String c (String.append (String a r)
                          (string_of_list_ascii (repeat "/"%char n)))).
    by f_equal.
Qed.

Lemma rstrip_slash_fixed (s : string) :
  PyStr.endswith_slash s = false -> PyStr.rstrip_slash s = s.
Proof.
  unfold PyStr.rstrip_slash. induction s as [| c s IH]; [done |].
  destruct s as [| a s].
  - simpl. by intros ->.
  - intros Hend.
    change (PyStr.endswith_slash (String c (String a s)))
      with (PyStr.endswith_slash (String a s)) in Hend.
    change (PyStr.rstrip PyStr.is_slash (String c (String a s)))
      with (match PyStr.rstrip PyStr.is_slash (String a s) with
            | EmptyString => if PyStr.is_slash c then EmptyString else String c EmptyString
            | r' => String c r'
            end).
    by rewrite (IH Hend).
Qed.

(** ** Substrings *)

Lemma prefix_append (a b : string) :
  String.prefix a b = true <-> exists c, b = String.append a c.
Proof.
  revert b. induction a as [| x a IH]; intros b.
  - split; [intros _; by exists b | by destruct b].
  - destruct b as [| y b]; cbn [String.prefix].
    + split; [done | by intros [c Hc]].
    + destruct (ascii_dec x y) as [<- | Hne].
      * rewrite IH. split; intros [c Hc]; exists c.
        -- change (String x b = String x (String.append a c)). by f_equal.
        -- change (String x b = String x (String.append a c)) in Hc. by injection Hc.
      * split; [done |]. intros [c Hc].
        change (String y b = String x (String.append a c)) in Hc. by injection Hc.
Qed.

Lemma contains_append (text sub : string) :
  PyStr.contains text sub = true
  <-> exists before after, text = String.append before (String.append sub after).
Proof.
  induction text as [| c text IH]; cbn [PyStr.contains].
  - rewrite orb_false_r, prefix_append. split.
    + intros [after Hafter]. by exists EmptyString, after.
    + intros ([| b before] & after & Heq); [by exists after | done].
  - rewrite orb_true_iff, prefix_append, IH. split.
    + intros [[after Hafter] | (before & after & ->)].
      * by exists EmptyString, after.
      * by exists (String c before), after.
    + intros ([| b before] & after & Heq).
      * left. by exists after.
      * right. exists before, after.
        change (String c text
                = String b (String.append before (String.append sub after))) in Heq.
        by injection Heq.
Qed.

(** ** Counting occurrences *)

Lemma len_append (a b : string) :
  PyStr.len (String.append a b) = (PyStr.len a + PyStr.len b)%nat.
Proof.
  induction a as [| c a IH]; [done |].
  change (String.append (String c a) b) with (String c (String.append a b)).
  cbn [PyStr.len]. rewrite IH. by destruct (PyStr.is_continuation c).
Qed.

(** The occurrences counted in [b], the text after the [skip] characters
    still to be passed, take [len(sub)] characters of [b] each. *)
Lemma count_go_bound (sub s : string) (skip : nat) (a b : string) :
  s = String.append a b -> String.length a = skip ->
  (PyStr.count_go sub s skip * PyStr.len sub <= PyStr.len b)%nat.
Proof.
  destruct sub as [| x sub]; [cbn [PyStr.len]; lia |].
  revert skip a b. induction s as [| c s IH]; intros skip a b Hs Ha;
    [cbn [PyStr.count_go]; lia |].
  cbn [PyStr.count_go]. destruct skip as [| k].
  - destruct a as [| ? ?]; [| done].
    change (String c s = b) in Hs. subst b.
    destruct (String.prefix (String x sub) (String c s)) eqn:Hprefix.
    + destruct (proj1 (prefix_append _ _) Hprefix) as [rest Hrest].
      change (String c s = String x (String.append sub rest)) in Hrest.
      injection Hrest as -> ->.
      assert (Hlen : String.length sub = (String.length (String x sub) - 1)%nat)
        by (simpl; lia).
      pose proof (IH (String.length (String x sub) - 1)%nat sub rest eq_refl Hlen) as Hb.
      change (String x (String.append sub rest))
        with (String.append (String x sub) rest).
      rewrite len_append. lia.
    + pose proof (IH 0%nat EmptyString s eq_refl eq_refl) as Hb.
      cbn [PyStr.len] in Hb |- *. destruct (PyStr.is_continuation c); lia.
  - destruct a as [| y a]; [done |].
    change (String c s = String y (String.append a b)) in Hs.
    injection Hs as -> ->. simpl in Ha. apply (IH k a b eq_refl). lia.
Qed.

(** A keyword has at most [len(content) // len(keyword)] occurrences, since
    occurrences do not overlap. *)
Lemma count_bound (s sub : string) :
  (0 < PyStr.len sub)%nat ->
  (PyStr.count s sub * PyStr.len sub <= PyStr.len s)%nat.
Proof.
  intros Hne. unfold PyStr.count. destruct sub as [| x sub]; [simpl in Hne; lia |].
  apply (count_go_bound (String x sub) s 0 EmptyString s); reflexivity.
Qed.

Lemma spec_keyword_score_app (w : web) (text : string) (k1 k2 : list string) :
  spec_keyword_score w text (k1 ++ k2)
  = spec_keyword_score w text k1 + spec_keyword_score w text k2.
Proof. induction k1 as [| k k1 IH]; simpl; [done |]. rewrite IH. lia. Qed.

Lemma spec_keyword_score_nonneg (w : web) (text : string) (keywords : list string) :
  0 <= spec_keyword_score w text keywords.
Proof.
  induction keywords as [| k keywords IH]; simpl; [done |].
  unfold occurrences_ignoring_case. lia.
Qed.

(** ** Splitting at commas *)

Lemma split_comma_nonempty (s : string) : split_comma s <> [].
Proof.
  induction s as [| c s IH]; simpl; [done |].
  destruct (Ascii.eqb c ","); [done |]. by destruct (split_comma s).
Qed.

(** ** The ranks of [calculate_pagerank] *)

Lemma rank_get_increment (rank : list (string * Z)) (url u : string) :
  rank_get (increment rank url) u
  = if String.eqb url u then Some (default 0 (rank_get rank url) + 1)
    else rank_get rank u.
Proof.
  induction rank as [| [u0 r] rank IH]; simpl.
  - by destruct (String.eqb url u).
  - destruct (String.eqb u0 url) eqn:Hurl; simpl.
    + apply String.eqb_eq in Hurl as ->. by destruct (String.eqb url u).
    + rewrite IH. destruct (String.eqb url u) eqn:Hu; [| done].
      apply String.eqb_eq in Hu as <-. by rewrite Hurl.
Qed.

Lemma rank_get_None (rank : list (string * Z)) (url : string) :
  rank_get rank url = None <-> url ∉ fst <$> rank.
Proof.
  induction rank as [| [u0 r] rank IH]; simpl.
  - split; [intros _; apply not_elem_of_nil | done].
  - rewrite not_elem_of_cons. destruct (String.eqb u0 url) eqn:Hurl.
    + apply String.eqb_eq in Hurl as ->. split; [done | by intros [? _]].
    + apply String.eqb_neq in Hurl. rewrite IH. split; [by split | by intros [_ ?]].
Qed.

Lemma keys_increment (rank : list (string * Z)) (url : string) :
  fst <$> increment rank url
  = match rank_get rank url with
    | Some _ => fst <$> rank
    | None => (fst <$> rank) ++ [url]
    end.
Proof.
  induction rank as [| [u0 r] rank IH]; cbn [increment rank_get]; [done |].
  destruct (String.eqb u0 url) eqn:Hurl; [done |].
  rewrite fmap_cons, IH. by destruct (rank_get rank url).
Qed.

Lemma NoDup_increment (rank : list (string * Z)) (url : string) :
  NoDup (fst <$> rank) -> NoDup (fst <$> increment rank url).
Proof.
  intros Hnodup. rewrite keys_increment.
  destruct (rank_get rank url) eqn:Hget; [done |].
  apply rank_get_None in Hget. apply NoDup_app. split; [done |].
  split; [| apply NoDup_singleton].
  intros u Hu ->%list_elem_of_singleton. done.
Qed.

(** The ranks after the references [seen]: every referenced URL has the
    number of its references, and no other URL has a rank. *)
Lemma increment_counts (rank : list (string * Z)) (seen : list string) (url : string) :
  (forall u, rank_get rank u
             = if decide (u ∈ seen)
               then Some (Z.of_nat (count_occ String.string_dec seen u)) else None) ->
  forall u, rank_get (increment rank url) u
            = if decide (u ∈ seen ++ [url])
              then Some (Z.of_nat (count_occ String.string_dec (seen ++ [url]) u))
              else None.
Proof.
  intros Hinv u. rewrite rank_get_increment, count_occ_app. cbn [count_occ].
  destruct (String.eqb url u) eqn:Hu.
  - apply String.eqb_eq in Hu as ->. rewrite Hinv.
    destruct (decide (u ∈ seen ++ [u])) as [_ | Hnot].
    2: { destruct Hnot. apply elem_of_app. right. apply list_elem_of_here. }
    destruct (String.string_dec u u) as [_ | Hne]; [| done].
    destruct (decide (u ∈ seen)) as [Hin | Hnot]; simpl; [f_equal; lia |].
    assert (count_occ String.string_dec seen u = 0%nat) as ->.
    { apply count_occ_not_In. by rewrite <- list_elem_of_In. }
    done.
  - apply String.eqb_neq in Hu. rewrite Hinv.
    destruct (String.string_dec url u) as [Heq | _]; [done |].
    rewrite Nat.add_0_r.
    destruct (decide (u ∈ seen)) as [Hin | Hnot],
             (decide (u ∈ seen ++ [url])) as [Hin' | Hnot']; try done.
    + destruct Hnot'. apply elem_of_app. by left.
    + apply elem_of_app in Hin' as [? | ?%list_elem_of_singleton]; done.
Qed.

Lemma fold_increment_counts (urls : list string) (rank : list (string * Z))
    (seen : list string) :
  NoDup (fst <$> rank) ->
  (forall u, rank_get rank u
             = if decide (u ∈ seen)
               then Some (Z.of_nat (count_occ String.string_dec seen u)) else None) ->
  NoDup (fst <$> fold_left increment urls rank)
  /\ forall u, rank_get (fold_left increment urls rank) u
               = if decide (u ∈ seen ++ urls)
                 then Some (Z.of_nat (count_occ String.string_dec (seen ++ urls) u))
                 else None.
Proof.
  revert rank seen. induction urls as [| url urls IH]; intros rank seen Hnodup Hinv.
  - simpl. by rewrite app_nil_r.
  - simpl. rewrite (cons_middle url seen urls), (assoc_L (++)).
    apply IH; [by apply NoDup_increment | by apply increment_counts].
Qed.

Lemma count_references_counts (crawled_data : list (string * list string)) :
  NoDup (fst <$> count_references crawled_data)
  /\ forall u, rank_get (count_references crawled_data) u
               = if decide (u ∈ referenced crawled_data)
                 then Some (Z.of_nat (count_occ String.string_dec
                                        (referenced crawled_data) u))
                 else None.
Proof.
  unfold count_references, referenced.
  assert (Hgen : forall data rank seen,
    NoDup (fst <$> rank) ->
    (forall u, rank_get rank u
               = if decide (u ∈ seen)
                 then Some (Z.of_nat (count_occ String.string_dec seen u)) else None) ->
    NoDup (fst <$> fold_left
                     (fun (rank : list (string * Z)) (entry : string * list string) =>
                        fold_left increment (snd entry) rank)
                     data rank)
    /\ forall u,
         rank_get (fold_left
                     (fun (rank : list (string * Z)) (entry : string * list string) =>
                        fold_left increment (snd entry) rank)
                     data rank) u
         = if decide (u ∈ seen ++ concat (snd <$> data))
           then Some (Z.of_nat (count_occ String.string_dec
                                  (seen ++ concat (snd <$> data)) u))
           else None).
  { induction data as [| [category urls] data IH]; intros rank seen Hnodup Hinv.
    - simpl. by rewrite app_nil_r.
    - simpl. rewrite (assoc_L (++)).
      destruct (fold_increment_counts urls rank seen Hnodup Hinv) as [Hnodup' Hinv'].
      by apply IH. }
  apply (Hgen crawled_data [] []); [constructor |].
  intros u. cbn [rank_get].
  destruct (decide (u ∈ [])) as [Hin | _]; [by apply elem_of_nil in Hin | done].
Qed.

(** *** Sorting by rank *)

Lemma insert_by_rank_perm (x : string * Z) (l : list (string * Z)) :
  insert_by_rank x l ≡ₚ x :: l.
Proof.
  induction l as [| y l IH]; simpl; [done |].
  destruct (snd y <=? snd x); [done |]. by rewrite IH, Permutation_swap.
Qed.

Lemma sorted_by_rank_perm (l : list (string * Z)) : sorted_by_rank l ≡ₚ l.
Proof.
  induction l as [| x l IH]; simpl; [done |]. by rewrite insert_by_rank_perm, IH.
Qed.

Lemma insert_by_rank_sorted (x : string * Z) (l : list (string * Z)) :
  StronglySorted (fun a b => snd b <= snd a) l ->
  StronglySorted (fun a b => snd b <= snd a) (insert_by_rank x l).
Proof.
  induction 1 as [| y l Hsorted IH Hall]; simpl; [by repeat constructor |].
  destruct (Z.leb_spec (snd y) (snd x)) as [Hle | Hlt].
  - constructor; [by constructor |].
    constructor; [done |]. eapply Forall_impl; [exact Hall |]. simpl. lia.
  - constructor; [done |].
    rewrite insert_by_rank_perm. constructor; [lia | done].
Qed.

Lemma sorted_by_rank_sorted (l : list (string * Z)) :
  StronglySorted (fun a b => snd b <= snd a) (sorted_by_rank l).
Proof.
  induction l as [| x l IH]; simpl; [constructor | by apply insert_by_rank_sorted].
Qed.

Lemma insert_by_rank_filter (n : Z) (x : string * Z) (l : list (string * Z)) :
  filter (fun item => snd item = n) (insert_by_rank x l)
  = filter (fun item => snd item = n) (x :: l).
Proof.
  induction l as [| y l IH]; cbn [insert_by_rank]; [done |].
  destruct (Z.leb_spec (snd y) (snd x)) as [Hle | Hlt]; [done |].
  rewrite (filter_cons _ y), IH, !(filter_cons _ x), (filter_cons _ y).
  destruct (decide (snd y = n)), (decide (snd x = n)); try done. lia.
Qed.

Lemma sorted_by_rank_filter (n : Z) (l : list (string * Z)) :
  filter (fun item => snd item = n) (sorted_by_rank l)
  = filter (fun item => snd item = n) l.
Proof.
  induction l as [| x l IH]; cbn [sorted_by_rank foldr]; [done |].
  fold (sorted_by_rank l). by rewrite insert_by_rank_filter, !filter_cons, IH.
Qed.

(** Two lists in descending order of rank that have the same items of every
    rank, in the same order, are the same list. *)
Lemma sorted_stable_unique (l1 l2 : list (string * Z)) :
  StronglySorted (fun a b => snd b <= snd a) l1 ->
  StronglySorted (fun a b => snd b <= snd a) l2 ->
  (forall n, filter (fun item => snd item = n) l1
             = filter (fun item => snd item = n) l2) ->
  l1 = l2.
Proof.
  intros Hs1. revert l2. induction Hs1 as [| x l1 Hs1 IH Hall1]; intros l2 Hs2 Hfilter.
  - destruct l2 as [| y l2]; [done |].
    specialize (Hfilter (snd y)). rewrite filter_cons_True in Hfilter by done. done.
  - destruct Hs2 as [| y l2 Hs2 Hall2].
    { specialize (Hfilter (snd x)). rewrite filter_cons_True in Hfilter by done. done. }
    assert (Hx : x ∈ y :: l2).
    { eapply (list_elem_of_filter (fun item => snd item = snd x)).
      rewrite <- Hfilter, filter_cons_True by done. apply list_elem_of_here. }
    assert (Hy : y ∈ x :: l1).
    { eapply (list_elem_of_filter (fun item => snd item = snd y)).
      rewrite Hfilter, filter_cons_True by done. apply list_elem_of_here. }
    assert (Hrank : snd x = snd y).
    { rewrite Forall_forall in Hall1, Hall2.
      apply elem_of_cons in Hx as [-> | Hx]; [done |].
      apply elem_of_cons in Hy as [-> | Hy]; [done |].
      specialize (Hall1 _ Hy). specialize (Hall2 _ Hx). lia. }
    pose proof (Hfilter (snd x)) as Hhead.
    rewrite !filter_cons_True in Hhead by done.
    injection Hhead as -> Htail. f_equal. apply IH; [done |].
    intros n. specialize (Hfilter n). rewrite !filter_cons in Hfilter.
    destruct (decide (snd y = n)); [by injection Hfilter | done].
Qed.

(** *** Looking a rank up *)

Lemma rank_get_Some (l : list (string * Z)) (u : string) (n : Z) :
  NoDup (fst <$> l) -> rank_get l u = Some n <-> (u, n) ∈ l.
Proof.
  induction l as [| [u0 r] l IH]; simpl.
  - intros _. split; [done | by intros ?%elem_of_nil].
  - intros [Hnot Hnodup]%NoDup_cons. rewrite elem_of_cons.
    destruct (String.eqb u0 u) eqn:Hu.
    + apply String.eqb_eq in Hu as ->. split.
      * intros [= ->]. by left.
      * intros [[= ->] | Hin]; [done |]. destruct Hnot.
        apply list_elem_of_fmap. by exists (u, n).
    + apply String.eqb_neq in Hu. rewrite (IH Hnodup). split; [by right |].
      intros [[= -> ->] | Hin]; done.
Qed.

Lemma rank_get_perm (l l' : list (string * Z)) (u : string) :
  NoDup (fst <$> l) -> l ≡ₚ l' -> rank_get l' u = rank_get l u.
Proof.
  intros Hnodup Hperm. apply option_eq. intros n.
  rewrite !rank_get_Some; [by rewrite Hperm | done | by rewrite <- Hperm].
Qed.

Lemma sum_increment (rank : list (string * Z)) (url : string) :
  foldr Z.add 0 (snd <$> increment rank url) = foldr Z.add 0 (snd <$> rank) + 1.
Proof.
  induction rank as [| [u0 r] rank IH]; cbn [increment]; [done |].
  destruct (String.eqb u0 url); rewrite !fmap_cons; cbn [foldr snd];
    [lia | rewrite IH; lia].
Qed.

Lemma sum_fold_increment (urls : list string) (rank : list (string * Z)) :
  foldr Z.add 0 (snd <$> fold_left increment urls rank)
  = foldr Z.add 0 (snd <$> rank) + Z.of_nat (length urls).
Proof.
  revert rank. induction urls as [| url urls IH]; intros rank;
    cbn [fold_left length]; [lia |].
  rewrite IH, sum_increment. lia.
Qed.

Lemma sum_perm (l l' : list Z) : l ≡ₚ l' -> foldr Z.add 0 l = foldr Z.add 0 l'.
Proof. induction 1; simpl; lia. Qed.

(** *** The order of the keys *)

Lemma keys_increment_first (rank : list (string * Z)) (seen : list string)
    (url : string) :
  fst <$> rank = first_occurrences seen ->
  fst <$> increment rank url = first_occurrences (seen ++ [url]).
Proof.
  unfold first_occurrences. intros Hkeys.
  rewrite keys_increment, reverse_app.
  change (reverse [url] ++ reverse seen) with (url :: reverse seen).
  assert (Hdups : remove_dups (url :: reverse seen)
                  = if decide (url ∈ reverse seen) then remove_dups (reverse seen)
                    else url :: remove_dups (reverse seen)) by reflexivity.
  rewrite Hdups. clear Hdups.
  assert (Hin : url ∈ fst <$> rank <-> url ∈ reverse seen).
  { by rewrite Hkeys, elem_of_reverse, elem_of_remove_dups. }
  destruct (rank_get rank url) eqn:Hget.
  - rewrite decide_True; [done |]. apply Hin.
    destruct (decide (url ∈ fst <$> rank)) as [| Hnot]; [done |].
    apply rank_get_None in Hnot. congruence.
  - apply rank_get_None in Hget. rewrite decide_False by (by rewrite <- Hin).
    by rewrite reverse_cons, Hkeys.
Qed.

Lemma keys_fold_increment (urls : list string) (rank : list (string * Z))
    (seen : list string) :
  fst <$> rank = first_occurrences seen ->
  fst <$> fold_left increment urls rank = first_occurrences (seen ++ urls).
Proof.
  revert rank seen. induction urls as [| url urls IH]; intros rank seen Hkeys.
  - cbn [fold_left]. by rewrite app_nil_r.
  - cbn [fold_left]. rewrite (cons_middle url seen urls), (assoc_L (++)).
    by apply IH, keys_increment_first.
Qed.

Lemma keys_count_references (crawled_data : list (string * list string)) :
  fst <$> count_references crawled_data = first_occurrences (referenced crawled_data).
Proof.
  unfold count_references, referenced.
  assert (Hgen : forall data rank seen,
    fst <$> rank = first_occurrences seen ->
    fst <$> fold_left
              (fun (rank : list (string * Z)) (entry : string * list string) =>
                 fold_left increment (snd entry) rank)
              data rank
    = first_occurrences (seen ++ concat (snd <$> data))).
  { induction data as [| [category urls] data IH]; intros rank seen Hkeys.
    - cbn [fold_left fmap list_fmap concat]. by rewrite app_nil_r.
    - cbn [fold_left]. rewrite fmap_cons. cbn [concat snd].
      rewrite (assoc_L (++)). by apply IH, keys_fold_increment. }
  by apply (Hgen crawled_data [] []).
Qed.

(** ** The arguments of the progress callback *)

(** X1.  In every run of either strategy, every call of the progress
    callback passes the number of pages visited so far and the page limit,
    the limit is positive and the number is between zero and the limit. *)
Theorem progress_arguments_in_range (s : strategy) (w : web) (fuel : nat)
    (start_url : string) (max_pages max_depth : Z) (keywords : option (list string))
    (progress_callback : option callback) (stop_event : option (nat -> bool))
    (n m : Z) :
  Progress n m ∈ trace (outcome_state
    (run s w fuel start_url max_pages max_depth keywords progress_callback stop_event)) ->
  m = max_pages /\ 0 <= n <= m /\ 0 < m.
Proof.
  intros Hin. destruct (run_generic s) as (F & HF & HL & Hrun).
  rewrite (proj1 (Hrun _ _ _ _ _ _ _ _)), observe_state in Hin.
  cbn [observe trace] in Hin.
  pose proof (crawl_run_progress_range w max_pages max_depth keywords progress_callback
                stop_event fuel start_url) as Hall.
  rewrite Forall_forall in Hall. exact (Hall _ Hin).
Qed.

Lemma progress_arguments_in_range_witness : 10 = 10 /\ 0 <= 1 <= 10 /\ 0 < 10.
Proof.
  apply (progress_arguments_in_range DepthFirst chain 1 "http://a" 10 1 None
           (Some Callback) None 1 10).
  vm_compute. do 3 apply list_elem_of_further. apply list_elem_of_here.
Defined.

(** ** The depths of the pending items *)

(** X2.  In every run of either strategy, every item in the frontier and
    every item ever popped has a depth between zero and [max_depth + 1] (zero
    when the limit is negative): the crawler never holds an item more than
    one level beyond the limit. *)
Theorem pending_depths_bounded (s : strategy) (w : web) (fuel : nat)
    (start_url : string) (max_pages max_depth : Z) (keywords : option (list string))
    (progress_callback : option callback) (stop_event : option (nat -> bool))
    (url : string) (depth : Z) :
  (url, depth) ∈ frontier (outcome_state
    (run s w fuel start_url max_pages max_depth keywords progress_callback stop_event))
  \/ Pop url depth ∈ trace (outcome_state
    (run s w fuel start_url max_pages max_depth keywords progress_callback stop_event)) ->
  0 <= depth <= Z.max 0 (max_depth + 1).
Proof.
  destruct (run_generic s) as (F & HF & HL & Hrun).
  rewrite (proj1 (Hrun _ _ _ _ _ _ _ _)), observe_state.
  cbn [observe frontier trace].
  destruct (crawl_run_depths w max_pages max_depth keywords progress_callback
              stop_event fuel start_url) as [Hitems Hpops].
  intros [Hin | Hin]; [by eapply Hitems | by eapply Hpops].
Qed.

Lemma pending_depths_bounded_witness : 0 <= 2 <= Z.max 0 (1 + 1).
Proof.
  apply (pending_depths_bounded DepthFirst chain 2 "http://a" 10 1 None None None
           "http://c" 2).
  left. vm_compute. apply list_elem_of_here.
Defined.

(** ** A depth limit below zero *)

(** X3.  With a negative [max_depth] a run of either strategy fetches
    nothing: its only calls are polls of the stop event and the pop of the
    seed, [visited] and the result stay empty, and the run returns the empty
    result. *)
Theorem negative_max_depth_fetches_nothing (s : strategy) (w : web)
    (start_url : string) (max_pages max_depth : Z) (keywords : option (list string))
    (progress_callback : option callback) (stop_event : option (nat -> bool)) :
  max_depth < 0 ->
  (forall fuel,
     visited (outcome_state
       (run s w fuel start_url max_pages max_depth keywords progress_callback
            stop_event)) = ∅
     /\ categorized_urls (outcome_state
          (run s w fuel start_url max_pages max_depth keywords progress_callback
               stop_event)) = ∅
     /\ forall e,
          e ∈ trace (outcome_state
            (run s w fuel start_url max_pages max_depth keywords progress_callback
                 stop_event)) ->
          (exists b, e = IsSet b) \/ e = Pop start_url 0)
  /\ exists fuel,
       run_crawl s w fuel start_url max_pages max_depth keywords progress_callback
                 stop_event = Some ∅.
Proof.
  intros Hneg. destruct (run_generic s) as (F & HF & HL & Hrun). split.
  - intros fuel. rewrite (proj1 (Hrun _ _ _ _ _ _ _ _)), observe_state.
    cbn [observe visited categorized_urls trace].
    destruct (crawl_run_idle w max_pages max_depth keywords progress_callback
                stop_event fuel start_url Hneg) as (Hvis & Hcat & Htrace).
    split; [done |]. split; [done |].
    intros e He. rewrite Forall_forall in Htrace. specialize (Htrace e He).
    destruct e as [b | u d | u d | u d | u m | n m]; try done.
    + left. by exists b.
    + right. by destruct Htrace as [-> ->].
  - destruct (crawl_terminates w max_pages max_depth keywords progress_callback
                stop_event start_url) as (fuel & st & Hret).
    destruct (Hret fuel (Nat.le_refl _)) as [Hreturn Hvalue].
    exists fuel. rewrite (proj2 (Hrun _ _ _ _ _ _ _ _)), Hvalue.
    destruct (crawl_run_idle w max_pages max_depth keywords progress_callback
                stop_event fuel start_url Hneg) as (_ & Hcat & _).
    rewrite Hreturn in Hcat. cbn [outcome_state] in Hcat. by rewrite Hcat.
Qed.

Lemma negative_max_depth_fetches_nothing_witness :
  visited (outcome_state (run BestFirst chain 3 "http://a" 10 (-1) None None None)) = ∅.
Proof.
  assert (Hneg : -1 < 0) by lia.
  exact (proj1 (proj1 (negative_max_depth_fetches_nothing BestFirst chain "http://a" 10
                         (-1) None None None Hneg) 3%nat)).
Defined.

(** ** Where the visited URLs come from *)

(** X4.  In every run of either strategy, every URL in [visited] was
    fetched with success in an earlier pass of the run. *)
Theorem visited_pages_were_fetched (s : strategy) (w : web) (fuel : nat)
    (start_url : string) (max_pages max_depth : Z) (keywords : option (list string))
    (progress_callback : option callback) (stop_event : option (nat -> bool))
    (url : string) :
  url ∈ visited (outcome_state
    (run s w fuel start_url max_pages max_depth keywords progress_callback stop_event)) ->
  exists n page,
    (n < iteration (outcome_state
       (run s w fuel start_url max_pages max_depth keywords progress_callback
            stop_event)))%nat
    /\ urlopen w n url = Ok page.
Proof.
  destruct (run_generic s) as (F & HF & HL & Hrun).
  rewrite (proj1 (Hrun _ _ _ _ _ _ _ _)), observe_state.
  cbn [observe visited iteration]. apply crawl_run_fetched.
Qed.

Lemma visited_pages_were_fetched_witness :
  exists n page,
    (n < iteration (outcome_state
       (run DepthFirst chain 2 "http://a" 10 1 None None None)))%nat
    /\ urlopen chain n "http://b" = Ok page.
Proof.
  apply (visited_pages_were_fetched DepthFirst chain 2 "http://a" 10 1 None None None
           "http://b").
  by vm_compute.
Defined.

(** X5.  In every run of either strategy, every URL in [visited] other than
    the seed is a link of a page fetched from a visited URL: a reference of
    that page, resolved against the URL of the page and stripped of its
    trailing slashes. *)
Theorem visited_only_discovered (s : strategy) (w : web) (fuel : nat)
    (start_url : string) (max_pages max_depth : Z) (keywords : option (list string))
    (progress_callback : option callback) (stop_event : option (nat -> bool))
    (url : string) :
  url ∈ visited (outcome_state
    (run s w fuel start_url max_pages max_depth keywords progress_callback stop_event)) ->
  url = start_url
  \/ exists parent n page t joined,
       parent ∈ visited (outcome_state
         (run s w fuel start_url max_pages max_depth keywords progress_callback
              stop_event))
       /\ urlopen w n parent = Ok page
       /\ t ∈ find_all_a page
       /\ urljoin w parent (href t) = Ok joined
       /\ url = PyStr.rstrip_slash joined.
Proof.
  destruct (run_generic s) as (F & HF & HL & Hrun).
  rewrite (proj1 (Hrun _ _ _ _ _ _ _ _)), observe_state.
  cbn [observe visited]. apply crawl_run_linked.
Qed.

Lemma visited_only_discovered_witness :
  "http://b" = "http://a"
  \/ exists parent n page t joined,
       parent ∈ visited (outcome_state
         (run BestFirst chain 2 "http://a" 10 1 None None None))
       /\ urlopen chain n parent = Ok page
       /\ t ∈ find_all_a page
       /\ urljoin chain parent (href t) = Ok joined
       /\ "http://b" = PyStr.rstrip_slash joined.
Proof.
  apply (visited_only_discovered BestFirst chain 2 "http://a" 10 1 None None None
           "http://b").
  by vm_compute.
Defined.

(** ** Nothing is taken back *)

(** X6.  In every run of either strategy the state only grows: from one
    pass to any later one no URL leaves [visited], the calls made stay made
    in their order, and every list of the result is extended at its end. *)
Theorem later_states_extend_earlier (s : strategy) (w : web) (start_url : string)
    (max_pages max_depth : Z) (keywords : option (list string))
    (progress_callback : option callback) (stop_event : option (nat -> bool))
    (fuel fuel' : nat) :
  (fuel <= fuel')%nat ->
  visited (outcome_state
    (run s w fuel start_url max_pages max_depth keywords progress_callback stop_event))
  ⊆ visited (outcome_state
      (run s w fuel' start_url max_pages max_depth keywords progress_callback
           stop_event))
  /\ trace (outcome_state
       (run s w fuel start_url max_pages max_depth keywords progress_callback
            stop_event))
     `prefix_of` trace (outcome_state
       (run s w fuel' start_url max_pages max_depth keywords progress_callback
            stop_event))
  /\ forall category urls,
       categorized_urls (outcome_state
         (run s w fuel start_url max_pages max_depth keywords progress_callback
              stop_event)) !! category = Some urls ->
       exists more,
         categorized_urls (outcome_state
           (run s w fuel' start_url max_pages max_depth keywords progress_callback
                stop_event)) !! category = Some (urls ++ more).
Proof.
  intros Hle. destruct (run_generic s) as (F & HF & HL & Hrun).
  rewrite !(proj1 (Hrun _ _ _ _ _ _ _ _)), !observe_state.
  cbn [observe visited trace categorized_urls].
  exact (crawl_loop_extends w max_pages max_depth keywords progress_callback stop_event
           fuel fuel' (initial start_url) Hle).
Qed.

Lemma later_states_extend_earlier_witness :
  visited (outcome_state (run DepthFirst chain 1 "http://a" 10 1 None None None))
  ⊆ visited (outcome_state (run DepthFirst chain 3 "http://a" 10 1 None None None)).
Proof.
  assert (Hle : (1 <= 3)%nat) by lia.
  exact (proj1 (later_states_extend_earlier DepthFirst chain "http://a" 10 1 None None
                  None 1 3 Hle)).
Defined.

(** ** The categorized result *)

(** X7.  In every run of either strategy, a URL is listed under a category
    only if a page fetched from a visited URL has a heading whose text,
    stripped and lowered, is the category, and links to the URL with an
    anchor whose text, stripped and lowered, contains the category. *)
Theorem listed_links_match_category (s : strategy) (w : web) (fuel : nat)
    (start_url : string) (max_pages max_depth : Z) (keywords : option (list string))
    (progress_callback : option callback) (stop_event : option (nat -> bool))
    (category : string) (urls : list string) (url : string) :
  categorized_urls (outcome_state
    (run s w fuel start_url max_pages max_depth keywords progress_callback stop_event))
    !! category = Some urls ->
  url ∈ urls ->
  exists parent n page heading t joined,
    parent ∈ visited (outcome_state
      (run s w fuel start_url max_pages max_depth keywords progress_callback stop_event))
    /\ urlopen w n parent = Ok page
    /\ heading ∈ find_all_headings page
    /\ category = str_lower w (str_strip w heading)
    /\ t ∈ find_all_a page
    /\ urljoin w parent (href t) = Ok joined
    /\ url = PyStr.rstrip_slash joined
    /\ PyStr.contains (str_lower w (str_strip w (get_text t))) category = true.
Proof.
  destruct (run_generic s) as (F & HF & HL & Hrun).
  rewrite (proj1 (Hrun _ _ _ _ _ _ _ _)), observe_state.
  cbn [observe visited categorized_urls]. intros Hlookup Hin.
  destruct (crawl_run_listed w max_pages max_depth keywords progress_callback
              stop_event fuel start_url category urls Hlookup) as [_ Hall].
  destruct (Hall url Hin)
    as (parent & n & page & heading & t & joined & ? & ? & ? & ? & _ & ? & ? & ? & ?).
  by exists parent, n, page, heading, t, joined.
Qed.

Lemma listed_links_match_category_witness :
  exists parent n page heading t joined,
    parent ∈ visited (outcome_state
      (run BestFirst catalog 1 "http://a" 10 3 None None None))
    /\ urlopen catalog n parent = Ok page
    /\ heading ∈ find_all_headings page
    /\ "about us" = str_lower catalog (str_strip catalog heading)
    /\ t ∈ find_all_a page
    /\ urljoin catalog parent (href t) = Ok joined
    /\ "http://a/about" = PyStr.rstrip_slash joined
    /\ PyStr.contains (str_lower catalog (str_strip catalog (get_text t))) "about us" = true.
Proof.
  apply (listed_links_match_category BestFirst catalog 1 "http://a" 10 3 None None None
           "about us" ["http://a/about"] "http://a/about").
  - by vm_compute.
  - apply list_elem_of_here.
Defined.

(** X8.  In every run of either strategy, after a pass that fetches a page
    whose references can all be resolved, every link of the page that is not
    yet visited is listed in the result under every category of the page
    (a heading of at least three characters, stripped and lowered) that
    the text of its anchor contains. *)
Theorem page_links_listed_under_categories (s : strategy) (w : web)
    (start_url : string) (max_pages max_depth : Z) (keywords : option (list string))
    (progress_callback : option callback) (stop_event : option (nat -> bool))
    (fuel : nat) (st : state (list (string * Z))) (url : string) (depth : Z)
    (page : soup) (heading : string) (t : tag) (joined : string) :
  run s w fuel start_url max_pages max_depth keywords progress_callback stop_event
  = Continue st ->
  Fetch url depth ∈ new_events st (outcome_state
    (run s w (S fuel) start_url max_pages max_depth keywords progress_callback
         stop_event)) ->
  urlopen w (iteration st) url = Ok page ->
  resolvable w url (find_all_a page) ->
  heading ∈ find_all_headings page ->
  (3 <= PyStr.len (str_lower w (str_strip w heading)))%nat ->
  t ∈ find_all_a page ->
  urljoin w url (href t) = Ok joined ->
  PyStr.rstrip_slash joined <> url ->
  PyStr.rstrip_slash joined ∉ visited st ->
  PyStr.contains (str_lower w (str_strip w (get_text t)))
                 (str_lower w (str_strip w heading)) = true ->
  exists urls,
    categorized_urls (outcome_state
      (run s w (S fuel) start_url max_pages max_depth keywords progress_callback
           stop_event)) !! str_lower w (str_strip w heading) = Some urls
    /\ PyStr.rstrip_slash joined ∈ urls.
Proof.
  intros Hbefore Hin Hopen Hall Hheading Hlen Ht Hjoin Hself Hnew Hcontains.
  destruct (run_step _ _ _ _ _ _ _ _ _ _ Hbefore)
    as (F & HF & HL & st0 & o & -> & Hpass & Hafter & _).
  rewrite Hafter, observe_state in *.
  cbn [observe iteration visited categorized_urls] in *.
  destruct (pass_page_merged _ _ _ _ _ _ _ _ _ _ _ Hpass Hin Hopen Hall)
    as (categories & Hcats & ->).
  assert (Hlink : PyStr.rstrip_slash joined
                  ∈ category_links w url ({[url]} ∪ visited st0)
                      (str_lower w (str_strip w heading)) (find_all_a page)).
  { apply (category_links_complete w url _ _ _ t joined); try done. set_solver. }
  rewrite lookup_merge_categories, Hcats,
    (extract_categories_complete _ _ _ Hheading Hlen).
  simpl fmap.
  destruct (category_links w url ({[url]} ∪ visited st0)
              (str_lower w (str_strip w heading)) (find_all_a page))
    as [| u0 links] eqn:Hlinks; [by apply elem_of_nil in Hlink |].
  eexists. split; [reflexivity |].
  apply elem_of_app. right.
  by apply (proj2 (elem_of_remove_dups (u0 :: links) _)).
Qed.

Lemma page_links_listed_under_categories_witness :
  exists urls,
    categorized_urls (outcome_state
      (run BestFirst catalog 1 "http://a" 10 3 None None None))
      !! str_lower catalog (str_strip catalog "Products") = Some urls
    /\ PyStr.rstrip_slash "http://a/p1" ∈ urls.
Proof.
  apply (page_links_listed_under_categories BestFirst catalog "http://a" 10 3 None
           None None 0%nat (State [("http://a", 0)] ∅ ∅ [] 0) "http://a" 0
           (page_of [("http://a/p1", "Our Products"); ("http://a/p2", " more products ");
                     ("http://a/about/", "About us"); ("http://a/p1", "PRODUCTS again");
                     ("http://a/misc", "Other")]
                    ["Products"; "  About Us "; "FAQ"; "x"]
                    "Products. About us. FAQ.")
           "Products" (Tag "http://a/p1" "Our Products") "http://a/p1").
  - reflexivity.
  - vm_compute. apply list_elem_of_further, list_elem_of_here.
  - reflexivity.
  - repeat constructor; by eexists.
  - apply list_elem_of_here.
  - simpl. lia.
  - apply list_elem_of_here.
  - reflexivity.
  - discriminate.
  - apply not_elem_of_empty.
  - reflexivity.
Defined.

(** ** The stack of the depth-first crawl *)

(** X9.  In depth-first mode the frontier is a stack: a pass that fetches
    a page takes the last item of the list and appends the links discovered
    on the page, one level deeper, in the order of the page, so that the last
    link of the page is the next item popped. *)
Theorem depth_first_stack_order (w : web) (start_url : string)
    (max_pages max_depth : Z) (keywords : option (list string))
    (progress_callback : option callback) (stop_event : option (nat -> bool))
    (fuel : nat) (st : state (list (string * Z))) (url : string) (depth : Z)
    (page : soup) :
  dfs_run w fuel start_url max_pages max_depth keywords progress_callback stop_event
  = Continue st ->
  Fetch url depth ∈ new_events st (outcome_state
    (dfs_run w (S fuel) start_url max_pages max_depth keywords progress_callback
             stop_event)) ->
  urlopen w (iteration st) url = Ok page ->
  exists rest,
    frontier st = rest ++ [(url, depth)]
    /\ frontier (outcome_state
         (dfs_run w (S fuel) start_url max_pages max_depth keywords progress_callback
                  stop_event))
       = rest ++ ((fun link => (link, depth + 1))
                    <$> discovered_links w url ({[url]} ∪ visited st) (find_all_a page))
    /\ forall links link,
         discovered_links w url ({[url]} ∪ visited st) (find_all_a page)
         = links ++ [link] ->
         dfs_pop (frontier (outcome_state
           (dfs_run w (S fuel) start_url max_pages max_depth keywords progress_callback
                    stop_event)))
         = Some (link, depth + 1, rest ++ ((fun link => (link, depth + 1)) <$> links)).
Proof.
  intros Hbefore Hin Hopen.
  pose proof (crawl_run_step (F := list (string * Z)) _ _ _ _ _ _ _ _ _ Hbefore)
    as Hpass.
  destruct (pass_fetch_page _ _ _ _ _ _ _ _ _ _ _ Hpass Hin Hopen)
    as (rest & Hpop & _ & _ & Hfrontier).
  simpl in Hpop. unfold dfs_pop in Hpop.
  destruct (list_pop (frontier st)) as [[[u d] r] |] eqn:Hlast; [| done].
  injection Hpop as -> -> ->. apply list_pop_spec in Hlast.
  exists rest. split; [done |].
  unfold dfs_run. rewrite Hfrontier, scan_links_dfs. split; [done |].
  intros links link ->. unfold dfs_pop.
  rewrite fmap_app, (assoc_L (++)). simpl.
  by rewrite (proj2 (list_pop_spec _ (link, depth + 1)
                       (rest ++ ((fun link => (link, depth + 1)) <$> links))) eq_refl).
Qed.

Lemma depth_first_stack_order_witness :
  exists rest,
    [("http://a", 0)] = rest ++ [("http://a", 0)]
    /\ frontier (outcome_state (dfs_run broken 1 "http://a" 10 3 None None None))
       = rest ++ ((fun link => (link, 0 + 1))
                    <$> discovered_links broken "http://a" ({["http://a"]} ∪ ∅)
                          [Tag "http://b" "to b"; Tag "http://c" "to c"])
    /\ forall links link,
         discovered_links broken "http://a" ({["http://a"]} ∪ ∅)
           [Tag "http://b" "to b"; Tag "http://c" "to c"]
         = links ++ [link] ->
         dfs_pop (frontier (outcome_state
           (dfs_run broken 1 "http://a" 10 3 None None None)))
         = Some (link, 0 + 1, rest ++ ((fun link => (link, 0 + 1)) <$> links)).
Proof.
  apply (depth_first_stack_order broken "http://a" 10 3 None None None 0%nat
           (State [("http://a", 0)] ∅ ∅ [] 0) "http://a" 0
           (page_of [("http://b", "to b"); ("http://c", "to c")] [] "page a")).
  - reflexivity.
  - vm_compute. apply list_elem_of_further, list_elem_of_here.
  - reflexivity.
Defined.

(** ** The categories of a page *)

(** X10.  [extract_categories] maps a key to the empty list exactly when
    the key has at least three characters and is the text of a heading of the
    page, stripped and lowered; it holds nothing else. *)
Theorem extract_categories_keys (w : web) (page : soup) (category : string) :
  (extract_categories w page !! category = Some []
   <-> (3 <= PyStr.len category)%nat
       /\ exists heading,
            heading ∈ find_all_headings page
            /\ category = str_lower w (str_strip w heading))
  /\ (forall urls, extract_categories w page !! category = Some urls -> urls = []).
Proof.
  split; [split |].
  - intros (_ & Hlen & Hheading)%extract_categories_lookup. done.
  - intros (Hlen & heading & Hin & ->). by apply extract_categories_complete.
  - by intros urls (-> & _)%extract_categories_lookup.
Qed.

Lemma extract_categories_keys_witness :
  extract_categories catalog (page_of [] ["  About Us "; "x"] "") !! "about us"
  = Some [].
Proof.
  apply (proj1 (extract_categories_keys catalog (page_of [] ["  About Us "; "x"] "")
                  "about us")).
  split; [simpl; lia |].
  exists "  About Us ". split; [apply list_elem_of_here | reflexivity].
Defined.

(** ** The lists of the result *)

(** X11.  In every run of either strategy, no list of the result is empty,
    every key of the result has at least three characters, and no URL in a
    list ends with a slash. *)
Theorem result_lists_wellformed (s : strategy) (w : web) (fuel : nat)
    (start_url : string) (max_pages max_depth : Z) (keywords : option (list string))
    (progress_callback : option callback) (stop_event : option (nat -> bool))
    (category : string) (urls : list string) :
  categorized_urls (outcome_state
    (run s w fuel start_url max_pages max_depth keywords progress_callback stop_event))
    !! category = Some urls ->
  urls <> []
  /\ (3 <= PyStr.len category)%nat
  /\ Forall (fun url => PyStr.endswith_slash url = false) urls.
Proof.
  destruct (run_generic s) as (F & HF & HL & Hrun).
  rewrite (proj1 (Hrun _ _ _ _ _ _ _ _)), observe_state.
  cbn [observe categorized_urls]. intros Hlookup.
  destruct (crawl_run_listed w max_pages max_depth keywords progress_callback
              stop_event fuel start_url category urls Hlookup) as [Hne Hall].
  split; [done |]. split.
  - destruct urls as [| u urls]; [done |].
    by destruct (Hall u (list_elem_of_here _ _))
      as (parent & n & page & heading & t & joined & _ & _ & _ & _ & Hlen & _).
  - apply Forall_forall. intros u Hu.
    destruct (Hall u Hu)
      as (parent & n & page & heading & t & joined & _ & _ & _ & _ & _ & _ & _ & -> & _).
    apply rstrip_slash_stripped.
Qed.

Lemma result_lists_wellformed_witness :
  ["http://a/about"] <> []
  /\ (3 <= PyStr.len "about us")%nat
  /\ Forall (fun url => PyStr.endswith_slash url = false) ["http://a/about"].
Proof.
  apply (result_lists_wellformed BestFirst catalog 1 "http://a" 10 3 None None None
           "about us" ["http://a/about"]).
  by vm_compute.
Defined.

(** ** Trailing slashes of a link *)

(** X12.  [rstrip('/')] takes from a link its trailing slashes and nothing
    else: the link is the result followed by slashes only, the result does
    not end with a slash, a string that does not end with a slash is left as
    it is, and stripping twice is stripping once. *)
Theorem rstrip_slash_removes_trailing_slashes (link : string) :
  (exists n,
     link = String.append (PyStr.rstrip_slash link)
                          (string_of_list_ascii (repeat "/"%char n)))
  /\ PyStr.endswith_slash (PyStr.rstrip_slash link) = false
  /\ (PyStr.endswith_slash link = false -> PyStr.rstrip_slash link = link)
  /\ PyStr.rstrip_slash (PyStr.rstrip_slash link) = PyStr.rstrip_slash link.
Proof.
  split; [apply rstrip_slash_append |].
  split; [apply rstrip_slash_stripped |].
  split; [apply rstrip_slash_fixed | apply rstrip_idem].
Qed.

Lemma rstrip_slash_removes_trailing_slashes_witness :
  PyStr.rstrip_slash "http://a/b" = "http://a/b".
Proof.
  apply (proj1 (proj2 (proj2 (rstrip_slash_removes_trailing_slashes "http://a/b")))).
  reflexivity.
Defined.

(** ** The keyword score *)

(** X13.  The keyword score is never negative.  The occurrences of a
    keyword do not overlap: their number times the length of the lowered
    keyword is at most the length of the lowered content.  So when no
    keyword is empty once lowered, the score is at most the number of
    keywords times the length of the lowered content. *)
Theorem keyword_score_bounds (w : web) (content : string) (keywords : list string) :
  0 <= keyword_heuristic_score w content keywords
  /\ (forall keyword,
        keyword_heuristic_score w content [keyword]
        * Z.of_nat (PyStr.len (str_lower w keyword))
        <= Z.of_nat (PyStr.len (str_lower w content)))
  /\ (Forall (fun keyword => (0 < PyStr.len (str_lower w keyword))%nat) keywords ->
      keyword_heuristic_score w content keywords
      <= Z.of_nat (length keywords) * Z.of_nat (PyStr.len (str_lower w content))).
Proof.
  assert (Hone : forall keyword,
    (0 < PyStr.len (str_lower w keyword))%nat ->
    Z.of_nat (PyStr.count (str_lower w content) (str_lower w keyword))
    * Z.of_nat (PyStr.len (str_lower w keyword))
    <= Z.of_nat (PyStr.len (str_lower w content))).
  { intros keyword Hne.
    pose proof (count_bound (str_lower w content) (str_lower w keyword) Hne). lia. }
  split; [| split].
  - rewrite keyword_heuristic_score_spec. apply spec_keyword_score_nonneg.
  - intros keyword. unfold keyword_heuristic_score. cbn [fold_left].
    rewrite Z.add_0_l.
    destruct (PyStr.len (str_lower w keyword)) as [| n] eqn:Hlen; [lia |].
    rewrite <- Hlen. apply Hone. lia.
  - intros Hall. rewrite keyword_heuristic_score_spec.
    induction Hall as [| keyword keywords Hne Hall IH];
      cbn [spec_keyword_score length]; [lia |].
    unfold occurrences_ignoring_case.
    specialize (Hone keyword Hne). nia.
Qed.

Lemma keyword_score_bounds_witness :
  keyword_heuristic_score shop "Shop here. Our SHOP is open. shopping" ["shop"; "open"]
  <= Z.of_nat (length ["shop"; "open"])
     * Z.of_nat (PyStr.len (str_lower shop "Shop here. Our SHOP is open. shopping")).
Proof.
  apply (proj2 (proj2 (keyword_score_bounds shop "Shop here. Our SHOP is open. shopping"
                         ["shop"; "open"]))).
  repeat constructor.
Defined.

(** X14.  The keyword score of a list of keywords is the sum of the scores
    of its parts: keywords count independently of each other, and the order
    of the keywords does not matter. *)
Theorem keyword_score_additive (w : web) (content : string)
    (keywords1 keywords2 : list string) :
  keyword_heuristic_score w content (keywords1 ++ keywords2)
  = keyword_heuristic_score w content keywords1
    + keyword_heuristic_score w content keywords2
  /\ (keywords1 ≡ₚ keywords2 ->
      keyword_heuristic_score w content keywords1
      = keyword_heuristic_score w content keywords2).
Proof.
  rewrite !keyword_heuristic_score_spec. split; [apply spec_keyword_score_app |].
  intros Hperm. induction Hperm as [| k l l' _ IH | k k' l | l l' l'' _ IH1 _ IH2];
    cbn [spec_keyword_score]; lia.
Qed.

Lemma keyword_score_additive_witness :
  keyword_heuristic_score shop "a shop and a store" ["shop"; "store"]
  = keyword_heuristic_score shop "a shop and a store" ["store"; "shop"].
Proof.
  apply (proj2 (keyword_score_additive shop "a shop and a store" ["shop"; "store"]
                  ["store"; "shop"])).
  apply Permutation_swap.
Defined.

(** ** The keywords entry of the user interface *)

(** X15.  [split(",")] never returns the empty list, no piece holds a
    comma, and joining the pieces with commas gives the text back. *)
Theorem split_comma_join (text : string) :
  split_comma text <> []
  /\ Forall (fun piece => PyStr.contains piece "," = false) (split_comma text)
  /\ String.concat "," (split_comma text) = text.
Proof.
  split; [apply split_comma_nonempty |].
  induction text as [| c text [IHall IHjoin]]; [by repeat constructor |].
  cbn [split_comma]. pose proof (split_comma_nonempty text) as Hne.
  destruct (Ascii.eqb c ",") eqn:Hc.
  - apply Ascii.eqb_eq in Hc as ->. split; [by constructor |].
    destruct (split_comma text) as [| piece pieces]; [done |].
    change (String.concat "," (EmptyString :: piece :: pieces))
      with (String "," (String.concat "," (piece :: pieces))).
    by rewrite IHjoin.
  - destruct (split_comma text) as [| piece pieces]; [done |].
    apply Forall_cons in IHall as [Hpiece Hpieces]. split.
    + constructor; [| done].
      cbn [PyStr.contains String.prefix]. rewrite Hpiece.
      destruct (ascii_dec "," c) as [<- | _]; [by rewrite Ascii.eqb_refl in Hc | done].
    + rewrite <- IHjoin. by destruct pieces.
Qed.

(** ** The test of an anchor text against a category *)

(** X16.  The test [category in text] holds exactly when the text is some
    string, then the category, then some string: a category need not be a
    whole word of the anchor text. *)
Theorem contains_substring (text category : string) :
  PyStr.contains text category = true
  <-> exists before after,
        text = String.append before (String.append category after).
Proof. apply contains_append. Qed.

Lemma contains_substring_witness : PyStr.contains "our products" "prod" = true.
Proof.
  apply (proj2 (contains_substring "our products" "prod")).
  by exists "our ", "ucts".
Defined.

(** X17.  In every run of either strategy, what one pass adds to a list of
    the result is put at its end and holds no URL twice; a list can hold a
    URL twice only from two pages. *)
Theorem one_pass_adds_distinct_links (s : strategy) (w : web) (fuel : nat)
    (start_url : string) (max_pages max_depth : Z) (keywords : option (list string))
    (progress_callback : option callback) (stop_event : option (nat -> bool))
    (category : string) (urls : list string) :
  categorized_urls (outcome_state
    (run s w (S fuel) start_url max_pages max_depth keywords progress_callback
         stop_event)) !! category = Some urls ->
  exists more,
    urls = default [] (categorized_urls (outcome_state
             (run s w fuel start_url max_pages max_depth keywords progress_callback
                  stop_event)) !! category)
           ++ more
    /\ NoDup more.
Proof.
  destruct (run_generic s) as (F & HF & HL & Hrun).
  rewrite !(proj1 (Hrun _ _ _ _ _ _ _ _)), !observe_state.
  cbn [observe categorized_urls].
  apply (crawl_loop_adds_distinct w max_pages max_depth keywords progress_callback
           stop_event).
Qed.

Lemma one_pass_adds_distinct_links_witness :
  exists more,
    ["http://a/p2"; "http://a/p1"]
    = default [] (categorized_urls (outcome_state
        (run BestFirst catalog 0 "http://a" 10 3 None None None)) !! "products")
      ++ more
    /\ NoDup more.
Proof.
  apply (one_pass_adds_distinct_links BestFirst catalog 0 "http://a" 10 3 None None None
           "products" ["http://a/p2"; "http://a/p1"]).
  by vm_compute.
Defined.

(** ** [calculate_pagerank] *)

(** X18.  [calculate_pagerank] gives every URL that is listed under some
    category the number of times it is listed, over all categories, gives no
    rank to any other URL, and holds every URL once. *)
Theorem pagerank_counts_references (crawled_data : list (string * list string))
    (url : string) :
  rank_get (calculate_pagerank crawled_data) url
  = (if decide (url ∈ referenced crawled_data)
     then Some (Z.of_nat (count_occ String.string_dec (referenced crawled_data) url))
     else None)
  /\ NoDup (fst <$> calculate_pagerank crawled_data).
Proof.
  destruct (count_references_counts crawled_data) as [Hnodup Hcounts].
  unfold calculate_pagerank. split.
  - rewrite <- Hcounts. apply rank_get_perm; [done |].
    symmetry. apply sorted_by_rank_perm.
  - by rewrite sorted_by_rank_perm.
Qed.

(** X19.  The items returned by [calculate_pagerank] are in descending
    order of rank, and the items of one rank are in the order they have in
    the dictionary [rank], which holds the URLs in the order in which they
    were first met.  No other list is in descending order with the items of
    every rank in that order: the result does not depend on the method of
    sorting. *)
Theorem pagerank_sorted_stable (crawled_data : list (string * list string)) :
  StronglySorted (fun a b => snd b <= snd a) (calculate_pagerank crawled_data)
  /\ (forall n,
        filter (fun item => snd item = n) (calculate_pagerank crawled_data)
        = filter (fun item => snd item = n) (count_references crawled_data))
  /\ fst <$> count_references crawled_data
     = first_occurrences (referenced crawled_data)
  /\ (forall sorted,
        StronglySorted (fun a b => snd b <= snd a) sorted ->
        (forall n,
           filter (fun item => snd item = n) sorted
           = filter (fun item => snd item = n) (count_references crawled_data)) ->
        sorted = calculate_pagerank crawled_data).
Proof.
  unfold calculate_pagerank. split; [apply sorted_by_rank_sorted |].
  split; [intros n; apply sorted_by_rank_filter |].
  split; [apply keys_count_references |].
  intros sorted Hsorted Hfilter.
  apply sorted_stable_unique; [done | apply sorted_by_rank_sorted |].
  intros n. by rewrite Hfilter, sorted_by_rank_filter.
Qed.

Lemma pagerank_sorted_stable_witness :
  [("u", 2); ("v", 1); ("w", 1)]
  = calculate_pagerank [("first", ["v"; "u"]); ("second", ["w"; "u"])].
Proof.
  apply (proj2 (proj2 (proj2 (pagerank_sorted_stable
                                [("first", ["v"; "u"]); ("second", ["w"; "u"])])))).
  - repeat constructor; simpl; lia.
  - intros n. vm_compute count_references. rewrite !filter_cons, !filter_nil.
    simpl. destruct (decide (2 = n)), (decide (1 = n)); try done. lia.
Defined.

(** X20.  The ranks given by [calculate_pagerank] add up to the number of
    URLs listed in [crawled_data], every listing counted. *)
Theorem pagerank_total (crawled_data : list (string * list string)) :
  foldr Z.add 0 (snd <$> calculate_pagerank crawled_data)
  = Z.of_nat (length (referenced crawled_data)).
Proof.
  unfold calculate_pagerank.
  rewrite (sum_perm _ (snd <$> count_references crawled_data))
    by (by rewrite sorted_by_rank_perm).
  unfold count_references, referenced.
  assert (Hgen : forall data rank,
    foldr Z.add 0
      (snd <$> fold_left (fun (rank : list (string * Z)) (entry : string * list string) =>
                            fold_left increment (snd entry) rank) data rank)
    = foldr Z.add 0 (snd <$> rank) + Z.of_nat (length (concat (snd <$> data)))).
  { induction data as [| [category urls] data IH]; intros rank;
      cbn [fold_left]; rewrite ?fmap_cons; cbn [concat snd]; [simpl; lia |].
    rewrite IH, sum_fold_increment, length_app. lia. }
  by rewrite Hgen.
Qed.

(** ** The algorithm menu of the user interface *)

(** X21.  Whatever entry of the algorithm menu is selected, [run_crawl]
    calls [bfs_crawl]: with the keywords for the first entry, and without
    keywords for the second entry, whose text is not the text that
    [run_crawl] compares with to call [dfs_crawl]. *)
Theorem menu_never_runs_depth_first (w : web) (fuel : nat) (url : string)
    (max_pages : Z) (keywords_entry algorithm : string) (is_set : nat -> bool) :
  algorithm ∈ algorithm_menu ->
  gui_crawl w fuel url max_pages keywords_entry algorithm is_set
  = bfs_crawl w fuel url max_pages 3
      (if String.eqb algorithm "Best-First Search (BFS)"
       then Some (split_comma keywords_entry) else None)
      (Some Callback) (Some is_set).
Proof.
  unfold algorithm_menu. intros Hin.
  apply elem_of_cons in Hin as [-> | Hin]; [reflexivity |].
  apply list_elem_of_singleton in Hin as ->. reflexivity.
Qed.

Lemma menu_never_runs_depth_first_witness :
  gui_crawl chain 4 "http://a" 10 "shop" "Depth-First Search (DFS" (fun _ => false)
  = bfs_crawl chain 4 "http://a" 10 3 None (Some Callback) (Some (fun _ => false)).
Proof.
  apply (menu_never_runs_depth_first chain 4 "http://a" 10 "shop"
           "Depth-First Search (DFS" (fun _ => false)).
  apply list_elem_of_further, list_elem_of_here.
Defined.

(** X22.  The keywords that [run_crawl] passes are never an empty list, so
    a best-first crawl started with keywords from the user interface scores
    every link by the keywords and never by its length; with a blank
    keywords entry the only keyword is the empty string, and every link of a
    page gets the length of the lowered page text plus one. *)
Theorem gui_keywords_always_score (w : web) (page_content keywords_entry link : string) :
  link_score w page_content (Some (split_comma keywords_entry)) link
  = keyword_heuristic_score w page_content (split_comma keywords_entry)
  /\ (str_lower w "" = "" ->
      link_score w page_content (Some (split_comma "")) link
      = Z.of_nat (PyStr.len (str_lower w page_content)) + 1).
Proof.
  split.
  - unfold link_score. pose proof (split_comma_nonempty keywords_entry).
    by destruct (split_comma keywords_entry).
  - intros Hempty. unfold link_score, keyword_heuristic_score.
    simpl. rewrite Hempty. cbn [PyStr.count]. lia.
Qed.

Lemma gui_keywords_always_score_witness :
  link_score shop "shop Shop SHOP" (Some (split_comma "")) "http://b" = 15.
Proof.
  apply (proj2 (gui_keywords_always_score shop "shop Shop SHOP" "" "http://b")).
  reflexivity.
Defined.

(** ** A push followed by a pop *)

(** X23.  On a heap, [heappush] followed by [heappop] returns the least of
    the pushed item and the items of the heap, in the order of tuples, and
    leaves a heap that holds the others. *)
Theorem heappush_heappop_least (heap : list item) (x : item) :
  is_heap heap ->
  exists least rest,
    heappop (heappush heap x) = Some (least, rest)
    /\ is_heap rest
    /\ x :: heap ≡ₚ least :: rest
    /\ item_leb least x = true
    /\ forall y, y ∈ heap -> item_leb least y = true.
Proof.
  intros Hheap. pose proof (heappush_heap heap x Hheap) as Hpushed.
  pose proof (heappush_perm heap x) as Hperm.
  assert (Hne : nonempty (heappush heap x) = true).
  { destruct (heappush heap x); [| done]. by apply Permutation_nil_cons in Hperm. }
  destruct (heappop_nonempty _ Hne) as [[least rest] Hpop].
  destruct (heappop_heap _ _ _ Hpushed Hpop) as [Hrest Hleast].
  exists least, rest. split; [done |]. split; [done |].
  split; [by rewrite <- Hperm, <- (heappop_perm _ _ _ Hpop) |].
  split; [apply Hleast; rewrite Hperm; apply list_elem_of_here |].
  intros y Hy. apply Hleast. rewrite Hperm. by apply list_elem_of_further.
Qed.

Lemma heappush_heappop_least_witness :
  exists least rest,
    heappop (heappush [(5, "http://b", 1)] (3, "http://c", 1)) = Some (least, rest)
    /\ is_heap rest
    /\ [(3, "http://c", 1); (5, "http://b", 1)] ≡ₚ least :: rest
    /\ item_leb least (3, "http://c", 1) = true
    /\ forall y, y ∈ [(5, "http://b", 1)] -> item_leb least y = true.
Proof.
  apply (heappush_heappop_least [(5, "http://b", 1)] (3, "http://c", 1)).
  intros i Hi. simpl in Hi. lia.
Defined.
